(** * Tchiav's Excellence: the client-side router and the testimonial carousel

    A shallow embedding of [src/js/main.js] (the [App] object).  The DOM is
    a forest of nodes and an element reference is a path into that forest.
    The stateful methods of [App] are computations in a small
    state-and-exception monad over the browser state: document, title,
    location, history, scroll position, and a trace of the calls that leave
    no other mark (console, fetch, preventDefault, listeners, timers).

    The browser is the environment: the URL parser and the network are
    parameters ([resolve], [net]), and markup is kept parsed.  An event
    listener is run to completion before the next event: [handlePageLoad]
    is an [async] method whose promise nobody awaits, and the embedding
    runs it through its [await]s in one go, so overlapping navigations are
    outside the model. *)

From Stdlib Require Import String Ascii List ZArith Lia Bool Arith.
Import ListNotations.
Open Scope string_scope.
Open Scope list_scope.

Set Warnings "-register-all".

(** ** The document *)

(** A parsed URL, with the component names of [URL], [Location] and
    [HTMLAnchorElement]. *)
Record url := {
  protocol : string;
  host : string;
  pathname : string;
  search : string;
  hash : string
}.

(** An element: tag name (lower case), [id] attribute (empty when absent),
    class list, and the remaining attributes by name ([href], [target],
    [src], [alt], ...). *)
Record element := {
  tagName : string;
  id : string;
  classList : list string;
  attributes : list (string * string)
}.

Inductive node :=
| Text (s : string)
| Elem (e : element) (childNodes : list node).

(** A reference to a node of the document: the child indices from the root. *)
Definition node_path := list nat.

Fixpoint getAttribute (name : string) (l : list (string * string)) : option string :=
  match l with
  | [] => None
  | (k, v) :: l' => if String.eqb k name then Some v else getAttribute name l'
  end.

(** [classList.contains], [classList.add], [classList.remove], [classList.toggle(c, force)]. *)
Definition contains (c : string) (l : list string) : bool :=
  existsb (String.eqb c) l.

Definition class_add (c : string) (l : list string) : list string :=
  if contains c l then l else l ++ [c].

Definition class_remove (c : string) (l : list string) : list string :=
  filter (fun x => negb (String.eqb c x)) l.

Definition class_toggle (c : string) (force : bool) (l : list string) : list string :=
  if force then class_add c l else class_remove c l.

Definition with_classes (f : list string -> list string) (n : node) : node :=
  match n with
  | Text s => Text s
  | Elem e ks =>
      Elem {| tagName := tagName e; id := id e; classList := f (classList e);
              attributes := attributes e |} ks
  end.

(** The [innerHTML] setter, on parsed markup. *)
Definition with_children (ks : list node) (n : node) : node :=
  match n with
  | Text s => Text s
  | Elem e _ => Elem e ks
  end.

Definition append_child (k : node) (n : node) : node :=
  match n with
  | Text s => Text s
  | Elem e ks => Elem e (ks ++ [k])
  end.

Definition children (n : node) : list node :=
  match n with
  | Text _ => []
  | Elem _ ks => ks
  end.

Fixpoint node_at (ns : list node) (p : node_path) : option node :=
  match p with
  | [] => None
  | i :: p' =>
      match nth_error ns i with
      | None => None
      | Some n =>
          match p' with
          | [] => Some n
          | _ :: _ => node_at (children n) p'
          end
      end
  end.

Fixpoint alter_nth {A} (f : A -> A) (i : nat) (l : list A) : list A :=
  match l, i with
  | [], _ => []
  | x :: l', O => f x :: l'
  | x :: l', S i' => x :: alter_nth f i' l'
  end.

(** Apply [f] to the node at [p]; a path that leads nowhere changes nothing. *)
Fixpoint update_at (f : node -> node) (p : node_path) (ns : list node) : list node :=
  match p with
  | [] => ns
  | i :: p' =>
      match p' with
      | [] => alter_nth f i ns
      | _ :: _ =>
          alter_nth (fun n => match n with
                              | Text s => Text s
                              | Elem e ks => Elem e (update_at f p' ks)
                              end) i ns
      end
  end.

Definition element_at (ns : list node) (p : node_path) : option element :=
  match node_at ns p with
  | Some (Elem e _) => Some e
  | _ => None
  end.

(** ** Queries in document order *)

Definition shift (p : node_path) : node_path :=
  match p with
  | [] => []
  | i :: p' => S i :: p'
  end.

(** First hit of [f] among the trees of a forest, as a path into the forest. *)
Definition first_in {A} (f : A -> option node_path) : list A -> option node_path :=
  fix go (l : list A) : option node_path :=
    match l with
    | [] => None
    | x :: l' =>
        match f x with
        | Some p => Some (0%nat :: p)
        | None => option_map shift (go l')
        end
    end.

(** First element of the subtree of [n], in preorder, that satisfies [P];
    the empty path stands for [n] itself. *)
Fixpoint first_node (P : element -> bool) (n : node) : option node_path :=
  match n with
  | Text _ => None
  | Elem e ks => if P e then Some [] else first_in (first_node P) ks
  end.

Definition querySelector (P : element -> bool) (ns : list node) : option node_path :=
  first_in (first_node P) ns.

Definition has_id (i : string) (e : element) : bool := String.eqb (id e) i.
Definition has_class (c : string) (e : element) : bool := contains c (classList e).
Definition has_tag (t : string) (e : element) : bool := String.eqb (tagName e) t.

(** [document.getElementById(i)]. *)
Definition getElementById (i : string) (ns : list node) : option node_path :=
  querySelector (has_id i) ns.

(** All hits of [f] in a forest, in order, as paths into the forest. *)
Definition all_in {A} (f : A -> list node_path) : list A -> list node_path :=
  fix go (l : list A) : list node_path :=
    match l with
    | [] => []
    | x :: l' => map (cons 0%nat) (f x) ++ map shift (go l')
    end.

Fixpoint all_nodes (P : element -> bool) (n : node) : list node_path :=
  match n with
  | Text _ => []
  | Elem e ks => (if P e then [[]] else []) ++ all_in (all_nodes P) ks
  end.

(** [querySelectorAll] for a simple selector (one class, one tag). *)
Definition querySelectorAll (P : element -> bool) (ns : list node) : list node_path :=
  all_in (all_nodes P) ns.

(** The selector list ['header nav a, footer a']: an [a] below a [nav] that
    is itself below a [header], or an [a] below a [footer].  The three flags
    say what the ancestors of [n] provide. *)
Fixpoint nav_links_node (inHeader inHeaderNav inFooter : bool) (n : node) : list node_path :=
  match n with
  | Text _ => []
  | Elem e ks =>
      (if has_tag "a" e && (inHeaderNav || inFooter) then [[]] else [])
      ++ all_in (nav_links_node (inHeader || has_tag "header" e)
                                (inHeaderNav || (inHeader && has_tag "nav" e))
                                (inFooter || has_tag "footer" e)) ks
  end.

Definition nav_links (ns : list node) : list node_path :=
  all_in (nav_links_node false false false) ns.

(** ** The testimonial carousel ([initTestimonialCarousel]) *)

Module Carousel.

Local Open Scope Z_scope.

Record testimonial := {
  quote : string;
  name : string;
  title : string;
  avatar : string
}.

(** The literal [testimonials] array. *)
Definition testimonials : list testimonial :=
  [ {| quote := "L'accompagnement d'Impact'Oral a été un tournant. J'étais paralysé par le stress, mais j'ai appris à canaliser cette énergie pour livrer une présentation puissante. Mon jury a été bluffé. J'ai eu 18/20 !";
       name := "Ama";
       title := "Étudiante en Master Marketing";
       avatar := "https://placehold.co/100x100/e2e8f0/334155?text=A" |};
    {| quote := "Au-delà de la soutenance, ce coaching m'a servi pour mes entretiens d'embauche. J'ai gagné une confiance en moi incroyable. C'est un investissement pour la vie.";
       name := "Koffi";
       title := "Ingénieur Informatique Diplômé";
       avatar := "https://placehold.co/100x100/e2e8f0/334155?text=K" |};
    {| quote := "Le coaching m'a aidée à structurer ma pensée et à présenter mes recherches complexes de manière claire et accessible. Une compétence essentielle pour ma carrière de chercheuse.";
       name := "Sarah";
       title := "Doctorante en Biologie";
       avatar := "https://placehold.co/100x100/e2e8f0/334155?text=S" |};
    {| quote := "J'ai vaincu ma peur de parler en public. Les simulations m'ont donné la confiance nécessaire pour être à l'aise et même prendre du plaisir pendant ma soutenance.";
       name := "David";
       title := "Licence en Économie";
       avatar := "https://placehold.co/100x100/e2e8f0/334155?text=D" |} ].

(** The state the closures [showTestimonial], [next], [prev] and the dot
    handlers share: the class lists of the captured [cards] and [dots]
    (both static node lists) and [currentIndex].  Indices are JS numbers
    holding small integers; [%] is the truncating remainder [Z.rem]. *)
Record state := {
  cards : list (list string);
  dots : list (list string);
  currentIndex : Z
}.

Definition position_classes : list string :=
  ["active"; "prev"; "next"; "hidden-prev"; "hidden-next"].

Definition clear_position (l : list string) : list string :=
  fold_left (fun acc c => class_remove c acc) position_classes l.

(** The class [showTestimonial(index)] gives to card [i] of [n] cards;
    [Math.abs(diff) > n / 2] is compared as [2 * |diff| > n]. *)
Definition position (index n i : Z) : string :=
  let diff := index - i in
  if i =? index then "active"
  else if i =? Z.rem (index - 1 + n) n then "prev"
  else if i =? Z.rem (index + 1) n then "next"
  else
    let diff := if 2 * Z.abs diff >? n
                then (if diff >? 0 then diff - n else diff + n)
                else diff in
    if diff >? 0 then "hidden-prev" else "hidden-next".

Fixpoint mapi {A B} (f : Z -> A -> B) (i : Z) (l : list A) : list B :=
  match l with
  | [] => []
  | x :: l' => f i x :: mapi f (i + 1) l'
  end.

Definition len {A} (l : list A) : Z := Z.of_nat (length l).

Definition showTestimonial (index : Z) (s : state) : state :=
  {| cards := mapi (fun i c => class_add (position index (len (cards s)) i)
                                         (clear_position c)) 0 (cards s);
     dots := mapi (fun i d => class_toggle "active" (i =? index) d) 0 (dots s);
     currentIndex := currentIndex s |}.

Definition set_index (i : Z) (s : state) : state :=
  {| cards := cards s; dots := dots s; currentIndex := i |}.

Definition next (s : state) : state :=
  let i := Z.rem (currentIndex s + 1) (len (cards s)) in
  showTestimonial i (set_index i s).

Definition prev (s : state) : state :=
  let i := Z.rem (currentIndex s - 1 + len (cards s)) (len (cards s)) in
  showTestimonial i (set_index i s).

(** The click handler of dot [i]. *)
Definition dot_click (i : Z) (s : state) : state :=
  showTestimonial i (set_index i s).

(** The closure state at the end of [initTestimonialCarousel]: one card per
    testimonial with class [testimonial-card], one dot per testimonial when
    the dots container exists, [currentIndex = 0], then [showTestimonial(0)]. *)
Definition init (withDots : bool) : state :=
  showTestimonial 0
    {| cards := map (fun _ => ["testimonial-card"]) testimonials;
       dots := if withDots then map (fun _ => ["dot"]) testimonials else [];
       currentIndex := 0 |}.

(** What can happen to a carousel once it is set up: the auto-scroll timer
    and the next button call [next], the previous button calls [prev], and
    dot [i] (one of the rendered dots) sets the index to [i]. *)
Inductive action := Next | Prev | Dot (i : nat).

Definition step (a : action) (s : state) : state :=
  match a with
  | Next => next s
  | Prev => prev s
  | Dot i => if (i <? length (dots s))%nat then dot_click (Z.of_nat i) s else s
  end.

Definition run (l : list action) (s : state) : state :=
  fold_left (fun s a => step a s) l s.

(** What every closure state reachable from [init] satisfies. *)
Definition well_formed (s : state) : Prop :=
  len (cards s) = 4
  /\ (length (dots s) <= 4)%nat
  /\ 0 <= currentIndex s < 4.

End Carousel.

(** ** The browser state *)

(** [history.state] of an entry, as this program produces and reads it:
    [null], or an object whose [path] field is a string or is absent. *)
Inductive history_state :=
| StateNull
| StateObj (path_field : option string).

Inductive exn :=
| NetworkFailure                 (* a rejected [fetch] or [response.text()] *)
| Error (message : string)       (* [new Error(message)] *)
| TypeError (what : string)      (* raised by the engine *)
| DOMException (name : string).  (* raised by a method of the DOM *)

(** Calls that leave no mark in the rest of the state, in program order. *)
Inductive effect :=
| Call (method argument : string)              (* entry into a method of [App] *)
| ConsoleError (message : string) (error : option exn)
| PreventDefault
| Fetch (request : string)
| ScrollTo (x y : Z)
| AddEventListener (target : node_path) (type : string)
| Observe (threshold_tenths : Z) (target : node_path)
| SetInterval (delay : Z).

Record world := {
  document : list node;                        (* the children of the document *)
  title : string;                              (* [document.title] *)
  location : url;                              (* [window.location] *)
  history : list (history_state * string);     (* entries up to the current one, newest first *)
  scrollX : Z;
  scrollY : Z;
  trace : list effect
}.

Definition set_document (d : list node) (w : world) : world :=
  {| document := d; title := title w; location := location w; history := history w;
     scrollX := scrollX w; scrollY := scrollY w; trace := trace w |}.

Definition set_title (t : string) (w : world) : world :=
  {| document := document w; title := t; location := location w; history := history w;
     scrollX := scrollX w; scrollY := scrollY w; trace := trace w |}.

Definition emit (e : effect) (w : world) : world :=
  {| document := document w; title := title w; location := location w; history := history w;
     scrollX := scrollX w; scrollY := scrollY w; trace := trace w ++ [e] |}.

(** [window.scrollTo(x, y)]. *)
Definition scroll_to (x y : Z) (w : world) : world :=
  emit (ScrollTo x y)
    {| document := document w; title := title w; location := location w; history := history w;
       scrollX := x; scrollY := y; trace := trace w |}.

(** Whether the browser lets the document at [here] take the URL [there]
    without navigating, as [history.pushState] requires: same scheme and
    same host (the [host] of a [url] carries the port; no URL of this
    program has credentials); then any path and query for [http:] and
    [https:], any query on the same path for [file:], and nothing but
    another fragment for the other schemes. *)
Definition can_rewrite (here there : url) : bool :=
  String.eqb (protocol there) (protocol here)
  && String.eqb (host there) (host here)
  && (if String.eqb (protocol there) "http:" || String.eqb (protocol there) "https:"
      then true
      else if String.eqb (protocol there) "file:"
      then String.eqb (pathname there) (pathname here)
      else String.eqb (pathname there) (pathname here)
           && String.eqb (search there) (search here)).

(** The state once [history.pushState(st, '', address)] is accepted, where
    [there] is the URL [address] parses to: the entry is added and the
    location becomes [there]. *)
Definition push_state (st : history_state) (address : string) (there : url)
    (w : world) : world :=
  {| document := document w; title := title w;
     location := there;
     history := (st, address) :: history w;
     scrollX := scrollX w; scrollY := scrollY w; trace := trace w |}.

(** ** Computations: state and exceptions *)

Inductive outcome (A : Type) :=
| Returned (a : A)
| Thrown (e : exn).
Arguments Returned {A} a.
Arguments Thrown {A} e.

Definition M (A : Type) : Type := world -> outcome A * world.

Definition ret {A} (a : A) : M A := fun w => (Returned a, w).

Definition bind {A B} (m : M A) (k : A -> M B) : M B :=
  fun w => match m w with
           | (Returned a, w') => k a w'
           | (Thrown e, w') => (Thrown e, w')
           end.

Definition throw {A} (e : exn) : M A := fun w => (Thrown e, w).

(** [try { body } catch (error) { handler }]: what [body] did before it
    threw stays done. *)
Definition try_catch {A} (body : M A) (handler : exn -> M A) : M A :=
  fun w => match body w with
           | (Returned a, w') => (Returned a, w')
           | (Thrown e, w') => handler e w'
           end.

Definition gets {A} (f : world -> A) : M A := fun w => (Returned (f w), w).
Definition modify (f : world -> world) : M unit := fun w => (Returned tt, f w).

Declare Scope app_scope.
Delimit Scope app_scope with app.
Notation "x <- m ;; k" := (bind m (fun x => k))
  (at level 61, m at next level, right associativity) : app_scope.
Notation "m ;; k" := (bind m (fun _ => k))
  (at level 61, right associativity) : app_scope.
Open Scope app_scope.

(** [forEach]: the callback runs on each item in turn; a throw ends the loop. *)
Fixpoint for_each {A} (f : A -> M unit) (l : list A) : M unit :=
  match l with
  | [] => ret tt
  | x :: l' => f x ;; for_each f l'
  end.

(** ** Element references

    A JS variable holding an element found by [getElementById]: the path at
    which it was found and the id it was found by.  Assigning [innerHTML] of
    an enclosing element removes the element from the document while the
    variable keeps it; what this program puts in its place (testimonial
    cards and dots) carries no id.  So the variable's element is in the
    document exactly when the node at the path has that id, and a write
    through a variable whose element has left the document does not show. *)
Record ref := {
  at_path : node_path;
  by_id : string
}.

Definition in_document (r : ref) (ns : list node) : bool :=
  match element_at ns (at_path r) with
  | Some e => String.eqb (id e) (by_id r)
  | None => false
  end.

Definition get_by_id (i : string) : M (option ref) :=
  gets (fun w => option_map (fun p => {| at_path := p; by_id := i |})
                            (getElementById i (document w))).

Definition write (r : ref) (f : node -> node) : M unit :=
  modify (fun w => if in_document r (document w)
                   then set_document (update_at f (at_path r) (document w)) w
                   else w).

Definition console_error (message : string) (error : option exn) : M unit :=
  modify (emit (ConsoleError message error)).

(** [r.addEventListener(type, ...)].  The trace records the listeners put
    on elements of the document; one put on an element that has left the
    document cannot fire and is not recorded. *)
Definition addEventListener (r : ref) (type : string) : M unit :=
  modify (fun w => if in_document r (document w)
                   then emit (AddEventListener (at_path r) type) w
                   else w).

(** ** Markup the program writes

    Markup is kept parsed; the white-space-only text nodes between the tags
    of a template literal are left out. *)

Definition el (t : string) (cl : list string) (attrs : list (string * string)) : element :=
  {| tagName := t; id := ""; classList := cl; attributes := attrs |}.

(** The literal not-found view of [handlePageLoad]'s [catch] block. *)
Definition fallback_markup : list node :=
  [ Elem (el "div" ["text-center"; "py-20"] [])
      [ Elem (el "h1" ["text-4xl"; "font-bold"] []) [Text "Erreur 404"];
        Elem (el "p" ["mt-4"] []) [Text "La page que vous cherchez n'a pas pu être trouvée."];
        Elem (el "a" ["mt-6"; "inline-block"; "text-emerald-500"; "hover:underline"]
                 [("href", "/")])
             [Text "Retour à l'accueil"] ] ].

Definition double_quote : string := String (Ascii.ascii_of_nat 34) EmptyString.

(** The card built for one testimonial, before [showTestimonial] runs. *)
Definition card_node (t : Carousel.testimonial) : node :=
  Elem (el "div" ["testimonial-card"] [])
    [ Elem (el "p" ["text-gray-600"; "italic"; "mb-4"] [])
        [Text (double_quote ++ Carousel.quote t ++ double_quote)%string];
      Elem (el "div" ["flex"; "items-center"; "justify-center"] [])
        [ Elem (el "img" ["w-12"; "h-12"; "rounded-full"; "mr-4"]
                   [("src", Carousel.avatar t);
                    ("alt", ("Avatar de " ++ Carousel.name t)%string)]) [];
          Elem (el "div" [] [])
            [ Elem (el "p" ["font-bold"; "text-gray-800"] []) [Text (Carousel.name t)];
              Elem (el "p" ["text-sm"; "text-gray-500"] []) [Text (Carousel.title t)] ] ] ].

Definition dot_node : node := Elem (el "button" ["dot"] []) [].

(** Give the children of a container the class lists [cl], child by child. *)
Fixpoint zip_classes (cl : list (list string)) (ks : list node) : list node :=
  match cl, ks with
  | c :: cl', k :: ks' => with_classes (fun _ => c) k :: zip_classes cl' ks'
  | _, _ => ks
  end.

Definition with_child_classes (cl : list (list string)) (n : node) : node :=
  match n with
  | Text s => Text s
  | Elem e ks => Elem e (zip_classes cl ks)
  end.

(** ** Page-specific scripts *)

Definition observe (threshold_tenths : Z) (target : node_path) : M unit :=
  modify (emit (Observe threshold_tenths target)).

(** [initFadeInObserver]: one observer (threshold 0.1) on every
    [.fade-in-section]; nothing when there is none. *)
Definition initFadeInObserver : M unit :=
  sections <- gets (fun w => querySelectorAll (has_class "fade-in-section") (document w)) ;;
  match sections with
  | [] => ret tt
  | _ :: _ => for_each (observe 1) sections
  end.

(** [initStatsCounter]: an observer (threshold 0.5) on [#stats-section]. *)
Definition initStatsCounter : M unit :=
  statsSection <- get_by_id "stats-section" ;;
  match statsSection with
  | None => ret tt
  | Some statsSection => observe 5 (at_path statsSection)
  end.

Definition when_some {A} (o : option A) (f : A -> M unit) : M unit :=
  match o with
  | Some a => f a
  | None => ret tt
  end.

(** The listener put on child [i] of the container [r]. *)
Definition addEventListener_child (r : ref) (type : string) (i : nat) : M unit :=
  modify (fun w => if in_document r (document w)
                   then emit (AddEventListener (at_path r ++ [i]) type) w
                   else w).

(** [initTestimonialCarousel] once the two containers are looked up, up to
    the closures it leaves behind, whose state starts as [Carousel.init]. *)
Definition render_carousel (carouselContainer : ref) (dotsContainer : option ref) : M unit :=
  write carouselContainer (with_children []) ;;
  when_some dotsContainer (fun d => write d (with_children [])) ;;
  for_each (fun testimonial =>
              write carouselContainer (append_child (card_node testimonial)) ;;
              when_some dotsContainer (fun d => write d (append_child dot_node)))
           Carousel.testimonials ;;
  let withDots := match dotsContainer with Some _ => true | None => false end in
  let closure := Carousel.init withDots in
  when_some dotsContainer (fun d =>
    for_each (addEventListener_child d "click")
             (seq 0 (length (Carousel.dots closure)))) ;;
  nextButton <- get_by_id "next-testimonial" ;;
  when_some nextButton (fun b => addEventListener b "click") ;;
  prevButton <- get_by_id "prev-testimonial" ;;
  when_some prevButton (fun b => addEventListener b "click") ;;
  addEventListener carouselContainer "mouseenter" ;;
  addEventListener carouselContainer "mouseleave" ;;
  (* showTestimonial(0) *)
  write carouselContainer (with_child_classes (Carousel.cards closure)) ;;
  when_some dotsContainer (fun d => write d (with_child_classes (Carousel.dots closure))) ;;
  (* startInterval() *)
  modify (emit (SetInterval 5000)).

(** [initTestimonialCarousel]. *)
Definition initTestimonialCarousel : M unit :=
  carouselContainer <- get_by_id "testimonial-carousel" ;;
  match carouselContainer with
  | None => ret tt
  | Some carouselContainer =>
      dotsContainer <- get_by_id "testimonial-dots" ;;
      render_carousel carouselContainer dotsContainer
  end.

(** [initFormHandlers].  [closeBtn.addEventListener] has no null check. *)
Definition initFormHandlers : M unit :=
  reservationForm <- get_by_id "reservation-form" ;;
  when_some reservationForm (fun f => addEventListener f "submit") ;;
  contactForm <- get_by_id "contact-form" ;;
  when_some contactForm (fun f => addEventListener f "submit") ;;
  modal <- get_by_id "inscription-modal" ;;
  openBtn <- get_by_id "open-modal-btn" ;;
  match modal, openBtn with
  | Some modal, Some openBtn =>
      closeBtn <- get_by_id "close-modal-btn" ;;
      addEventListener openBtn "click" ;;
      match closeBtn with
      | None => throw (TypeError "closeBtn is null")
      | Some closeBtn =>
          addEventListener closeBtn "click" ;;
          addEventListener modal "click" ;;
          inscriptionForm <- get_by_id "inscription-form" ;;
          when_some inscriptionForm (fun f => addEventListener f "submit")
      end
  | _, _ => ret tt
  end.

(** [initFaqAccordion]. *)
Definition initFaqAccordion : M unit :=
  faqAccordion <- get_by_id "faq-accordion" ;;
  when_some faqAccordion (fun a => addEventListener a "click").

Definition call (method argument : string) : M unit :=
  modify (emit (Call method argument)).

Definition runPageSpecificScripts : M unit :=
  call "runPageSpecificScripts" "" ;;
  initFadeInObserver ;;
  initTestimonialCarousel ;;
  initFormHandlers ;;
  initFaqAccordion ;;
  initStatsCounter.

(** ** The network and the URL parser of the browser *)

(** A fetched page, parsed by [DOMParser]: its title and its nodes. *)
Record html_document := {
  doc_title : string;
  doc_nodes : list node
}.

(** What [fetch(request)] followed by [response.text()] gives: the request
    is rejected, or a response arrives with its [ok] flag and a body that
    can be read ([Some]) or not. *)
Inductive fetch_result :=
| Rejected
| Response (ok : bool) (body : option html_document).

Section App.

(** The browser resolves an [href] attribute against the current location;
    [None] when it cannot be parsed. *)
Variable resolve : url -> string -> option url.

(** The network, as seen from the current location. *)
Variable net : url -> string -> fetch_result.

(** The URL of an [a] element; without [href], or with one that does not
    parse, the element has no URL: [protocol] reads [":"], the other
    components and [href] read as empty strings. *)
Definition link_url (base : url) (link : element) : option url :=
  match getAttribute "href" (attributes link) with
  | Some h => resolve base h
  | None => None
  end.

Definition link_protocol (base : url) (link : element) : string :=
  match link_url base link with Some u => protocol u | None => ":" end.
Definition link_host (base : url) (link : element) : string :=
  match link_url base link with Some u => host u | None => "" end.
Definition link_pathname (base : url) (link : element) : string :=
  match link_url base link with Some u => pathname u | None => "" end.
Definition link_search (base : url) (link : element) : string :=
  match link_url base link with Some u => search u | None => "" end.
Definition link_hash (base : url) (link : element) : string :=
  match link_url base link with Some u => hash u | None => "" end.
Definition link_target (link : element) : string :=
  match getAttribute "target" (attributes link) with Some t => t | None => "" end.

(** [updateActiveLink]: [new URL(link.href)] throws on a link without URL. *)
Definition updateActiveLink : M unit :=
  call "updateActiveLink" "" ;;
  currentPath <- gets (fun w => pathname (location w)) ;;
  links <- gets (fun w => nav_links (document w)) ;;
  for_each (fun link =>
              e <- gets (fun w => element_at (document w) link) ;;
              base <- gets location ;;
              match e with
              | None => ret tt
              | Some e =>
                  match link_url base e with
                  | None => throw (TypeError "Invalid URL")
                  | Some u =>
                      let linkPath := pathname u in
                      if String.eqb linkPath currentPath
                      then modify (fun w => set_document
                             (update_at (with_classes (class_add "nav-link-active")) link (document w)) w)
                      else modify (fun w => set_document
                             (update_at (with_classes (class_remove "nav-link-active")) link (document w)) w)
                  end
              end) links.

Definition fetch (request : string) : M (bool * option html_document) :=
  fun w => match net (location w) request with
           | Rejected => (Thrown NetworkFailure, emit (Fetch request) w)
           | Response ok body => (Returned (ok, body), emit (Fetch request) w)
           end.

(** The [try] block of [handlePageLoad]. *)
Definition load_page (mainContent : ref) (path : string) : M unit :=
  response <- fetch path ;;
  (if negb (fst response)
   then throw (Error ("Page not found: " ++ path)%string)
   else ret tt) ;;
  doc <- match snd response with
         | None => throw NetworkFailure
         | Some doc => ret doc
         end ;;
  modify (set_title (doc_title doc)) ;;
  content <- match getElementById "main-content" (doc_nodes doc) with
             | None => throw (TypeError "doc.querySelector(...) is null")
             | Some q => ret (match node_at (doc_nodes doc) q with
                              | Some n => children n
                              | None => []
                              end)
             end ;;
  write mainContent (with_children content) ;;
  runPageSpecificScripts ;;
  updateActiveLink ;;
  modify (scroll_to 0 0) ;;
  write mainContent (with_classes (class_remove "page-fade-out")).

(** The [catch] block of [handlePageLoad]. *)
Definition show_not_found (mainContent : ref) (error : exn) : M unit :=
  console_error "Failed to load page:" (Some error) ;;
  write mainContent (with_children fallback_markup) ;;
  write mainContent (with_classes (class_remove "page-fade-out")).

(** [handlePageLoad(path)], run to completion. *)
Definition handlePageLoad (path : string) : M unit :=
  call "handlePageLoad" path ;;
  mainContent <- get_by_id "main-content" ;;
  match mainContent with
  | None => console_error "Main content container #main-content not found!" None
  | Some mainContent =>
      write mainContent (with_classes (class_add "page-fade-out")) ;;
      try_catch (load_page mainContent path) (show_not_found mainContent)
  end.

(** ** The router ([setupRouter]) *)

(** [history.pushState(st, '', address)]: [address] is parsed against the
    location; when it does not parse, or the document cannot take the URL
    it parses to, the call throws a [SecurityError] and changes nothing. *)
Definition pushState (st : history_state) (address : string) : M unit :=
  fun w => match resolve (location w) address with
           | Some there =>
               if can_rewrite (location w) there
               then (Returned tt, push_state st address there w)
               else (Thrown (DOMException "SecurityError"), w)
           | None => (Thrown (DOMException "SecurityError"), w)
           end.

Record click_event := {
  target : node_path;          (* [e.target], an element of the document *)
  ctrlKey : bool;
  metaKey : bool;
  shiftKey : bool;
  altKey : bool
}.

(** The element itself and its ancestors, nearest first. *)
Fixpoint ancestors_or_self (p : node_path) : list node_path :=
  match p with
  | [] => []
  | i :: p' => map (cons i) (ancestors_or_self p') ++ [[i]]
  end.

(** [element.closest(selector)] for a simple selector. *)
Definition closest (P : element -> bool) (ns : list node) (p : node_path) : option node_path :=
  find (fun q => match element_at ns q with Some e => P e | None => false end)
       (ancestors_or_self p).

(** [e.target.closest('a')], as the element found. *)
Definition clicked_link (e : click_event) (w : world) : option element :=
  match closest (has_tag "a") (document w) (target e) with
  | Some q => element_at (document w) q
  | None => None
  end.

(** The [click] listener on [document.body], with the load it starts run
    to completion. *)
Definition on_click (e : click_event) : M unit :=
  link <- gets (clicked_link e) ;;
  match link with
  | None => ret tt
  | Some link =>
      here <- gets location ;;
      let protocol' := link_protocol here link in
      let host' := link_host here link in
      let pathname' := link_pathname here link in
      let hash' := link_hash here link in
      let isExternal := String.eqb (link_target link) "_blank"
                        || negb (String.eqb protocol' (protocol here))
                        || negb (String.eqb host' (host here)) in
      let isAnchor := negb (String.eqb hash' "") && String.eqb pathname' (pathname here) in
      if isExternal || isAnchor then ret tt
      else
        modify (emit PreventDefault) ;;
        let newPath := (pathname' ++ link_search here link)%string in
        if negb (String.eqb newPath (pathname here ++ search here)%string)
        then
          pushState (StateObj (Some newPath)) newPath ;;
          handlePageLoad newPath
        else ret tt
  end.

(** The [popstate] listener on [window], given [e.state]. *)
Definition on_popstate (state : history_state) : M unit :=
  match state with
  | StateObj (Some p) => if negb (String.eqb p "") then handlePageLoad p else ret tt
  | _ => ret tt
  end.

End App.

(** ** Reading markup *)

(** The text nodes of a forest, in document order. *)
Fixpoint text_nodes (n : node) : list string :=
  match n with
  | Text s => [s]
  | Elem _ ks => flat_map text_nodes ks
  end.

(** The [href] attributes of the [a] elements of a forest. *)
Fixpoint link_hrefs (n : node) : list string :=
  match n with
  | Text _ => []
  | Elem e ks =>
      (if has_tag "a" e
       then match getAttribute "href" (attributes e) with Some h => [h] | None => [] end
       else [])
      ++ flat_map link_hrefs ks
  end.

(** [element.innerHTML] of the element at [p], parsed. *)
Definition innerHTML (ns : list node) (p : node_path) : option (list node) :=
  option_map children (node_at ns p).

(** ** Vocabulary of the properties *)

(** Below an element, [update_at] continues in its children. *)
Definition below (g : list node -> list node) (n : node) : node :=
  match n with
  | Text s => Text s
  | Elem e ks => Elem e (g ks)
  end.

(** [f] maps elements that satisfy [P] to elements that satisfy [P]. *)
Definition keeps (P : element -> bool) (f : node -> node) : Prop :=
  forall e ks, P e = true -> exists e' ks', f (Elem e ks) = Elem e' ks' /\ P e' = true.

(** The container as the [catch] block leaves it. *)
Definition not_found_view (n : node) : node :=
  with_classes (class_remove "page-fade-out") (with_children fallback_markup n).

(** The container as a load leaves it when the fetch fails: the class
    [page-fade-out] is added, then the [catch] block runs. *)
Definition failed_load_view (n : node) : node :=
  not_found_view (with_classes (class_add "page-fade-out") n).

(** [p] designates [q] or an ancestor of [q]. *)
Fixpoint is_prefix (p q : node_path) : bool :=
  match p, q with
  | [], _ => true
  | _ :: _, [] => false
  | i :: p', j :: q' => Nat.eqb i j && is_prefix p' q'
  end.

(** The node at [q] without its children: a text, or an element with its
    tag, id, classes and attributes. *)
Definition label (n : node) : string + element :=
  match n with
  | Text s => inl s
  | Elem e _ => inr e
  end.

Definition label_at (ns : list node) (q : node_path) : option (string + element) :=
  option_map label (node_at ns q).

(** A label without the class [nav-link-active]. *)
Definition without_active (l : string + element) : string + element :=
  match l with
  | inl s => inl s
  | inr e => inr {| tagName := tagName e; id := id e;
                    classList := class_remove "nav-link-active" (classList e);
                    attributes := attributes e |}
  end.

(** Outside the subtree at [p], the document of [w'] has the nodes of the
    document of [w], with the same labels. *)
Definition framed (p : node_path) (w w' : world) : Prop :=
  forall q, is_prefix p q = false ->
            label_at (document w') q = label_at (document w) q.

(** The documents of [w] and [w'] have the same nodes, with the same
    labels up to the class [nav-link-active]. *)
Definition but_active (w w' : world) : Prop :=
  forall q, option_map without_active (label_at (document w') q)
            = option_map without_active (label_at (document w) q).

(** The documents of [w] and [w'] have the same nodes with the same labels,
    except perhaps at the paths of [l]. *)
Definition only_at (l : list node_path) (w w' : world) : Prop :=
  forall q, ~ In q l -> label_at (document w') q = label_at (document w) q.

(** The document stays as it is. *)
Definition same_document (w w' : world) : Prop := document w' = document w.

(** No element outside the subtree at [p] is a carousel or dots container. *)
Definition carousel_inside (p : node_path) (ns : list node) : Prop :=
  forall q e, is_prefix p q = false -> label_at ns q = Some (inr e) ->
              id e <> "testimonial-carousel" /\ id e <> "testimonial-dots".

(** The inner markup of the [#main-content] element of a fetched document. *)
Definition container_markup (doc : html_document) : option (list node) :=
  match getElementById "main-content" (doc_nodes doc) with
  | Some q => innerHTML (doc_nodes doc) q
  | None => None
  end.

(** The browser state of a load at the moment the fetched markup has been
    put in the container [p]: the call and the fetch are in the trace, the
    title is the fetched title, and the container, still with the class
    [page-fade-out], holds [content]. *)
Definition swapped_in (path : string) (p : node_path) (doc : html_document)
    (content : list node) (w : world) : world :=
  set_document
    (update_at (fun n => with_children content
                           (with_classes (class_add "page-fade-out") n))
               p (document w))
    (set_title (doc_title doc)
       (emit (Fetch path) (emit (Call "handlePageLoad" path) w))).

(** The end of a load that succeeds, from the state [w] the active-link
    update leaves: scroll to the top, then take [page-fade-out] off the
    container. *)
Definition settled (p : node_path) (w : world) : world :=
  snd (write {| at_path := p; by_id := "main-content" |}
             (with_classes (class_remove "page-fade-out"))
             (scroll_to 0 0 w)).

(** The fetch is rejected (network error) or answers with a non-ok status. *)
Definition fetch_failed (r : fetch_result) : bool :=
  match r with
  | Rejected => true
  | Response ok _ => negb ok
  end.

(** The paths [handlePageLoad] was called with, and the number of calls
    to [preventDefault], in a stretch of the trace. *)
Fixpoint loads (t : list effect) : list string :=
  match t with
  | [] => []
  | Call method argument :: t' =>
      if String.eqb method "handlePageLoad" then argument :: loads t' else loads t'
  | _ :: t' => loads t'
  end.

Fixpoint prevented (t : list effect) : nat :=
  match t with
  | [] => 0
  | PreventDefault :: t' => S (prevented t')
  | _ :: t' => prevented t'
  end.

(** An effect other than a call of [handlePageLoad] or [preventDefault]. *)
Definition minor (e : effect) : bool :=
  match e with
  | Call method _ => negb (String.eqb method "handlePageLoad")
  | PreventDefault => false
  | _ => true
  end.

(** A computation all of whose runs relate the state before to the state
    after by [R], whether it returns or throws. *)
Definition respects (R : world -> world -> Prop) {A} (m : M A) : Prop :=
  forall w, R w (snd (m w)).

(** Only minor effects are added to the trace, and the history and the
    location stay. *)
Definition quietly (w w' : world) : Prop :=
  (exists t, trace w' = trace w ++ t /\ forallb minor t = true)
  /\ history w' = history w
  /\ location w' = location w.

Definition quiet {A} (m : M A) : Prop := respects quietly m.

(** The title and the scroll position stay. *)
Definition in_place (w w' : world) : Prop :=
  title w' = title w /\ scrollX w' = scrollX w /\ scrollY w' = scrollY w.

(** ** A sample site *)

Module Samples.

Fixpoint split_at (c : Ascii.ascii) (s : string) : string * string :=
  match s with
  | EmptyString => (EmptyString, EmptyString)
  | String a s' =>
      if Ascii.eqb a c then (EmptyString, s)
      else let (before, rest) := split_at c s' in (String a before, rest)
  end.

(** The URL of scheme [proto] and host [hst] whose path, query and
    fragment are those of [s], a reference that starts at the root. *)
Definition from_root (proto hst s : string) : url :=
  let (rest, fragment) := split_at "#"%char s in
  let (pth, query) := split_at "?"%char rest in
  {| protocol := proto; host := hst; pathname := pth;
     search := if String.eqb query "?" then "" else query;
     hash := if String.eqb fragment "#" then "" else fragment |}.

(** What follows [//]: the host, up to the next [/], then the path. *)
Definition from_authority (proto s : string) : option url :=
  let (hst, rest) := split_at "/"%char s in
  if String.eqb hst "" then None
  else Some (from_root proto hst (if String.eqb rest "" then "/" else rest)).

Fixpoint strip (pre s : string) : option string :=
  match pre, s with
  | EmptyString, _ => Some s
  | String a pre', String b s' => if Ascii.eqb a b then strip pre' s' else None
  | String _ _, EmptyString => None
  end.

(** A resolver for the references the sample pages use: an absolute
    [http:] or [https:] URL, a reference that starts with [//] (the host
    comes next, as in every browser), and a path from the root of the
    site ([/path?query#fragment]), which stays on the current origin;
    anything else does not parse. *)
Definition resolve (base : url) (href : string) : option url :=
  match strip "https://" href, strip "http://" href with
  | Some s, _ => from_authority "https:" s
  | None, Some s => from_authority "http:" s
  | None, None =>
      match href with
      | String "/"%char (String "/"%char s) => from_authority (protocol base) s
      | String "/"%char _ => Some (from_root (protocol base) (host base) href)
      | _ => None
      end
  end.

Definition anchor (href : string) (cl : list string) (label : string) : node :=
  Elem (el "a" cl [("href", href)]) [Text label].

Definition with_id (i : string) (t : string) (cl : list string) : element :=
  {| tagName := t; id := i; classList := cl; attributes := [] |}.

Definition header : node :=
  Elem (with_id "header-placeholder" "div" [])
    [ Elem (el "header" [] [])
        [ Elem (el "nav" [] [])
            [ anchor "/index.html" ["nav-link-active"] "Accueil";
              anchor "/about.html" [] "À propos" ] ] ].

Definition footer : node :=
  Elem (with_id "footer-placeholder" "div" [])
    [ Elem (el "footer" [] []) [ anchor "/contact.html" [] "Contact" ] ].

Definition home_content : list node :=
  [ Elem (el "h1" [] []) [Text "Bienvenue"];
    anchor "/about.html" [] "En savoir plus";
    anchor "/index.html#top" [] "Haut de page";
    Elem (el "a" [] [("href", "/about.html"); ("target", "_blank")]) [Text "Nouvel onglet"] ].

Definition about_content : list node :=
  [ Elem (el "h1" [] []) [Text "À propos"];
    Elem (with_id "testimonial-carousel" "div" []) [];
    Elem (with_id "testimonial-dots" "div" []) [] ].

(** A page with the inscription modal and its opening button, but without
    the [#close-modal-btn] button. *)
Definition inscription_content : list node :=
  [ Elem (el "h1" [] []) [Text "Inscription"];
    Elem (with_id "open-modal-btn" "button" []) [Text "S'inscrire"];
    Elem (with_id "inscription-modal" "div" ["hidden"; "opacity-0"])
      [ Elem (el "div" ["modal-panel"; "scale-95"] [])
          [ Elem (with_id "inscription-form" "form" []) [] ] ] ].

Definition page (content : list node) : list node :=
  [ header; Elem (with_id "main-content" "main" []) content; footer ].

Definition home_url : url :=
  {| protocol := "https:"; host := "tchiavs.example"; pathname := "/index.html";
     search := ""; hash := "" |}.

Definition home : world :=
  {| document := page home_content;
     title := "Accueil";
     location := home_url;
     history := [(StateNull, "/index.html")];
     scrollX := 0; scrollY := 120;
     trace := [] |}.

(** The home page once the router has pushed [/about.html]. *)
Definition arriving : world :=
  push_state (StateObj (Some "/about.html")) "/about.html"
    {| protocol := "https:"; host := "tchiavs.example"; pathname := "/about.html";
       search := ""; hash := "" |} home.

(** A page whose link to [/about.html] has the slash doubled after the
    host: the link is on this site, and its [pathname] is [//about.html]. *)
Definition doubled_content : list node :=
  [ Elem (el "h1" [] []) [Text "Bienvenue"];
    anchor "https://tchiavs.example//about.html" [] "À propos" ].

Definition doubled : world :=
  set_document (page doubled_content) home.

(** The same page without its content container. *)
Definition bare : world :=
  {| document := [header; footer];
     title := "Accueil";
     location := home_url;
     history := [(StateNull, "/index.html")];
     scrollX := 0; scrollY := 120;
     trace := [] |}.

(** The site: [/about.html] exists; [/draft.html] is served without the
    content container; [/inscription.html] is the page above;
    [/offline.html] cannot be reached; any other path answers 404. *)
Definition net (base : url) (request : string) : fetch_result :=
  if String.eqb request "/about.html"
  then Response true (Some {| doc_title := "À propos"; doc_nodes := page about_content |})
  else if String.eqb request "/draft.html"
  then Response true (Some {| doc_title := "Brouillon";
                              doc_nodes := [header; Elem (el "main" [] []) []; footer] |})
  else if String.eqb request "/inscription.html"
  then Response true (Some {| doc_title := "Inscription";
                              doc_nodes := page inscription_content |})
  else if String.eqb request "/offline.html"
  then Rejected
  else Response false (Some {| doc_title := "404 Not Found"; doc_nodes := [] |}).

End Samples.

(** ** The rest of [App]

    The closures, listeners and loaders of [src/js/main.js] that the
    router does not go through. *)

(** The closure state of the carousel when [showTestimonial(i)] has just
    run with [currentIndex = i]. *)
Definition carousel_at (withDots : bool) (i : Z) : Carousel.state :=
  Carousel.showTestimonial i (Carousel.set_index i (Carousel.init withDots)).

(** The number of position classes in a class list. *)
Definition position_count (l : list string) : nat :=
  length (filter (fun c => contains c Carousel.position_classes) l).

(** The requests fetched in a stretch of the trace. *)
Fixpoint fetches (t : list effect) : list string :=
  match t with
  | [] => []
  | Fetch request :: t' => request :: fetches t'
  | _ :: t' => fetches t'
  end.

Definition not_fetch (e : effect) : bool :=
  match e with
  | Fetch _ => false
  | _ => true
  end.

(** The trace of [w'] is that of [w] followed by effects that satisfy [P]. *)
Definition adds (P : effect -> bool) (w w' : world) : Prop :=
  exists t, trace w' = trace w ++ t /\ forallb P t = true.

(** The class list of the element at [q]; empty when there is none. *)
Definition classes_at (ns : list node) (q : node_path) : list string :=
  match element_at ns q with
  | Some e => classList e
  | None => []
  end.

(** The callback of the [forEach] of [updateActiveLink], for the link at
    [link] and the current path [currentPath]. *)
Definition mark_link (resolve : url -> string -> option url)
    (currentPath : string) (link : node_path) : M unit :=
  e <- gets (fun w => element_at (document w) link) ;;
  base <- gets location ;;
  match e with
  | None => ret tt
  | Some e =>
      match link_url resolve base e with
      | None => throw (TypeError "Invalid URL")
      | Some u =>
          let linkPath := pathname u in
          if String.eqb linkPath currentPath
          then modify (fun w => set_document
                 (update_at (with_classes (class_add "nav-link-active")) link (document w)) w)
          else modify (fun w => set_document
                 (update_at (with_classes (class_remove "nav-link-active")) link (document w)) w)
      end
  end.

(** The element at [q], if any, has a URL. *)
Definition has_url (resolve : url -> string -> option url) (base : url)
    (ns : list node) (q : node_path) : bool :=
  match element_at ns q with
  | Some e => match link_url resolve base e with Some _ => true | None => false end
  | None => true
  end.

(** The element at [q] is a link to the path of [base]. *)
Definition is_current (resolve : url -> string -> option url) (base : url)
    (ns : list node) (q : node_path) : bool :=
  match element_at ns q with
  | Some e => match link_url resolve base e with
              | Some u => String.eqb (pathname u) (pathname base)
              | None => false
              end
  | None => false
  end.

(** An element without its classes. *)
Definition sans_classes (e : element) : element :=
  {| tagName := tagName e; id := id e; classList := []; attributes := attributes e |}.

(** [ns'] has the elements of [ns] at the same places, with the same tag,
    id and attributes. *)
Definition same_skeleton (ns ns' : list node) : Prop :=
  forall q, option_map sans_classes (element_at ns' q)
            = option_map sans_classes (element_at ns q).

(** The document has an element with id [i]. *)
Definition has_element (i : string) (ns : list node) : bool :=
  match getElementById i ns with
  | Some _ => true
  | None => false
  end.

(** A computation that never throws. *)
Definition returns {A} (m : M A) : Prop :=
  forall w, exists a, fst (m w) = Returned a.

(** What [initFormHandlers] does on a document: it throws when the modal
    and its opening button are there and the closing button is not. *)
Definition form_handlers_outcome (ns : list node) : outcome unit :=
  if has_element "inscription-modal" ns
     && has_element "open-modal-btn" ns
     && negb (has_element "close-modal-btn" ns)
  then Thrown (TypeError "closeBtn is null")
  else Returned tt.

(** Neither path leads to the other's node or below it. *)
Definition apart (p q : node_path) : bool :=
  negb (is_prefix p q) && negb (is_prefix q p).

(** The element at [p] carries the id [i] and has the children [ks]. *)
Definition holds (i : string) (p : node_path) (ks : list node) (ns : list node) : Prop :=
  exists e, node_at ns p = Some (Elem e ks) /\ id e = i.

(** The carousel container at [pc] has the children [kc] and the dots
    container, when there is one, at [pd], has the children [kd]. *)
Definition carousel_holds (pc : node_path) (pd : option node_path)
    (kc kd : list node) (ns : list node) : Prop :=
  holds "testimonial-carousel" pc kc ns
  /\ match pd with
     | Some p => holds "testimonial-dots" p kd ns
     | None => True
     end.

(** The reference [getElementById(i)] gives for the element at [p]. *)
Definition found (i : string) (p : node_path) : ref :=
  {| at_path := p; by_id := i |}.

(** The cards and the dots as [initTestimonialCarousel] leaves them: one
    per testimonial, with the classes of the closure state [Carousel.init]. *)
Definition rendered_cards (withDots : bool) : list node :=
  zip_classes (Carousel.cards (Carousel.init withDots))
              (map card_node Carousel.testimonials).

Definition rendered_dots : list node :=
  zip_classes (Carousel.dots (Carousel.init true))
              (map (fun _ => dot_node) Carousel.testimonials).

(** The class lists of the children of the node at [p]. *)
Definition child_classes (ns : list node) (p : node_path) : list (list string) :=
  match node_at ns p with
  | Some n => map (fun k => match k with
                            | Elem e _ => classList e
                            | Text _ => []
                            end) (children n)
  | None => []
  end.

(** *** [setupCommonEventListeners] and its listeners *)

(** [classList.toggle(c)], without the [force] argument. *)
Definition class_flip (c : string) (l : list string) : list string :=
  class_toggle c (negb (contains c l)) l.

(** The [click] listener on the header: [e.target] is an element of the
    document, and the menu is looked up at each click. *)
Definition on_header_click (e : click_event) : M unit :=
  mobileMenuButton <- gets (fun w => closest (has_id "mobile-menu-button")
                                             (document w) (target e)) ;;
  mobileMenu <- get_by_id "mobile-menu" ;;
  match mobileMenuButton, mobileMenu with
  | Some _, Some menu => write menu (with_classes (class_flip "hidden"))
  | _, _ => ret tt
  end ;;
  targetIsLink <- gets (fun w => match element_at (document w) (target e) with
                                 | Some t => has_tag "a" t
                                 | None => false
                                 end) ;;
  match mobileMenu with
  | Some menu =>
      hidden <- gets (fun w => contains "hidden" (classes_at (document w) (at_path menu))) ;;
      if targetIsLink && negb hidden
      then write menu (with_classes (class_add "hidden"))
      else ret tt
  | None => ret tt
  end.

(** [element.firstElementChild?.classList...]: [f] on the first child
    that is an element, if there is one. *)
Fixpoint alter_first_element (f : node -> node) (ks : list node) : list node :=
  match ks with
  | [] => []
  | Text s :: ks' => Text s :: alter_first_element f ks'
  | Elem e k :: ks' => f (Elem e k) :: ks'
  end.

Definition on_first_element_child (f : node -> node) (n : node) : node :=
  below (alter_first_element f) n.

(** The [scroll] listener on [window]; [header] and [toTopButton] are the
    elements [setupCommonEventListeners] has looked up. *)
Definition on_scroll (header toTopButton : ref) : M unit :=
  y <- gets scrollY ;;
  (if (y >? 10)%Z
   then write header (on_first_element_child (with_classes (class_add "shadow-md")))
   else write header (on_first_element_child (with_classes (class_remove "shadow-md")))) ;;
  y <- gets scrollY ;;
  if (y >? 300)%Z
  then write toTopButton (with_classes (class_remove "hidden"))
  else write toTopButton (with_classes (class_add "hidden")).

(** A listener put on [window] is recorded with the empty path, which
    designates no node. *)
Definition window_target : node_path := [].

(** [setupCommonEventListeners]: [header.addEventListener] has no null
    check. *)
Definition setupCommonEventListeners : M unit :=
  header <- get_by_id "header-placeholder" ;;
  toTopButton <- get_by_id "to-top-button" ;;
  match header with
  | None => throw (TypeError "header is null")
  | Some header =>
      addEventListener header "click" ;;
      match toTopButton with
      | Some toTopButton =>
          modify (emit (AddEventListener window_target "scroll")) ;;
          addEventListener toTopButton "click"
      | None => ret tt
      end
  end.

(** *** The [submit] listener of the contact form *)

Definition on_contact_submit : M unit :=
  modify (emit PreventDefault) ;;
  formContainer <- get_by_id "contact-form-container" ;;
  confirmationMessage <- get_by_id "contact-confirmation" ;;
  match formContainer, confirmationMessage with
  | Some formContainer, Some confirmationMessage =>
      write formContainer (with_classes (class_add "hidden")) ;;
      write confirmationMessage (with_classes (class_remove "hidden"))
  | _, _ => ret tt
  end.

(** *** [loadComponents] *)

(** The inner [load(url, elementId)] of [loadComponents], run to
    completion; the markup of the response is kept parsed, as the
    [innerHTML] setter parses it. *)
Definition load (net : url -> string -> fetch_result) (address elementId : string) : M unit :=
  try_catch
    (response <- fetch net address ;;
     (if negb (fst response)
      then throw (Error ("Failed to load " ++ address)%string)
      else ret tt) ;;
     data <- match snd response with
             | None => throw NetworkFailure
             | Some data => ret data
             end ;;
     element <- get_by_id elementId ;;
     when_some element (fun element => write element (with_children (doc_nodes data))))
    (fun error => console_error "Error loading component:" (Some error)).

(** The first child of the element at [p] that is an element. *)
Fixpoint first_element_index (ks : list node) : option nat :=
  match ks with
  | [] => None
  | Text _ :: ks' => option_map S (first_element_index ks')
  | Elem _ _ :: _ => Some 0%nat
  end.

Definition firstElementChild (ns : list node) (p : node_path) : option node_path :=
  match node_at ns p with
  | Some n => option_map (fun i => p ++ [i]) (first_element_index (children n))
  | None => None
  end.

(** The click is on the menu button or inside it; the click is on a link. *)
Definition on_menu_button (e : click_event) (ns : list node) : bool :=
  match closest (has_id "mobile-menu-button") ns (target e) with
  | Some _ => true
  | None => false
  end.

Definition on_link (e : click_event) (ns : list node) : bool :=
  match element_at ns (target e) with
  | Some t => has_tag "a" t
  | None => false
  end.

(** The element at [p] carries the class [hidden]. *)
Definition hidden_at (ns : list node) (p : node_path) : bool :=
  contains "hidden" (classes_at ns p).

(** *** A sample page with a scroll-to-top button *)

Definition with_top_button : world :=
  set_document
    (Samples.page Samples.home_content
     ++ [Elem (Samples.with_id "to-top-button" "button" ["hidden"]) [Text "Haut"]])
    Samples.home.

(** The sample page [/about.html], once it is shown. *)
Definition about_shown : world :=
  set_document (Samples.page Samples.about_content) Samples.arriving.

(** [history.pushState] accepts [address] on a page at [here]: it parses
    to [there], a URL the document can take; and it refuses it. *)
Definition accepted (resolve : url -> string -> option url) (here : url)
    (address : string) (there : url) : Prop :=
  resolve here address = Some there /\ can_rewrite here there = true.

Definition refused (resolve : url -> string -> option url) (here : url)
    (address : string) : bool :=
  match resolve here address with
  | Some there => negb (can_rewrite here there)
  | None => true
  end.

(** * Properties *)

(** ** The carousel index *)

Module CarouselFacts.
Import Carousel.
Local Open Scope Z_scope.

Lemma mapi_length {A B} (f : Z -> A -> B) (l : list A) (i : Z) :
  length (mapi f i l) = length l.
Proof.
  revert i; induction l as [|x l IH]; intros i; simpl; [reflexivity|].
  now rewrite IH.
Qed.

Lemma showTestimonial_shape (i : Z) (s : state) :
  length (cards (showTestimonial i s)) = length (cards s)
  /\ length (dots (showTestimonial i s)) = length (dots s)
  /\ currentIndex (showTestimonial i s) = currentIndex s.
Proof.
  unfold showTestimonial; simpl.
  now rewrite !mapi_length.
Qed.

Lemma init_well_formed (withDots : bool) : well_formed (init withDots).
Proof.
  unfold well_formed, len.
  destruct withDots; vm_compute; repeat split; try discriminate; lia.
Qed.

Lemma rem_in_range (a n : Z) : 0 <= a -> 0 < n -> 0 <= Z.rem a n < n.
Proof.
  intros Ha Hn. rewrite Z.rem_mod_nonneg by lia. now apply Z.mod_pos_bound.
Qed.

Lemma shown_well_formed (i : Z) (s : state) :
  len (cards s) = 4 -> (length (dots s) <= 4)%nat -> 0 <= i < 4 ->
  well_formed (showTestimonial i (set_index i s)).
Proof.
  intros Hc Hd Hi. unfold well_formed, len in *.
  destruct (showTestimonial_shape i (set_index i s)) as (E1 & E2 & E3).
  rewrite E1, E2, E3. simpl. repeat split; assumption || lia.
Qed.

Lemma step_well_formed (a : action) (s : state) :
  well_formed s -> well_formed (step a s).
Proof.
  intros Hs. pose proof Hs as (Hc & Hd & Hi).
  destruct a as [| |i]; simpl.
  - apply shown_well_formed; try assumption.
    rewrite Hc. apply rem_in_range; lia.
  - apply shown_well_formed; try assumption.
    rewrite Hc. apply rem_in_range; lia.
  - destruct (Nat.ltb_spec i (length (dots s))) as [Hlt|Hge]; [|assumption].
    apply shown_well_formed; try assumption. lia.
Qed.

Lemma run_well_formed (l : list action) (s : state) :
  well_formed s -> well_formed (run l s).
Proof.
  revert s; induction l as [|a l IH]; intros s Hs; simpl; [assumption|].
  apply IH, step_well_formed, Hs.
Qed.

Lemma next_index (s : state) :
  currentIndex (next s) = Z.rem (currentIndex s + 1) (len (cards s)).
Proof. reflexivity. Qed.

Lemma prev_index (s : state) :
  currentIndex (prev s) = Z.rem (currentIndex s - 1 + len (cards s)) (len (cards s)).
Proof. reflexivity. Qed.

(** C8. In every state the carousel can reach from its initialisation, by
    any sequence of [next], [prev] and dot clicks, there are N = 4 cards and
    the index lies in [0, N-1]; [next] maps the index i to (i+1) mod N and
    [prev] maps it to (i-1+N) mod N, so [next] from N-1 gives 0 and [prev]
    from 0 gives N-1, and the index stays in range. *)
Theorem carousel_index_cycles (withDots : bool) (l : list action) :
  let s := run l (init withDots) in
  let N := len (cards s) in
  let i := currentIndex s in
  N = 4
  /\ 0 <= i <= N - 1
  /\ currentIndex (next s) = (i + 1) mod N
  /\ currentIndex (prev s) = (i - 1 + N) mod N
  /\ currentIndex (next s) = (if i =? N - 1 then 0 else i + 1)
  /\ currentIndex (prev s) = (if i =? 0 then N - 1 else i - 1)
  /\ 0 <= currentIndex (next s) <= N - 1
  /\ 0 <= currentIndex (prev s) <= N - 1.
Proof.
  intros s N i.
  destruct (run_well_formed l (init withDots) (init_well_formed withDots))
    as (Hc & _ & Hi).
  fold s in Hc, Hi. fold N in Hc. fold i in Hi.
  rewrite next_index, prev_index. fold N i. rewrite Hc.
  assert (En : Z.rem (i + 1) 4 = (i + 1) mod 4) by (apply Z.rem_mod_nonneg; lia).
  assert (Ep : Z.rem (i - 1 + 4) 4 = (i - 1 + 4) mod 4) by (apply Z.rem_mod_nonneg; lia).
  rewrite En, Ep.
  assert (Hcases : i = 0 \/ i = 1 \/ i = 2 \/ i = 3) by lia.
  destruct Hcases as [-> | [-> | [-> | ->]]]; vm_compute; repeat split; congruence.
Qed.

End CarouselFacts.

(** ** Paths, updates and queries *)

Section NodeInduction.

Variable Pn : node -> Prop.
Variable Pf : list node -> Prop.
Hypothesis on_text : forall s, Pn (Text s).
Hypothesis on_elem : forall e ks, Pf ks -> Pn (Elem e ks).
Hypothesis on_nil : Pf [].
Hypothesis on_cons : forall n ns, Pn n -> Pf ns -> Pf (n :: ns).

Fixpoint node_forest_ind (n : node) : Pn n :=
  match n with
  | Text s => on_text s
  | Elem e ks =>
      on_elem e ks
        ((fix go (l : list node) : Pf l :=
            match l with
            | [] => on_nil
            | k :: l' => on_cons k l' (node_forest_ind k) (go l')
            end) ks)
  end.

Lemma forest_ind (ns : list node) : Pf ns.
Proof.
  induction ns as [|n ns IH]; [exact on_nil|].
  apply on_cons; [apply node_forest_ind | exact IH].
Qed.

End NodeInduction.

Lemma nth_error_alter_nth {A} (f : A -> A) (i : nat) :
  forall l, nth_error (alter_nth f i l) i = option_map f (nth_error l i).
Proof.
  induction i as [|i IH]; intros [|x l]; simpl; auto.
Qed.

Lemma nth_error_alter_nth_other {A} (f : A -> A) (i j : nat) :
  i <> j -> forall l, nth_error (alter_nth f i l) j = nth_error l j.
Proof.
  revert j; induction i as [|i IH]; intros [|j] Hij [|x l]; simpl; auto;
    congruence.
Qed.

Lemma alter_nth_twice {A} (f g : A -> A) (i : nat) :
  forall l, alter_nth g i (alter_nth f i l) = alter_nth (fun x => g (f x)) i l.
Proof.
  induction i as [|i IH]; intros [|x l]; simpl; auto. now rewrite IH.
Qed.

Lemma alter_nth_ext {A} (f g : A -> A) (i : nat) :
  forall l, (forall x, nth_error l i = Some x -> f x = g x) ->
            alter_nth f i l = alter_nth g i l.
Proof.
  induction i as [|i IH]; intros [|x l] H; simpl; auto.
  - now rewrite (H x eq_refl).
  - f_equal. apply IH. exact H.
Qed.

Lemma update_at_cons (f : node -> node) (i : nat) (p : node_path) (ns : list node) :
  update_at f (i :: p) ns =
  alter_nth (match p with [] => f | _ :: _ => below (update_at f p) end) i ns.
Proof. destruct p; reflexivity. Qed.

Lemma node_at_cons (i : nat) (p : node_path) (ns : list node) :
  node_at ns (i :: p) =
  match nth_error ns i with
  | None => None
  | Some n => match p with [] => Some n | _ :: _ => node_at (children n) p end
  end.
Proof. reflexivity. Qed.

(** Reading back the node that was updated. *)
Lemma node_at_update_at (f : node -> node) (p : node_path) :
  forall ns, node_at (update_at f p ns) p = option_map f (node_at ns p).
Proof.
  induction p as [|i p IH]; intros ns; [reflexivity|].
  rewrite update_at_cons, !node_at_cons, nth_error_alter_nth.
  destruct (nth_error ns i) as [n|]; [|reflexivity]. simpl option_map.
  destruct p as [|j p]; [reflexivity|].
  destruct n as [s|e ks]; simpl below; simpl children.
  - destruct j; reflexivity.
  - apply IH.
Qed.

(** Two updates at one place are one update. *)
Lemma update_at_twice (f g : node -> node) (p : node_path) :
  forall ns, update_at g p (update_at f p ns) = update_at (fun n => g (f n)) p ns.
Proof.
  induction p as [|i p IH]; intros ns; [reflexivity|].
  rewrite !update_at_cons, alter_nth_twice.
  destruct p as [|j p]; [reflexivity|].
  apply alter_nth_ext. intros [s|e ks] _; unfold below; [reflexivity|].
  f_equal. apply IH.
Qed.

Lemma node_at_shift (n : node) (ns : list node) (p : node_path) :
  node_at (n :: ns) (shift p) = node_at ns p.
Proof. destruct p as [|i p]; reflexivity. Qed.

Lemma update_at_shift (f : node -> node) (n : node) (ns : list node) (p : node_path) :
  update_at f (shift p) (n :: ns) = n :: update_at f p ns.
Proof. destruct p as [|i [|j p]]; reflexivity. Qed.

Lemma first_in_cons {A} (f : A -> option node_path) (x : A) (l : list A) :
  first_in f (x :: l) =
  match f x with
  | Some p => Some (0%nat :: p)
  | None => option_map shift (first_in f l)
  end.
Proof. reflexivity. Qed.

(** [querySelector] returns the path of an element that matches. *)
Lemma querySelector_sound (P : element -> bool) :
  forall ns p, querySelector P ns = Some p ->
               exists e ks, node_at ns p = Some (Elem e ks) /\ P e = true.
Proof.
  unfold querySelector.
  apply (forest_ind
    (fun n => forall q, first_node P n = Some q ->
       match q with
       | [] => exists e ks, n = Elem e ks /\ P e = true
       | _ :: _ => exists e ks, node_at (children n) q = Some (Elem e ks) /\ P e = true
       end)
    (fun ns => forall p, first_in (first_node P) ns = Some p ->
       exists e ks, node_at ns p = Some (Elem e ks) /\ P e = true)).
  - intros s q H; discriminate.
  - intros e ks IH q H. simpl in H.
    destruct (P e) eqn:HP.
    + injection H as <-. eauto.
    + destruct (IH q H) as (e' & ks' & Hn & HP').
      destruct q as [|j q]; [discriminate|]. eauto.
  - intros p H; discriminate.
  - intros n ns IHn IHns p H. rewrite first_in_cons in H.
    destruct (first_node P n) as [q|] eqn:Hq.
    + injection H as <-. specialize (IHn q eq_refl).
      rewrite node_at_cons. simpl nth_error.
      destruct q as [|j q]; [|exact IHn].
      destruct IHn as (e & ks & -> & HP). eauto.
    + destruct (first_in (first_node P) ns) as [p'|]; [|discriminate].
      injection H as <-. rewrite node_at_shift. now apply IHns.
Qed.

(** Updating the first match, in a way that keeps it a match, leaves it the
    first match: what precedes it in document order is untouched. *)
Lemma querySelector_update_at (P : element -> bool) (f : node -> node) :
  keeps P f ->
  forall ns p, querySelector P ns = Some p ->
               querySelector P (update_at f p ns) = Some p.
Proof.
  intros Hf. unfold querySelector.
  apply (forest_ind
    (fun n => forall q, first_node P n = Some q ->
       match q with
       | [] => first_node P (f n) = Some []
       | _ :: _ => first_node P (below (update_at f q) n) = Some q
       end)
    (fun ns => forall p, first_in (first_node P) ns = Some p ->
       first_in (first_node P) (update_at f p ns) = Some p)).
  - intros s q H; discriminate.
  - intros e ks IH q H. simpl in H.
    destruct (P e) eqn:HP.
    + injection H as <-.
      destruct (Hf e ks HP) as (e' & ks' & -> & HP'). simpl. now rewrite HP'.
    + specialize (IH q H).
      destruct q as [|j q].
      * destruct (querySelector_sound P ks [] H) as (? & ? & Hn & _).
        discriminate Hn.
      * unfold below. simpl first_node. now rewrite HP.
  - intros p H; discriminate.
  - intros n ns IHn IHns p H. rewrite first_in_cons in H.
    destruct (first_node P n) as [q|] eqn:Hq.
    + injection H as <-. specialize (IHn q eq_refl).
      rewrite update_at_cons. simpl alter_nth. rewrite first_in_cons.
      destruct q as [|j q]; now rewrite IHn.
    + destruct (first_in (first_node P) ns) as [p'|] eqn:Hp'; [|discriminate].
      injection H as <-.
      rewrite update_at_shift, first_in_cons, Hq, (IHns p' eq_refl).
      reflexivity.
Qed.

(** ** References that stay valid *)

Lemma document_emit (e : effect) (w : world) : document (emit e w) = document w.
Proof. reflexivity. Qed.

Lemma document_set_document (d : list node) (w : world) :
  document (set_document d w) = d.
Proof. reflexivity. Qed.

Lemma in_document_found (i : string) (ns : list node) (p : node_path) :
  getElementById i ns = Some p ->
  in_document {| at_path := p; by_id := i |} ns = true.
Proof.
  intros H. destruct (querySelector_sound _ _ _ H) as (e & ks & Hn & Hi).
  unfold in_document, element_at. simpl. now rewrite Hn.
Qed.

(** When [querySelector] finds nothing, no element matches. *)
Lemma querySelector_complete (P : element -> bool) :
  forall ns, querySelector P ns = None ->
             forall q e ks, node_at ns q = Some (Elem e ks) -> P e = false.
Proof.
  unfold querySelector.
  apply (forest_ind
    (fun n => first_node P n = None ->
       forall q e ks,
         match q with
         | [] => n = Elem e ks
         | _ :: _ => node_at (children n) q = Some (Elem e ks)
         end -> P e = false)
    (fun ns => first_in (first_node P) ns = None ->
       forall q e ks, node_at ns q = Some (Elem e ks) -> P e = false)).
  - intros s _ [|j q] e ks H; [discriminate|]. destruct j; discriminate.
  - intros e ks IH H q e' ks' Hq. simpl in H.
    destruct (P e) eqn:HP; [discriminate|].
    destruct q as [|j q].
    + injection Hq as <- _. exact HP.
    + apply (IH H (j :: q) e' ks' Hq).
  - intros _ [|j q] e ks H; [discriminate|]. destruct j; discriminate.
  - intros n ns IHn IHns H q e ks Hq. rewrite first_in_cons in H.
    destruct (first_node P n) as [r|] eqn:Hn; [discriminate|].
    destruct (first_in (first_node P) ns) as [r|] eqn:Hns; [discriminate|].
    destruct q as [|[|j] q]; [discriminate| |].
    + rewrite node_at_cons in Hq. simpl nth_error in Hq.
      apply (IHn eq_refl q e ks).
      destruct q; [now injection Hq|exact Hq].
    + apply (IHns eq_refl (j :: q) e ks). exact Hq.
Qed.

(** A document without carousel and dots containers has none outside [p]. *)
Lemma carousel_inside_absent (p : node_path) (ns : list node) :
  getElementById "testimonial-carousel" ns = None ->
  getElementById "testimonial-dots" ns = None ->
  carousel_inside p ns.
Proof.
  intros Hc Hd q e _ Hl. unfold label_at in Hl.
  destruct (node_at ns q) as [[s|e' ks]|] eqn:Hn; try discriminate.
  injection Hl as ->.
  pose proof (querySelector_complete _ _ Hc q e ks Hn) as H1.
  pose proof (querySelector_complete _ _ Hd q e ks Hn) as H2.
  apply String.eqb_neq in H1, H2. split; assumption.
Qed.

Lemma keeps_with_classes (P : element -> bool) (g : list string -> list string) :
  (forall e, P e = true ->
             P {| tagName := tagName e; id := id e; classList := g (classList e);
                  attributes := attributes e |} = true) ->
  keeps P (with_classes g).
Proof. intros H e ks HP. simpl. eauto. Qed.

Lemma keeps_id_with_classes (i : string) (g : list string -> list string) :
  keeps (has_id i) (with_classes g).
Proof. apply keeps_with_classes. intros e H. exact H. Qed.

Lemma keeps_with_children (P : element -> bool) (ks : list node) :
  keeps P (with_children ks).
Proof. intros e ks' HP. simpl. eauto. Qed.

Lemma keeps_compose (P : element -> bool) (f g : node -> node) :
  keeps P f -> keeps P g -> keeps P (fun n => g (f n)).
Proof.
  intros Hf Hg e ks HP.
  destruct (Hf e ks HP) as (e' & ks' & -> & HP'). now apply Hg.
Qed.

Lemma keeps_id_not_found_view (i : string) : keeps (has_id i) not_found_view.
Proof.
  apply (keeps_compose _ (with_children fallback_markup)
                         (with_classes (class_remove "page-fade-out"))).
  - apply keeps_with_children.
  - apply keeps_id_with_classes.
Qed.

Lemma keeps_id_failed_load_view (i : string) : keeps (has_id i) failed_load_view.
Proof.
  apply (keeps_compose _ (with_classes (class_add "page-fade-out")) not_found_view).
  - apply keeps_id_with_classes.
  - apply keeps_id_not_found_view.
Qed.

Lemma getElementById_update_at (i : string) (f : node -> node) (ns : list node) (p : node_path) :
  keeps (has_id i) f ->
  getElementById i ns = Some p ->
  getElementById i (update_at f p ns) = Some p.
Proof. intros Hf H. now apply querySelector_update_at. Qed.

Lemma write_found (i : string) (p : node_path) (f : node -> node) (w : world) :
  getElementById i (document w) = Some p ->
  write {| at_path := p; by_id := i |} f w =
  (Returned tt, set_document (update_at f p (document w)) w).
Proof.
  intros H. unfold write, modify. now rewrite (in_document_found _ _ _ H).
Qed.

(** ** [handlePageLoad] *)

Section PageLoadFacts.

Variable resolve : url -> string -> option url.
Variable net : url -> string -> fetch_result.

Lemma show_not_found_found (p : node_path) (error : exn) (w : world) :
  getElementById "main-content" (document w) = Some p ->
  show_not_found {| at_path := p; by_id := "main-content" |} error w =
  (Returned tt,
   set_document (update_at not_found_view p (document w))
                (emit (ConsoleError "Failed to load page:" (Some error)) w)).
Proof.
  intros H. unfold show_not_found, bind, console_error, modify.
  rewrite write_found by exact H.
  rewrite write_found.
  - simpl. now rewrite update_at_twice.
  - simpl. apply getElementById_update_at; [apply keeps_with_children | exact H].
Qed.

(** The [catch] block never throws. *)
Lemma show_not_found_returns (r : ref) (error : exn) (w : world) :
  exists w', show_not_found r error w = (Returned tt, w').
Proof.
  unfold show_not_found, bind, console_error, write, modify. eauto.
Qed.

(** With a container, [handlePageLoad] is its [try]/[catch] run on the
    document whose container has received the class [page-fade-out]. *)
Lemma handlePageLoad_found (path : string) (p : node_path) (w : world) :
  getElementById "main-content" (document w) = Some p ->
  handlePageLoad resolve net path w =
  try_catch (load_page resolve net {| at_path := p; by_id := "main-content" |} path)
            (show_not_found {| at_path := p; by_id := "main-content" |})
            (set_document
               (update_at (with_classes (class_add "page-fade-out")) p (document w))
               (emit (Call "handlePageLoad" path) w)).
Proof.
  intros H.
  unfold handlePageLoad, bind, call, get_by_id, gets, modify.
  rewrite document_emit, H. unfold option_map. cbv beta iota.
  rewrite write_found by exact H. reflexivity.
Qed.

(** Without a container, [handlePageLoad] logs and returns. *)
Lemma handlePageLoad_missing (path : string) (w : world) :
  getElementById "main-content" (document w) = None ->
  handlePageLoad resolve net path w =
  (Returned tt,
   emit (ConsoleError "Main content container #main-content not found!" None)
        (emit (Call "handlePageLoad" path) w)).
Proof.
  intros H.
  unfold handlePageLoad, bind, call, get_by_id, gets, modify.
  rewrite document_emit, H. reflexivity.
Qed.

(** [handlePageLoad] never throws, whatever the document and the network. *)
Lemma handlePageLoad_returns (path : string) (w : world) :
  exists w', handlePageLoad resolve net path w = (Returned tt, w').
Proof.
  destruct (getElementById "main-content" (document w)) as [p|] eqn:H.
  - rewrite (handlePageLoad_found path p w H). unfold try_catch.
    match goal with
    | |- context [load_page _ _ ?r _ ?w0] =>
        destruct (load_page resolve net r path w0) as [[[]|e] w1]
    end.
    + eauto.
    + apply show_not_found_returns.
  - rewrite (handlePageLoad_missing path w H). eauto.
Qed.

End PageLoadFacts.

Lemma is_prefix_refl (p : node_path) : is_prefix p p = true.
Proof. induction p as [|i p IH]; simpl; [reflexivity|]. now rewrite Nat.eqb_refl. Qed.

(** An update at [p] shows only at [p] and below. *)
Lemma label_at_update_at (f : node -> node) (p : node_path) :
  forall q ns, is_prefix p q = false ->
               label_at (update_at f p ns) q = label_at ns q.
Proof.
  unfold label_at.
  induction p as [|i p IH]; intros q ns Hq; [discriminate|].
  destruct q as [|j q]; [reflexivity|].
  rewrite update_at_cons, !node_at_cons.
  simpl in Hq. destruct (Nat.eqb_spec i j) as [<-|Hij].
  - simpl in Hq. rewrite nth_error_alter_nth.
    destruct (nth_error ns i) as [n|]; [|reflexivity]. simpl option_map at 2.
    destruct p as [|k p]; [discriminate|].
    destruct q as [|l q].
    + destruct n; reflexivity.
    + destruct n as [s|e ks]; [reflexivity|]. simpl below. simpl children.
      now apply IH.
  - now rewrite nth_error_alter_nth_other.
Qed.

Section PageLoadProperties.

Variable resolve : url -> string -> option url.
Variable net : url -> string -> fetch_result.

(** C9. When the current document has no [#main-content] element,
    [handlePageLoad(path)] logs the error and returns: the only new entries
    of the trace are the call itself and the console error (no fetch), and
    the document, the title, the scroll position, the history and the
    location are what they were. *)
Theorem handlePageLoad_without_container (path : string) (w : world) :
  getElementById "main-content" (document w) = None ->
  exists w',
    handlePageLoad resolve net path w = (Returned tt, w')
    /\ trace w' = trace w ++
         [Call "handlePageLoad" path;
          ConsoleError "Main content container #main-content not found!" None]
    /\ document w' = document w
    /\ title w' = title w
    /\ scrollX w' = scrollX w /\ scrollY w' = scrollY w
    /\ history w' = history w
    /\ location w' = location w.
Proof.
  intros H. eexists. split; [apply handlePageLoad_missing, H|].
  simpl. rewrite <- app_assoc. repeat split; reflexivity.
Qed.

(** The [try] block throws at once when the fetch fails. *)
Lemma load_page_failed (r : ref) (path : string) (w : world) :
  fetch_failed (net (location w) path) = true ->
  exists error, load_page resolve net r path w = (Thrown error, emit (Fetch path) w).
Proof.
  intros H. unfold load_page, bind, fetch.
  destruct (net (location w) path) as [|ok body]; [eauto|].
  simpl in H. destruct ok; [discriminate|]. simpl. unfold throw. eauto.
Qed.

(** A failed load, on a document with a container. *)
Lemma handlePageLoad_failed (path : string) (p : node_path) (w : world) (error : exn) (w1 : world) :
  getElementById "main-content" (document w) = Some p ->
  load_page resolve net {| at_path := p; by_id := "main-content" |} path
    (set_document
       (update_at (with_classes (class_add "page-fade-out")) p (document w))
       (emit (Call "handlePageLoad" path) w)) = (Thrown error, w1) ->
  getElementById "main-content" (document w1) = Some p ->
  handlePageLoad resolve net path w =
  (Returned tt,
   set_document (update_at not_found_view p (document w1))
                (emit (ConsoleError "Failed to load page:" (Some error)) w1)).
Proof.
  intros H Hload H1.
  rewrite (handlePageLoad_found resolve net path p w H).
  unfold try_catch. rewrite Hload. now apply show_not_found_found.
Qed.

(** C2. When the fetch of [path] is rejected or answers with a non-ok
    status, [handlePageLoad(path)] returns without throwing, and the
    [#main-content] container of the document (at [p], when there is one)
    is left holding the literal fallback markup, which has the text
    "Erreur 404" and a link to [/]. *)
Theorem failed_fetch_shows_not_found (path : string) (w : world) :
  fetch_failed (net (location w) path) = true ->
  exists w',
    handlePageLoad resolve net path w = (Returned tt, w')
    /\ (forall p,
          getElementById "main-content" (document w) = Some p ->
          getElementById "main-content" (document w') = Some p
          /\ innerHTML (document w') p = Some fallback_markup
          /\ document w' = update_at failed_load_view p (document w))
    /\ In "Erreur 404" (flat_map text_nodes fallback_markup)
    /\ In "/" (flat_map link_hrefs fallback_markup).
Proof.
  intros Hnet.
  assert (Hliteral : In "Erreur 404" (flat_map text_nodes fallback_markup)
                     /\ In "/" (flat_map link_hrefs fallback_markup)).
  { simpl. auto. }
  destruct (getElementById "main-content" (document w)) as [p|] eqn:H.
  2:{ eexists. split; [apply handlePageLoad_missing, H|].
      split; [intros p Hp; discriminate | exact Hliteral]. }
  set (w0 := set_document
               (update_at (with_classes (class_add "page-fade-out")) p (document w))
               (emit (Call "handlePageLoad" path) w)).
  assert (H0 : getElementById "main-content" (document w0) = Some p).
  { apply getElementById_update_at; [apply keeps_id_with_classes | exact H]. }
  destruct (load_page_failed {| at_path := p; by_id := "main-content" |} path w0 Hnet)
    as (error & Hload).
  eexists. split.
  { apply (handlePageLoad_failed path p w error _ H Hload). exact H0. }
  split; [|exact Hliteral].
  intros p' Hp'. injection Hp' as <-.
  destruct (querySelector_sound _ _ _ H) as (e & ks & Hn & _).
  assert (Hdoc : update_at not_found_view p (document (emit (Fetch path) w0))
                 = update_at failed_load_view p (document w)).
  { unfold w0. rewrite document_emit, document_set_document.
    now rewrite update_at_twice. }
  rewrite document_set_document, Hdoc.
  split; [|split; [|reflexivity]].
  - apply getElementById_update_at; [apply keeps_id_failed_load_view | exact H].
  - unfold innerHTML. rewrite node_at_update_at, Hn. reflexivity.
Qed.

(** The [try] block throws, after setting the title, when the fetched
    document has no container. *)
Lemma load_page_no_container (r : ref) (path : string) (doc : html_document) (w : world) :
  net (location w) path = Response true (Some doc) ->
  getElementById "main-content" (doc_nodes doc) = None ->
  load_page resolve net r path w =
  (Thrown (TypeError "doc.querySelector(...) is null"),
   set_title (doc_title doc) (emit (Fetch path) w)).
Proof.
  intros Hnet Hdoc. unfold load_page, bind, fetch.
  rewrite Hnet. simpl. unfold modify. now rewrite Hdoc.
Qed.

(** C6. When the fetch succeeds but the fetched document has no
    [#main-content] element, [handlePageLoad] returns without throwing and
    the container of the current document holds the fallback view; every
    node outside the container (the shell) is what it was.  The title has
    by then been set to the fetched document's title. *)
Theorem fetched_page_without_container (path : string) (p : node_path)
    (doc : html_document) (w : world) :
  getElementById "main-content" (document w) = Some p ->
  net (location w) path = Response true (Some doc) ->
  getElementById "main-content" (doc_nodes doc) = None ->
  exists w',
    handlePageLoad resolve net path w = (Returned tt, w')
    /\ getElementById "main-content" (document w') = Some p
    /\ innerHTML (document w') p = Some fallback_markup
    /\ document w' = update_at failed_load_view p (document w)
    /\ (forall q, is_prefix p q = false ->
                   label_at (document w') q = label_at (document w) q)
    /\ title w' = doc_title doc
    /\ scrollX w' = scrollX w /\ scrollY w' = scrollY w
    /\ history w' = history w /\ location w' = location w.
Proof.
  intros H Hnet Hdoc.
  set (w0 := set_document
               (update_at (with_classes (class_add "page-fade-out")) p (document w))
               (emit (Call "handlePageLoad" path) w)).
  assert (H0 : getElementById "main-content" (document w0) = Some p).
  { apply getElementById_update_at; [apply keeps_id_with_classes | exact H]. }
  pose proof (load_page_no_container {| at_path := p; by_id := "main-content" |}
                path doc w0 Hnet Hdoc) as Hload.
  eexists. split.
  { apply (handlePageLoad_failed path p w _ _ H Hload). exact H0. }
  destruct (querySelector_sound _ _ _ H) as (e & ks & Hn & _).
  assert (Hview : update_at not_found_view p
                    (document (set_title (doc_title doc) (emit (Fetch path) w0)))
                  = update_at failed_load_view p (document w)).
  { unfold w0. simpl document. now rewrite update_at_twice. }
  rewrite document_set_document, Hview.
  split; [|split; [|split; [reflexivity|split; [|repeat split]]]].
  - apply getElementById_update_at; [apply keeps_id_failed_load_view | exact H].
  - unfold innerHTML. rewrite node_at_update_at, Hn. reflexivity.
  - intros q Hq. now apply label_at_update_at.
Qed.

End PageLoadProperties.

(** The three theorems above on the sample site. *)

Lemma handlePageLoad_without_container_witness :
  getElementById "main-content" (document Samples.bare) = None
  /\ exists w',
       handlePageLoad Samples.resolve Samples.net "/about.html" Samples.bare = (Returned tt, w')
       /\ trace w' = trace Samples.bare ++
            [Call "handlePageLoad" "/about.html";
             ConsoleError "Main content container #main-content not found!" None]
       /\ document w' = document Samples.bare
       /\ title w' = title Samples.bare
       /\ scrollX w' = scrollX Samples.bare /\ scrollY w' = scrollY Samples.bare
       /\ history w' = history Samples.bare
       /\ location w' = location Samples.bare.
Proof.
  split; [reflexivity|].
  apply (handlePageLoad_without_container Samples.resolve Samples.net
           "/about.html" Samples.bare).
  reflexivity.
Defined.

Lemma failed_fetch_shows_not_found_witness :
  fetch_failed (Samples.net (location Samples.home) "/nonexistent") = true
  /\ exists w',
       handlePageLoad Samples.resolve Samples.net "/nonexistent" Samples.home = (Returned tt, w')
       /\ getElementById "main-content" (document w') = Some [1%nat]
       /\ innerHTML (document w') [1%nat] = Some fallback_markup.
Proof.
  split; [reflexivity|].
  destruct (failed_fetch_shows_not_found Samples.resolve Samples.net
              "/nonexistent" Samples.home eq_refl) as (w' & Hrun & Hp & _).
  destruct (Hp [1%nat] eq_refl) as (Hfound & Hinner & _).
  exists w'. repeat split; assumption.
Defined.

Lemma fetched_page_without_container_witness :
  exists w',
    handlePageLoad Samples.resolve Samples.net "/draft.html" Samples.home = (Returned tt, w')
    /\ innerHTML (document w') [1%nat] = Some fallback_markup
    /\ label_at (document w') [0%nat] = label_at (document Samples.home) [0%nat]
    /\ title w' = "Brouillon".
Proof.
  destruct (fetched_page_without_container Samples.resolve Samples.net
              "/draft.html" [1%nat]
              {| doc_title := "Brouillon";
                 doc_nodes := [Samples.header; Elem (el "main" [] []) []; Samples.footer] |}
              Samples.home eq_refl eq_refl eq_refl)
    as (w' & Hrun & _ & Hinner & _ & Hframe & Htitle & _).
  exists w'. repeat split; try assumption.
  apply Hframe. reflexivity.
Defined.

(** ** What a computation adds to the trace *)

Lemma loads_app (t u : list effect) : loads (t ++ u) = loads t ++ loads u.
Proof.
  induction t as [|e t IH]; [reflexivity|].
  destruct e; simpl; try exact IH.
  destruct (String.eqb method "handlePageLoad"); simpl; now rewrite IH.
Qed.

Lemma prevented_app (t u : list effect) :
  prevented (t ++ u) = (prevented t + prevented u)%nat.
Proof.
  induction t as [|e t IH]; [reflexivity|].
  destruct e; simpl; now rewrite IH.
Qed.

Lemma minor_loads (t : list effect) :
  forallb minor t = true -> loads t = [] /\ prevented t = 0%nat.
Proof.
  induction t as [|e t IH]; [auto|]. simpl.
  intros H. apply andb_prop in H as [He Ht]. specialize (IH Ht).
  destruct e; simpl in *; try exact IH; try discriminate.
  destruct (String.eqb method "handlePageLoad"); [discriminate | exact IH].
Qed.

Section Respects.

Variable R : world -> world -> Prop.
Hypothesis R_refl : forall w, R w w.
Hypothesis R_trans : forall a b c, R a b -> R b c -> R a c.

Lemma respects_ret {A} (a : A) : respects R (ret a).
Proof. intros w. apply R_refl. Qed.

Lemma respects_throw {A} (e : exn) : respects R (@throw A e).
Proof. intros w. apply R_refl. Qed.

Lemma respects_gets {A} (f : world -> A) : respects R (gets f).
Proof. intros w. apply R_refl. Qed.

Lemma respects_modify (f : world -> world) :
  (forall w, R w (f w)) -> respects R (modify f).
Proof. intros Hf w. apply Hf. Qed.

Lemma respects_bind {A B} (m : M A) (k : A -> M B) :
  respects R m -> (forall a, respects R (k a)) -> respects R (bind m k).
Proof.
  intros Hm Hk w. unfold bind. specialize (Hm w).
  destruct (m w) as [[a|e] w1]; simpl in Hm; [|exact Hm].
  eapply R_trans; [exact Hm | apply Hk].
Qed.

Lemma respects_try_catch {A} (m : M A) (h : exn -> M A) :
  respects R m -> (forall e, respects R (h e)) -> respects R (try_catch m h).
Proof.
  intros Hm Hh w. unfold try_catch. specialize (Hm w).
  destruct (m w) as [[a|e] w1]; simpl in Hm; [exact Hm|].
  eapply R_trans; [exact Hm | apply Hh].
Qed.

Lemma respects_for_each {A} (f : A -> M unit) (l : list A) :
  (forall x, respects R (f x)) -> respects R (for_each f l).
Proof.
  intros Hf. induction l as [|x l IH]; simpl.
  - apply respects_ret.
  - apply respects_bind; [apply Hf | intros _; exact IH].
Qed.

Lemma respects_for_each_in {A} (f : A -> M unit) (l : list A) :
  (forall x, In x l -> respects R (f x)) -> respects R (for_each f l).
Proof.
  induction l as [|x l IH]; intros Hf; simpl.
  - apply respects_ret.
  - apply respects_bind; [apply Hf; now left | intros _].
    apply IH. intros y Hy. apply Hf. now right.
Qed.

Lemma respects_when_some {A} (o : option A) (f : A -> M unit) :
  (forall a, respects R (f a)) -> respects R (when_some o f).
Proof. intros Hf. destruct o; simpl; [apply Hf | apply respects_ret]. Qed.

End Respects.

Lemma quietly_refl (w : world) : quietly w w.
Proof. split; [exists []; now rewrite app_nil_r | auto]. Qed.

Lemma quietly_trans (a b c : world) : quietly a b -> quietly b c -> quietly a c.
Proof.
  intros ((t1 & E1 & M1) & Hh1 & Hl1) ((t2 & E2 & M2) & Hh2 & Hl2).
  split; [|split; congruence].
  exists (t1 ++ t2). rewrite E2, E1, app_assoc, forallb_app, M1, M2. auto.
Qed.

Lemma quietly_emit (e : effect) (w : world) : minor e = true -> quietly w (emit e w).
Proof. intros He. split; [|auto]. exists [e]. simpl. now rewrite He. Qed.

Lemma quietly_silent (w w' : world) :
  trace w' = trace w -> history w' = history w -> location w' = location w ->
  quietly w w'.
Proof. intros Ht Hh Hl. split; [|auto]. exists []. now rewrite app_nil_r. Qed.

Lemma in_place_refl (w : world) : in_place w w.
Proof. repeat split. Qed.

Lemma in_place_trans (a b c : world) : in_place a b -> in_place b c -> in_place a c.
Proof. unfold in_place. intros (? & ? & ?) (? & ? & ?). repeat split; congruence. Qed.

(** One step of a proof that a computation respects [quietly] or
    [in_place]: follow the structure of the computation. *)
Ltac respects_step Rrefl Rtrans :=
  lazymatch goal with
  | |- respects _ (match ?x with _ => _ end) => destruct x
  | |- respects _ (bind _ _) => apply (respects_bind _ Rtrans); [|intros ?]
  | |- respects _ (when_some _ _) => apply (respects_when_some _ Rrefl); intros ?
  | |- respects _ (for_each _ _) => apply (respects_for_each _ Rrefl Rtrans); intros ?
  | |- respects _ (try_catch _ _) => apply (respects_try_catch _ Rtrans); [|intros ?]
  | |- respects _ (ret _) => apply (respects_ret _ Rrefl)
  | |- respects _ (throw _) => apply (respects_throw _ Rrefl)
  | |- respects _ (gets _) => apply (respects_gets _ Rrefl)
  | |- respects _ (modify _) => apply respects_modify; intros ?
  end.

Ltac quiet_step :=
  unfold quiet;
  first
    [ respects_step quietly_refl quietly_trans
    | match goal with
      | |- quietly _ (if ?c then _ else _) => destruct c
      end
    | solve [apply quietly_refl]
    | solve [apply quietly_emit; reflexivity]
    | solve [apply quietly_silent; reflexivity] ].

Ltac in_place_step :=
  first
    [ respects_step in_place_refl in_place_trans
    | match goal with
      | |- in_place _ (if ?c then _ else _) => destruct c
      end
    | solve [repeat split] ].

(** The scripts all work through these. *)
Ltac unfold_scripts :=
  unfold initFadeInObserver, initStatsCounter, initFaqAccordion, initFormHandlers,
    initTestimonialCarousel, render_carousel, observe, get_by_id, write, addEventListener,
    addEventListener_child, console_error, call.

Lemma quiet_initFadeInObserver : quiet initFadeInObserver.
Proof. unfold_scripts. repeat quiet_step. Qed.

Lemma quiet_initStatsCounter : quiet initStatsCounter.
Proof. unfold_scripts. repeat quiet_step. Qed.

Lemma quiet_initFaqAccordion : quiet initFaqAccordion.
Proof. unfold_scripts. repeat quiet_step. Qed.

Lemma quiet_initFormHandlers : quiet initFormHandlers.
Proof. unfold_scripts. repeat quiet_step. Qed.

Lemma quiet_initTestimonialCarousel : quiet initTestimonialCarousel.
Proof. unfold_scripts. repeat quiet_step. Qed.

Lemma quiet_scripts :
  quiet (initFadeInObserver ;; initTestimonialCarousel ;; initFormHandlers ;;
         initFaqAccordion ;; initStatsCounter).
Proof.
  apply (respects_bind _ quietly_trans); [apply quiet_initFadeInObserver | intros _].
  apply (respects_bind _ quietly_trans); [apply quiet_initTestimonialCarousel | intros _].
  apply (respects_bind _ quietly_trans); [apply quiet_initFormHandlers | intros _].
  apply (respects_bind _ quietly_trans); [apply quiet_initFaqAccordion | intros _].
  apply quiet_initStatsCounter.
Qed.

Lemma quiet_runPageSpecificScripts : quiet runPageSpecificScripts.
Proof.
  unfold runPageSpecificScripts, call.
  apply (respects_bind _ quietly_trans); [repeat quiet_step | intros _].
  apply quiet_scripts.
Qed.

Lemma in_place_runPageSpecificScripts : respects in_place runPageSpecificScripts.
Proof.
  unfold runPageSpecificScripts. unfold_scripts. repeat in_place_step.
Qed.

Section TraceFacts.

Variable resolve : url -> string -> option url.
Variable net : url -> string -> fetch_result.

Lemma quiet_updateActiveLink : quiet (updateActiveLink resolve).
Proof. unfold updateActiveLink, call. repeat quiet_step. Qed.

Lemma in_place_updateActiveLink : respects in_place (updateActiveLink resolve).
Proof. unfold updateActiveLink, call. repeat in_place_step. Qed.

Lemma quiet_fetch (request : string) : quiet (fetch net request).
Proof.
  intros w. unfold fetch.
  destruct (net (location w) request); apply quietly_emit; reflexivity.
Qed.

Lemma quiet_load_page (r : ref) (path : string) : quiet (load_page resolve net r path).
Proof.
  unfold load_page.
  apply (respects_bind _ quietly_trans); [apply quiet_fetch | intros response].
  apply (respects_bind _ quietly_trans); [repeat quiet_step | intros _].
  apply (respects_bind _ quietly_trans); [repeat quiet_step | intros doc].
  apply (respects_bind _ quietly_trans); [repeat quiet_step | intros _].
  apply (respects_bind _ quietly_trans); [repeat quiet_step | intros content].
  apply (respects_bind _ quietly_trans); [unfold write; repeat quiet_step | intros _].
  apply (respects_bind _ quietly_trans); [apply quiet_runPageSpecificScripts | intros _].
  apply (respects_bind _ quietly_trans); [apply quiet_updateActiveLink | intros _].
  apply (respects_bind _ quietly_trans); [|intros _; unfold write; repeat quiet_step].
  intros w. split; [exists [ScrollTo 0 0]|]; auto.
Qed.

Lemma quiet_show_not_found (r : ref) (error : exn) : quiet (show_not_found r error).
Proof. unfold show_not_found, console_error, write. repeat quiet_step. Qed.

(** [handlePageLoad] adds its own call to the trace, then minor effects;
    it leaves the history and the location alone. *)
Lemma handlePageLoad_trace (path : string) (w : world) :
  (exists t, trace (snd (handlePageLoad resolve net path w))
             = trace w ++ Call "handlePageLoad" path :: t
             /\ forallb minor t = true)
  /\ history (snd (handlePageLoad resolve net path w)) = history w
  /\ location (snd (handlePageLoad resolve net path w)) = location w.
Proof.
  assert (Hrest : quiet (mainContent <- get_by_id "main-content" ;;
                         match mainContent with
                         | None => console_error
                                     "Main content container #main-content not found!" None
                         | Some mainContent =>
                             write mainContent (with_classes (class_add "page-fade-out")) ;;
                             try_catch (load_page resolve net mainContent path)
                                       (show_not_found mainContent)
                         end)).
  { apply (respects_bind _ quietly_trans);
      [unfold get_by_id; repeat quiet_step | intros [r|]].
    - apply (respects_bind _ quietly_trans); [unfold write; repeat quiet_step | intros _].
      apply (respects_try_catch _ quietly_trans);
        [apply quiet_load_page | intros e; apply quiet_show_not_found].
    - unfold console_error. repeat quiet_step. }
  destruct (Hrest (emit (Call "handlePageLoad" path) w)) as ((t & E & Ht) & Hh & Hl).
  unfold handlePageLoad, bind at 1, call, modify.
  split; [|split; assumption].
  exists t. split; [|exact Ht].
  rewrite E. simpl. now rewrite <- app_assoc.
Qed.

End TraceFacts.

(** ** The router *)

Section RouterProperties.

Variable resolve : url -> string -> option url.
Variable net : url -> string -> fetch_result.

(** The click listener, once the link is known. *)
Lemma on_click_link (e : click_event) (link : element) (w : world) :
  clicked_link e w = Some link ->
  on_click resolve net e w =
  let here := location w in
  if String.eqb (link_target link) "_blank"
     || negb (String.eqb (link_protocol resolve here link) (protocol here))
     || negb (String.eqb (link_host resolve here link) (host here))
     || negb (String.eqb (link_hash resolve here link) "")
        && String.eqb (link_pathname resolve here link) (pathname here)
  then (Returned tt, w)
  else
    let newPath := (link_pathname resolve here link ++ link_search resolve here link)%string in
    if String.eqb newPath (pathname here ++ search here)%string
    then (Returned tt, emit PreventDefault w)
    else (pushState resolve (StateObj (Some newPath)) newPath ;;
          handlePageLoad resolve net newPath) (emit PreventDefault w).
Proof.
  intros H. unfold on_click. unfold bind at 1, gets at 1. rewrite H.
  unfold bind at 1, gets at 1. cbv zeta.
  match goal with |- context [if ?c then _ else _] => destruct c end;
    [reflexivity|].
  unfold bind at 1, modify.
  match goal with |- context [String.eqb ?a ?b] =>
    destruct (String.eqb a b) end; reflexivity.
Qed.

(** C7. A click on a same-page anchor link (the link's pathname is the
    current pathname and its fragment is not empty) is not intercepted: the
    listener returns with the browser state as it was, so [preventDefault]
    is not called, no history entry is pushed and [handlePageLoad] is not
    invoked. *)
Theorem same_page_anchor_not_intercepted (e : click_event) (link : element) (w : world) :
  clicked_link e w = Some link ->
  link_hash resolve (location w) link <> "" ->
  link_pathname resolve (location w) link = pathname (location w) ->
  on_click resolve net e w = (Returned tt, w).
Proof.
  intros Hlink Hhash Hpath.
  rewrite (on_click_link e link w Hlink). cbv zeta.
  apply String.eqb_neq in Hhash. apply String.eqb_eq in Hpath.
  rewrite Hhash, Hpath. simpl. now rewrite !orb_true_r.
Qed.

(** An intercepted click. *)
Lemma on_click_in_site (e : click_event) (link : element) (w : world) :
  clicked_link e w = Some link ->
  link_target link <> "_blank" ->
  link_protocol resolve (location w) link = protocol (location w) ->
  link_host resolve (location w) link = host (location w) ->
  ~ (link_hash resolve (location w) link <> ""
     /\ link_pathname resolve (location w) link = pathname (location w)) ->
  on_click resolve net e w =
  let here := location w in
  let newPath := (link_pathname resolve here link ++ link_search resolve here link)%string in
  if String.eqb newPath (pathname here ++ search here)%string
  then (Returned tt, emit PreventDefault w)
  else (pushState resolve (StateObj (Some newPath)) newPath ;;
        handlePageLoad resolve net newPath) (emit PreventDefault w).
Proof.
  intros Hlink Htarget Hproto Hhost Hanchor.
  rewrite (on_click_link e link w Hlink). cbv zeta.
  apply String.eqb_neq in Htarget. apply String.eqb_eq in Hproto, Hhost.
  rewrite Htarget, Hproto, Hhost. simpl.
  destruct (String.eqb_spec (link_hash resolve (location w) link) "") as [_|Hh];
    [reflexivity|].
  destruct (String.eqb_spec (link_pathname resolve (location w) link)
                            (pathname (location w))) as [Hp|_];
    [|reflexivity].
  exfalso. apply Hanchor. split; assumption.
Qed.

(** C10. The click listener reads no modifier key.  Two clicks on the same
    target that differ only in their [ctrlKey], [metaKey], [shiftKey] and
    [altKey] flags end in the same outcome and the same browser state; on
    an in-site link that is not a same-page anchor, both runs call
    [preventDefault] and then, when the link's path+query differs from the
    current one, make the same [pushState] call and run the same load. *)
Theorem click_ignores_modifier_keys (e1 e2 : click_event) (w : world) :
  target e1 = target e2 ->
  on_click resolve net e1 w = on_click resolve net e2 w
  /\ forall link,
       clicked_link e1 w = Some link ->
       link_target link <> "_blank" ->
       link_protocol resolve (location w) link = protocol (location w) ->
       link_host resolve (location w) link = host (location w) ->
       ~ (link_hash resolve (location w) link <> ""
          /\ link_pathname resolve (location w) link = pathname (location w)) ->
       let here := location w in
       let newPath := (link_pathname resolve here link
                       ++ link_search resolve here link)%string in
       let intercepted :=
         if String.eqb newPath (pathname here ++ search here)%string
         then (Returned tt, emit PreventDefault w)
         else (pushState resolve (StateObj (Some newPath)) newPath ;;
               handlePageLoad resolve net newPath) (emit PreventDefault w) in
       on_click resolve net e1 w = intercepted
       /\ on_click resolve net e2 w = intercepted.
Proof.
  intros Htarget.
  assert (Hsame : on_click resolve net e1 w = on_click resolve net e2 w).
  { unfold on_click, clicked_link. now rewrite Htarget. }
  split; [exact Hsame|].
  intros link Hlink Ht Hp Hh Ha here newPath intercepted.
  rewrite <- Hsame.
  split; exact (on_click_in_site e1 link w Hlink Ht Hp Hh Ha).
Qed.

(** C5. A [popstate] event whose state is [{path: p}], with [p] a
    non-empty string, does exactly what [handlePageLoad(p)] does: same
    outcome, same document (so the same content container), same rest of
    the browser state.  An event whose state is [null], has no [path], or
    has the empty [path], changes nothing: no load and no DOM mutation. *)
Theorem popstate_replays_load (state : history_state) (w : world) :
  on_popstate resolve net state w =
  match state with
  | StateObj (Some p) =>
      if String.eqb p "" then (Returned tt, w) else handlePageLoad resolve net p w
  | StateObj None => (Returned tt, w)
  | StateNull => (Returned tt, w)
  end.
Proof.
  destruct state as [|[p|]]; try reflexivity.
  simpl. destruct (String.eqb p ""); reflexivity.
Qed.

End RouterProperties.

(** ** A load that succeeds *)

Lemma bind_returned {A B} (m : M A) (k : A -> M B) (w : world) (a : A) (w' : world) :
  m w = (Returned a, w') -> bind m k w = k a w'.
Proof. intros H. unfold bind. now rewrite H. Qed.

Lemma bind_thrown_run {A B} (m : M A) (k : A -> M B) (w : world) (e : exn) (w' : world) :
  m w = (Thrown e, w') -> bind m k w = (Thrown e, w').
Proof. intros H. unfold bind. now rewrite H. Qed.

(** A method that logs its call and then runs quietly. *)
Lemma call_then_trace {A} (method argument : string) (m : M A) :
  quiet m ->
  forall w, exists t,
    trace (snd ((call method argument ;; m) w)) = trace w ++ Call method argument :: t
    /\ forallb minor t = true.
Proof.
  intros Hm w.
  destruct (Hm (emit (Call method argument) w)) as ((t & E & Ht) & _).
  exists t. split; [|exact Ht].
  unfold bind, call, modify. rewrite E. simpl. now rewrite <- app_assoc.
Qed.

Lemma runPageSpecificScripts_trace (w : world) :
  exists t, trace (snd (runPageSpecificScripts w))
            = trace w ++ Call "runPageSpecificScripts" "" :: t
            /\ forallb minor t = true.
Proof. apply call_then_trace. apply quiet_scripts. Qed.

Section SuccessfulLoad.

Variable resolve : url -> string -> option url.
Variable net : url -> string -> fetch_result.

Lemma updateActiveLink_trace (w : world) :
  exists t, trace (snd (updateActiveLink resolve w))
            = trace w ++ Call "updateActiveLink" "" :: t
            /\ forallb minor t = true.
Proof. unfold updateActiveLink. apply call_then_trace. repeat quiet_step. Qed.

(** The [try] block, once the page is fetched and its container found. *)
Lemma load_page_fetched (path : string) (p : node_path) (doc : html_document)
    (content : list node) (w : world) :
  getElementById "main-content" (document w) = Some p ->
  net (location w) path = Response true (Some doc) ->
  container_markup doc = Some content ->
  load_page resolve net {| at_path := p; by_id := "main-content" |} path w =
  (runPageSpecificScripts ;;
   updateActiveLink resolve ;;
   modify (scroll_to 0 0) ;;
   write {| at_path := p; by_id := "main-content" |}
         (with_classes (class_remove "page-fade-out")))
    (set_document (update_at (with_children content) p (document w))
       (set_title (doc_title doc) (emit (Fetch path) w))).
Proof.
  intros H Hnet Hdoc. unfold container_markup, innerHTML in Hdoc.
  destruct (getElementById "main-content" (doc_nodes doc)) as [q|] eqn:Hq;
    [|discriminate].
  destruct (node_at (doc_nodes doc) q) as [n|] eqn:Hn; [|discriminate].
  injection Hdoc as <-.
  unfold load_page.
  rewrite (bind_returned (fetch net path) _ w (true, Some doc) (emit (Fetch path) w))
    by (unfold fetch; now rewrite Hnet).
  simpl negb. cbv iota.
  rewrite (bind_returned (ret tt) _ _ tt _ eq_refl).
  simpl snd.
  rewrite (bind_returned (ret doc) _ _ doc _ eq_refl).
  rewrite (bind_returned (modify (set_title (doc_title doc))) _ _ tt _ eq_refl).
  rewrite Hq, Hn.
  rewrite (bind_returned (ret (children n)) _ _ (children n) _ eq_refl).
  erewrite bind_returned; [|apply write_found; exact H].
  reflexivity.
Qed.

(** A load whose fetch, scripts and active-link update all succeed. *)
Lemma handlePageLoad_succeeds (path : string) (p : node_path) (doc : html_document)
    (content : list node) (w ws wl : world) :
  getElementById "main-content" (document w) = Some p ->
  net (location w) path = Response true (Some doc) ->
  container_markup doc = Some content ->
  runPageSpecificScripts (swapped_in path p doc content w) = (Returned tt, ws) ->
  updateActiveLink resolve ws = (Returned tt, wl) ->
  handlePageLoad resolve net path w = (Returned tt, settled p wl).
Proof.
  intros H Hnet Hdoc Hscripts Hlinks.
  rewrite (handlePageLoad_found resolve net path p w H).
  unfold try_catch.
  set (w1 := set_document
               (update_at (with_classes (class_add "page-fade-out")) p (document w))
               (emit (Call "handlePageLoad" path) w)).
  assert (H1 : getElementById "main-content" (document w1) = Some p).
  { apply getElementById_update_at; [apply keeps_id_with_classes | exact H]. }
  rewrite (load_page_fetched path p doc content w1 H1 Hnet Hdoc).
  unfold w1. simpl document. rewrite update_at_twice.
  change (set_document _ (set_title _ (emit _ (set_document _ (emit _ w)))))
    with (swapped_in path p doc content w).
  rewrite (bind_returned _ _ _ tt ws Hscripts).
  rewrite (bind_returned _ _ _ tt wl Hlinks).
  rewrite (bind_returned (modify (scroll_to 0 0)) _ wl tt (scroll_to 0 0 wl) eq_refl).
  unfold settled, write, modify. reflexivity.
Qed.

(** C3, as the code has it. When the fetch of [path] succeeds with a
    document that has a [#main-content] element, and the page-specific
    scripts and the active-link update then run without throwing,
    [handlePageLoad(path)] returns having, in this order: set the title to
    the fetched title and put the fetched container's markup in the
    container (state [swapped_in]), run the page-specific scripts on that
    state, updated the active link, and scrolled to the top. *)
Theorem successful_load_in_order (path : string) (p : node_path) (doc : html_document)
    (content : list node) (w ws wl : world) :
  getElementById "main-content" (document w) = Some p ->
  net (location w) path = Response true (Some doc) ->
  container_markup doc = Some content ->
  runPageSpecificScripts (swapped_in path p doc content w) = (Returned tt, ws) ->
  updateActiveLink resolve ws = (Returned tt, wl) ->
  exists w',
    handlePageLoad resolve net path w = (Returned tt, w')
    /\ w' = settled p wl
    /\ title (swapped_in path p doc content w) = doc_title doc
    /\ innerHTML (document (swapped_in path p doc content w)) p = Some content
    /\ title w' = doc_title doc
    /\ scrollX w' = 0%Z /\ scrollY w' = 0%Z
    /\ exists t1 t2,
         trace w' = trace w
                    ++ [Call "handlePageLoad" path; Fetch path]
                    ++ Call "runPageSpecificScripts" "" :: t1
                    ++ Call "updateActiveLink" "" :: t2
                    ++ [ScrollTo 0 0].
Proof.
  intros H Hnet Hdoc Hscripts Hlinks.
  exists (settled p wl).
  split; [now apply (handlePageLoad_succeeds path p doc content w ws wl)|].
  split; [reflexivity|].
  split; [reflexivity|].
  destruct (querySelector_sound _ _ _ H) as (e & ks & Hn & _).
  split.
  { unfold innerHTML, swapped_in. rewrite document_set_document, node_at_update_at, Hn.
    reflexivity. }
  pose proof (in_place_runPageSpecificScripts (swapped_in path p doc content w)) as Hs.
  pose proof (in_place_updateActiveLink resolve ws) as Hl.
  rewrite Hscripts in Hs. rewrite Hlinks in Hl.
  destruct Hs as (Hs & _). destruct Hl as (Hl & _). simpl snd in Hs, Hl.
  assert (Hsettled : title (settled p wl) = title wl
                     /\ scrollX (settled p wl) = 0%Z /\ scrollY (settled p wl) = 0%Z
                     /\ trace (settled p wl) = trace wl ++ [ScrollTo 0 0]).
  { unfold settled, write, modify. simpl snd.
    destruct (in_document _ _); repeat split. }
  destruct Hsettled as (Ht & Hx & Hy & Htr).
  split; [rewrite Ht, Hl, Hs; reflexivity|].
  split; [exact Hx|]. split; [exact Hy|].
  destruct (runPageSpecificScripts_trace (swapped_in path p doc content w))
    as (t1 & E1 & _).
  destruct (updateActiveLink_trace ws) as (t2 & E2 & _).
  rewrite Hscripts in E1. rewrite Hlinks in E2. simpl snd in E1, E2.
  exists t1, t2. rewrite Htr, E2, E1.
  unfold swapped_in. simpl trace.
  repeat (rewrite <- app_assoc; simpl). reflexivity.
Qed.

End SuccessfulLoad.

(** The successful load of [/about.html] on the sample site. *)
Lemma successful_load_in_order_witness :
  exists w',
    handlePageLoad Samples.resolve Samples.net "/about.html" Samples.home = (Returned tt, w')
    /\ title w' = "À propos"
    /\ scrollX w' = 0%Z /\ scrollY w' = 0%Z.
Proof.
  pose (doc := {| doc_title := "À propos"; doc_nodes := Samples.page Samples.about_content |}).
  pose (ws := snd (runPageSpecificScripts
                     (swapped_in "/about.html" [1%nat] doc Samples.about_content Samples.home))).
  pose (wl := snd (updateActiveLink Samples.resolve ws)).
  destruct (successful_load_in_order Samples.resolve Samples.net "/about.html" [1%nat]
              doc Samples.about_content Samples.home ws wl)
    as (w' & Hrun & _ & _ & _ & Htitle & Hx & Hy & _);
    try (vm_compute; reflexivity).
  exists w'. repeat split; assumption.
Defined.

(** C3 as stated fails: [/inscription.html] is fetched with status ok and
    has a [#main-content] element, but [initFormHandlers] throws on its
    missing [#close-modal-btn]; the [catch] block then replaces the fetched
    markup by the not-found view, and the scroll position is not reset. *)
Lemma successful_fetch_can_end_in_not_found :
  exists doc content w',
    Samples.net (location Samples.home) "/inscription.html" = Response true (Some doc)
    /\ container_markup doc = Some content
    /\ handlePageLoad Samples.resolve Samples.net "/inscription.html" Samples.home
       = (Returned tt, w')
    /\ innerHTML (document w') [1%nat] = Some fallback_markup
    /\ innerHTML (document w') [1%nat] <> Some content
    /\ scrollY w' = 120%Z
    /\ scrollY w' <> 0%Z.
Proof.
  eexists. eexists. eexists.
  split; [reflexivity|].
  split; [reflexivity|].
  split; [vm_compute; reflexivity|].
  split; [reflexivity|].
  split; [discriminate|].
  split; [reflexivity | discriminate].
Qed.

(** ** What a load leaves untouched *)

Lemma is_prefix_trans (a b c : node_path) :
  is_prefix a b = true -> is_prefix b c = true -> is_prefix a c = true.
Proof.
  revert b c; induction a as [|i a IH]; intros b c Hab Hbc; [reflexivity|].
  destruct b as [|j b]; [discriminate|].
  destruct c as [|k c]; [discriminate|].
  simpl in *. apply andb_prop in Hab as [Hij Hab]. apply andb_prop in Hbc as [Hjk Hbc].
  apply Nat.eqb_eq in Hij, Hjk. subst. rewrite Nat.eqb_refl. simpl. eauto.
Qed.

Lemma is_prefix_outside (p r q : node_path) :
  is_prefix p r = true -> is_prefix p q = false -> is_prefix r q = false.
Proof.
  intros Hpr Hpq. destruct (is_prefix r q) eqn:Hrq; [|reflexivity].
  rewrite (is_prefix_trans p r q Hpr Hrq) in Hpq. discriminate.
Qed.

Lemma framed_refl (p : node_path) (w : world) : framed p w w.
Proof. intros q _. reflexivity. Qed.

Lemma framed_trans (p : node_path) (a b c : world) :
  framed p a b -> framed p b c -> framed p a c.
Proof. intros Hab Hbc q Hq. now rewrite Hbc, Hab. Qed.

Lemma framed_same_document (p : node_path) (w w' : world) :
  document w' = document w -> framed p w w'.
Proof. intros H q _. now rewrite H. Qed.

Lemma framed_update_at (p r : node_path) (f : node -> node) (w : world) :
  is_prefix p r = true ->
  framed p w (set_document (update_at f r (document w)) w).
Proof.
  intros Hr q Hq. rewrite document_set_document.
  apply label_at_update_at. now apply (is_prefix_outside p).
Qed.

Lemma framed_write (p : node_path) (r : ref) (f : node -> node) :
  is_prefix p (at_path r) = true -> respects (framed p) (write r f).
Proof.
  intros Hr w. unfold write, modify. simpl snd.
  destruct (in_document r (document w)).
  - now apply framed_update_at.
  - apply framed_refl.
Qed.

Lemma carousel_inside_framed (p : node_path) (w w' : world) :
  framed p w w' -> carousel_inside p (document w) -> carousel_inside p (document w').
Proof.
  intros Hf Hc q e Hq Hl. apply (Hc q e Hq). now rewrite <- (Hf q Hq).
Qed.

(** With the carousel inside [p], the containers the scripts look up are
    below [p]. *)
Lemma carousel_inside_found (p : node_path) (i : string) (ns : list node) (r : node_path) :
  carousel_inside p ns ->
  i = "testimonial-carousel" \/ i = "testimonial-dots" ->
  getElementById i ns = Some r ->
  is_prefix p r = true.
Proof.
  intros Hc Hi Hr.
  destruct (querySelector_sound _ _ _ Hr) as (e & ks & Hn & He).
  apply String.eqb_eq in He.
  destruct (is_prefix p r) eqn:Hp; [reflexivity|].
  destruct (Hc r e Hp) as (H1 & H2).
  { unfold label_at. now rewrite Hn. }
  destruct Hi; congruence.
Qed.

Ltac framed_step p :=
  first
    [ lazymatch goal with
      | |- respects (framed _) (write _ _) => apply framed_write; assumption
      end
    | respects_step (framed_refl p) (framed_trans p)
    | match goal with
      | |- framed _ _ (if ?c then _ else _) => destruct c
      end
    | solve [apply framed_same_document; reflexivity] ].

Lemma framed_render_carousel (p : node_path) (c : ref) (d : option ref) :
  is_prefix p (at_path c) = true ->
  (forall r, d = Some r -> is_prefix p (at_path r) = true) ->
  respects (framed p) (render_carousel c d).
Proof.
  intros Hc Hd. unfold render_carousel.
  destruct d as [d|]; [specialize (Hd d eq_refl)|clear Hd];
    unfold when_some, addEventListener, addEventListener_child, get_by_id;
    repeat framed_step p.
Qed.

Lemma framed_initTestimonialCarousel (p : node_path) (w : world) :
  carousel_inside p (document w) ->
  framed p w (snd (initTestimonialCarousel w)).
Proof.
  intros Hin. unfold initTestimonialCarousel, get_by_id.
  unfold bind at 1, gets at 1.
  destruct (getElementById "testimonial-carousel" (document w)) as [pc|] eqn:Hpc;
    simpl option_map; cbv iota; [|apply framed_refl].
  unfold bind at 1, gets at 1.
  apply framed_render_carousel.
  - simpl. apply (carousel_inside_found p _ _ _ Hin (or_introl eq_refl) Hpc).
  - intros r Hr.
    destruct (getElementById "testimonial-dots" (document w)) as [pd|] eqn:Hpd;
      [|discriminate].
    injection Hr as <-. simpl.
    apply (carousel_inside_found p _ _ _ Hin (or_intror eq_refl) Hpd).
Qed.

Lemma same_document_refl (w : world) : same_document w w.
Proof. reflexivity. Qed.

Lemma same_document_trans (a b c : world) :
  same_document a b -> same_document b c -> same_document a c.
Proof. unfold same_document. congruence. Qed.

Ltac same_document_step :=
  first
    [ respects_step same_document_refl same_document_trans
    | match goal with
      | |- same_document _ (if ?c then _ else _) => destruct c
      end
    | solve [reflexivity] ].

Lemma same_document_initFadeInObserver : respects same_document initFadeInObserver.
Proof. unfold_scripts. repeat same_document_step. Qed.

Lemma same_document_initFormHandlers : respects same_document initFormHandlers.
Proof. unfold_scripts. repeat same_document_step. Qed.

Lemma same_document_initFaqAccordion : respects same_document initFaqAccordion.
Proof. unfold_scripts. repeat same_document_step. Qed.

Lemma same_document_initStatsCounter : respects same_document initStatsCounter.
Proof. unfold_scripts. repeat same_document_step. Qed.

Lemma framed_after_same {A B} (p : node_path) (m : M A) (k : A -> M B) :
  respects same_document m ->
  (forall a w, carousel_inside p (document w) -> framed p w (snd (k a w))) ->
  forall w, carousel_inside p (document w) -> framed p w (snd (bind m k w)).
Proof.
  intros Hm Hk w Hin. unfold bind. specialize (Hm w).
  destruct (m w) as [[a|e] w1]; simpl in Hm; unfold same_document in Hm.
  - rewrite <- Hm in Hin. intros q Hq. rewrite (Hk a w1 Hin q Hq). now rewrite Hm.
  - now apply framed_same_document.
Qed.

Lemma framed_before_same {A B} (p : node_path) (m : M A) (k : A -> M B) :
  (forall w, carousel_inside p (document w) -> framed p w (snd (m w))) ->
  (forall a, respects same_document (k a)) ->
  forall w, carousel_inside p (document w) -> framed p w (snd (bind m k w)).
Proof.
  intros Hm Hk w Hin. unfold bind. specialize (Hm w Hin).
  destruct (m w) as [[a|e] w1]; simpl in Hm; [|exact Hm].
  specialize (Hk a w1). unfold same_document in Hk.
  intros q Hq. unfold label_at. rewrite Hk. now apply Hm.
Qed.

(** The page-specific scripts change nothing outside [p] when the carousel
    is inside [p]. *)
Lemma framed_runPageSpecificScripts (p : node_path) (w : world) :
  carousel_inside p (document w) ->
  framed p w (snd (runPageSpecificScripts w)).
Proof.
  revert w. unfold runPageSpecificScripts.
  apply framed_after_same; [unfold call; repeat same_document_step | intros _].
  apply framed_after_same; [apply same_document_initFadeInObserver | intros _].
  apply framed_before_same; [apply framed_initTestimonialCarousel | intros _].
  apply (respects_bind _ same_document_trans);
    [apply same_document_initFormHandlers | intros _].
  apply (respects_bind _ same_document_trans);
    [apply same_document_initFaqAccordion | intros _].
  apply same_document_initStatsCounter.
Qed.

(** An update that keeps the children of its target shows at the target only. *)
Lemma node_at_update_at_below (f : node -> node) (p : node_path) :
  (forall n, children (f n) = children n) ->
  forall q ns, is_prefix p q = true -> q <> p ->
               node_at (update_at f p ns) q = node_at ns q.
Proof.
  intros Hf. induction p as [|i p IH]; intros q ns Hq Hne; [reflexivity|].
  destruct q as [|j q]; [discriminate|].
  simpl in Hq. apply andb_prop in Hq as [Hij Hq]. apply Nat.eqb_eq in Hij. subst j.
  assert (Hne' : q <> p) by congruence.
  rewrite update_at_cons, !node_at_cons, nth_error_alter_nth.
  destruct (nth_error ns i) as [n|]; [|reflexivity]. simpl option_map.
  destruct q as [|l q].
  { destruct p; [congruence | discriminate]. }
  destruct p as [|k p].
  - now rewrite Hf.
  - destruct n as [s|e ks]; [reflexivity|]. simpl below. simpl children.
    now apply IH.
Qed.

Lemma without_active_with_classes (g : list string -> list string) (n : node) :
  (forall l, class_remove "nav-link-active" (g l) = class_remove "nav-link-active" l) ->
  without_active (label (with_classes g n)) = without_active (label n).
Proof.
  intros Hg. destruct n as [s|e ks]; [reflexivity|]. simpl. now rewrite Hg.
Qed.

Lemma class_remove_add (c : string) (l : list string) :
  class_remove c (class_add c l) = class_remove c l.
Proof.
  unfold class_add. destruct (contains c l); [reflexivity|].
  unfold class_remove. rewrite filter_app. simpl.
  rewrite String.eqb_refl. simpl. apply app_nil_r.
Qed.

Lemma class_remove_remove (c : string) (l : list string) :
  class_remove c (class_remove c l) = class_remove c l.
Proof.
  unfold class_remove. induction l as [|x l IH]; [reflexivity|].
  simpl. destruct (String.eqb c x) eqn:E; simpl; [exact IH|].
  rewrite E. simpl. now rewrite IH.
Qed.

Lemma but_active_refl (w : world) : but_active w w.
Proof. intros q. reflexivity. Qed.

Lemma but_active_trans (a b c : world) :
  but_active a b -> but_active b c -> but_active a c.
Proof. intros Hab Hbc q. now rewrite Hbc, Hab. Qed.

Lemma but_active_update (g : list string -> list string) (p : node_path) (w : world) :
  (forall l, class_remove "nav-link-active" (g l) = class_remove "nav-link-active" l) ->
  but_active w (set_document (update_at (with_classes g) p (document w)) w).
Proof.
  intros Hg q. rewrite document_set_document.
  destruct (is_prefix p q) eqn:Hq.
  - destruct (list_eq_dec Nat.eq_dec q p) as [->|Hne].
    + unfold label_at. rewrite node_at_update_at.
      destruct (node_at (document w) p) as [n|]; [|reflexivity].
      simpl. f_equal. now apply without_active_with_classes.
    + unfold label_at. rewrite node_at_update_at_below; try assumption.
      * reflexivity.
      * intros [s|e ks]; reflexivity.
  - now rewrite label_at_update_at.
Qed.

Lemma only_at_refl (l : list node_path) (w : world) : only_at l w w.
Proof. intros q _. reflexivity. Qed.

Lemma only_at_trans (l : list node_path) (a b c : world) :
  only_at l a b -> only_at l b c -> only_at l a c.
Proof. intros Hab Hbc q Hq. now rewrite Hbc, Hab. Qed.

Lemma only_at_update (g : list string -> list string) (l : list node_path)
    (p : node_path) (w : world) :
  In p l ->
  only_at l w (set_document (update_at (with_classes g) p (document w)) w).
Proof.
  intros Hp q Hq. rewrite document_set_document.
  destruct (is_prefix p q) eqn:Hpq.
  - unfold label_at. rewrite node_at_update_at_below; try assumption.
    + reflexivity.
    + intros [s|e ks]; reflexivity.
    + intros ->. now apply Hq.
  - now apply label_at_update_at.
Qed.

Ltac only_at_step l :=
  first
    [ respects_step (only_at_refl l) (only_at_trans l)
    | match goal with
      | |- only_at _ _ (if ?c then _ else _) => destruct c
      end
    | solve [apply only_at_update; assumption]
    | solve [intros ? ?; reflexivity] ].

Ltac but_active_step :=
  first
    [ respects_step but_active_refl but_active_trans
    | match goal with
      | |- but_active _ (if ?c then _ else _) => destruct c
      end
    | solve [apply but_active_update; intros ?; apply class_remove_add]
    | solve [apply but_active_update; intros ?; apply class_remove_remove]
    | solve [intros ?; reflexivity] ].

Section FrameFacts.

Variable resolve : url -> string -> option url.
Variable net : url -> string -> fetch_result.

(** [updateActiveLink] only adds and removes the class [nav-link-active]. *)
Lemma but_active_updateActiveLink : respects but_active (updateActiveLink resolve).
Proof. unfold updateActiveLink, call. repeat but_active_step. Qed.

(** [updateActiveLink] writes only to the links its selector finds. *)
Lemma only_at_updateActiveLink (w : world) :
  only_at (nav_links (document w)) w (snd (updateActiveLink resolve w)).
Proof.
  unfold updateActiveLink.
  rewrite (bind_returned (call "updateActiveLink" "") _ w tt
             (emit (Call "updateActiveLink" "") w) eq_refl).
  rewrite (bind_returned (gets (fun w => pathname (location w))) _
             (emit (Call "updateActiveLink" "") w) (pathname (location w)) _ eq_refl).
  rewrite (bind_returned (gets (fun w => nav_links (document w))) _
             (emit (Call "updateActiveLink" "") w) (nav_links (document w)) _ eq_refl).
  apply (only_at_trans _ w (emit (Call "updateActiveLink" "") w));
    [intros q _; reflexivity|].
  apply (respects_for_each_in _ (only_at_refl _) (only_at_trans _)).
  intros link Hlink. repeat only_at_step (nav_links (document w)).
Qed.

(** C4, as the code has it. A load that succeeds, on a document whose
    carousel and dots containers (if any) are inside the container, leaves
    every node outside [#main-content] in place with its tag, id,
    attributes and text, and with its classes except [nav-link-active];
    that class changes only on the links that ['header nav a, footer a']
    selects when [updateActiveLink] runs, and every other node outside the
    container keeps all its classes.  The history and the location are
    untouched. *)
Theorem successful_load_keeps_shell (path : string) (p : node_path)
    (doc : html_document) (content : list node) (w ws wl : world) :
  getElementById "main-content" (document w) = Some p ->
  net (location w) path = Response true (Some doc) ->
  container_markup doc = Some content ->
  runPageSpecificScripts (swapped_in path p doc content w) = (Returned tt, ws) ->
  updateActiveLink resolve ws = (Returned tt, wl) ->
  carousel_inside p (document w) ->
  exists w',
    handlePageLoad resolve net path w = (Returned tt, w')
    /\ (forall q, is_prefix p q = false ->
                   option_map without_active (label_at (document w') q)
                   = option_map without_active (label_at (document w) q))
    /\ (forall q, is_prefix p q = false ->
                   ~ In q (nav_links (document ws)) ->
                   label_at (document w') q = label_at (document w) q)
    /\ history w' = history w
    /\ location w' = location w.
Proof.
  intros H Hnet Hdoc Hscripts Hlinks Hin.
  pose proof (handlePageLoad_succeeds resolve net path p doc content w ws wl
                H Hnet Hdoc Hscripts Hlinks) as Hrun.
  exists (settled p wl). split; [exact Hrun|].
  assert (F1 : framed p w (swapped_in path p doc content w)).
  { intros q Hq. unfold swapped_in. rewrite document_set_document.
    now apply label_at_update_at. }
  assert (F2 : framed p (swapped_in path p doc content w) ws).
  { pose proof (framed_runPageSpecificScripts p _
                  (carousel_inside_framed p _ _ F1 Hin)) as F.
    now rewrite Hscripts in F. }
  assert (F3 : but_active ws wl).
  { pose proof (but_active_updateActiveLink ws) as F. now rewrite Hlinks in F. }
  assert (F3' : only_at (nav_links (document ws)) ws wl).
  { pose proof (only_at_updateActiveLink ws) as F. now rewrite Hlinks in F. }
  assert (F4 : framed p wl (settled p wl)).
  { apply (framed_trans p _ (scroll_to 0 0 wl)).
    - now apply framed_same_document.
    - apply framed_write. simpl. apply is_prefix_refl. }
  split; [|split].
  - intros q Hq. rewrite (F4 q Hq), (F3 q), (F2 q Hq), (F1 q Hq). reflexivity.
  - intros q Hq Hnav. rewrite (F4 q Hq), (F3' q Hnav), (F2 q Hq), (F1 q Hq).
    reflexivity.
  - destruct (handlePageLoad_trace resolve net path w) as (_ & Hh & Hl).
    rewrite Hrun in Hh, Hl. split; assumption.
Qed.

End FrameFacts.

(** The load of [/about.html] after the router has pushed it. *)
Lemma successful_load_keeps_shell_witness :
  exists w',
    handlePageLoad Samples.resolve Samples.net "/about.html" Samples.arriving
    = (Returned tt, w')
    /\ option_map without_active (label_at (document w') [0; 0; 0; 0]%nat)
       = option_map without_active (label_at (document Samples.arriving) [0; 0; 0; 0]%nat)
    /\ history w' = history Samples.arriving.
Proof.
  pose (doc := {| doc_title := "À propos"; doc_nodes := Samples.page Samples.about_content |}).
  pose (ws := snd (runPageSpecificScripts
                     (swapped_in "/about.html" [1%nat] doc Samples.about_content
                                 Samples.arriving))).
  pose (wl := snd (updateActiveLink Samples.resolve ws)).
  assert (Hin : carousel_inside [1%nat] (document Samples.arriving)).
  { apply carousel_inside_absent; reflexivity. }
  destruct (successful_load_keeps_shell Samples.resolve Samples.net "/about.html" [1%nat]
              doc Samples.about_content Samples.arriving ws wl)
    as (w' & Hrun & Hframe & _ & Hhist & _);
    try (vm_compute; reflexivity); try exact Hin.
  exists w'. split; [exact Hrun|]. split; [|exact Hhist].
  apply Hframe. reflexivity.
Defined.

(** C4 as stated fails: the load of [/about.html] succeeds (title set,
    scroll reset), and in the header, outside the container, the first
    link loses the class [nav-link-active] and the second one gets it. *)
Lemma successful_load_touches_shell :
  exists w',
    handlePageLoad Samples.resolve Samples.net "/about.html" Samples.arriving
    = (Returned tt, w')
    /\ title w' = "À propos" /\ scrollY w' = 0%Z
    /\ getElementById "main-content" (document w') = Some [1%nat]
    /\ is_prefix [1%nat] [0; 0; 0; 0]%nat = false
    /\ label_at (document w') [0; 0; 0; 0]%nat
       <> label_at (document Samples.arriving) [0; 0; 0; 0]%nat
    /\ node_at (document w') [0%nat] <> node_at (document Samples.arriving) [0%nat].
Proof.
  eexists. split; [vm_compute; reflexivity|].
  repeat split; try reflexivity; discriminate.
Qed.

(** The router on the sample home page. *)

(** C1. The claim fails on a link of this site whose path starts with
    [//]: a click on the link to [https://tchiavs.example//about.html] is
    intercepted ([preventDefault] is called), and then [pushState] refuses
    the address [//about.html], which parses to the host [about.html]; the
    listener stops in the [SecurityError] and [handlePageLoad] is never
    invoked. *)
Lemma doubled_slash_click_not_loaded :
  let e := {| target := [1; 1]%nat; ctrlKey := false; metaKey := false;
              shiftKey := false; altKey := false |} in
  let link := el "a" [] [("href", "https://tchiavs.example//about.html")] in
  let w := Samples.doubled in
  clicked_link e w = Some link
  /\ link_target link <> "_blank"
  /\ link_protocol Samples.resolve (location w) link = protocol (location w)
  /\ link_host Samples.resolve (location w) link = host (location w)
  /\ link_hash Samples.resolve (location w) link = ""
  /\ (link_pathname Samples.resolve (location w) link
      ++ link_search Samples.resolve (location w) link)%string = "//about.html"
  /\ on_click Samples.resolve Samples.net e w
     = (Thrown (DOMException "SecurityError"), emit PreventDefault w)
  /\ prevented (trace (snd (on_click Samples.resolve Samples.net e w))) = 1%nat
  /\ loads (trace (snd (on_click Samples.resolve Samples.net e w))) = []
  /\ history (snd (on_click Samples.resolve Samples.net e w)) = history w.
Proof.
  intros e link w.
  split; [reflexivity|]. split; [discriminate|].
  repeat (split; [vm_compute; reflexivity|]).
  vm_compute. reflexivity.
Qed.

Lemma same_page_anchor_not_intercepted_witness :
  on_click Samples.resolve Samples.net
    {| target := [1; 2]%nat; ctrlKey := false; metaKey := false;
       shiftKey := false; altKey := false |} Samples.home
  = (Returned tt, Samples.home).
Proof.
  apply (same_page_anchor_not_intercepted Samples.resolve Samples.net _
           (el "a" [] [("href", "/index.html#top")]) Samples.home).
  - reflexivity.
  - discriminate.
  - reflexivity.
Defined.

Lemma click_ignores_modifier_keys_witness :
  let e1 := {| target := [0; 0; 0; 1]%nat; ctrlKey := true; metaKey := false;
               shiftKey := true; altKey := false |} in
  let e2 := {| target := [0; 0; 0; 1]%nat; ctrlKey := false; metaKey := false;
               shiftKey := false; altKey := false |} in
  let link := el "a" [] [("href", "/about.html")] in
  let w := Samples.home in
  target e1 = target e2
  /\ clicked_link e1 w = Some link
  /\ on_click Samples.resolve Samples.net e1 w = on_click Samples.resolve Samples.net e2 w
  /\ (let here := location w in
      let newPath := (link_pathname Samples.resolve here link
                      ++ link_search Samples.resolve here link)%string in
      let intercepted :=
        if String.eqb newPath (pathname here ++ search here)%string
        then (Returned tt, emit PreventDefault w)
        else (pushState Samples.resolve (StateObj (Some newPath)) newPath ;;
              handlePageLoad Samples.resolve Samples.net newPath)
               (emit PreventDefault w) in
      on_click Samples.resolve Samples.net e1 w = intercepted
      /\ on_click Samples.resolve Samples.net e2 w = intercepted).
Proof.
  intros e1 e2 link w.
  destruct (click_ignores_modifier_keys Samples.resolve Samples.net e1 e2 w eq_refl)
    as (Hsame & Hsite).
  split; [reflexivity|]. split; [reflexivity|]. split; [exact Hsame|].
  apply (Hsite link).
  - reflexivity.
  - discriminate.
  - reflexivity.
  - reflexivity.
  - intros [Hhash _]. apply Hhash. reflexivity.
Defined.

(** * More properties *)

(** ** The carousel as a cycle *)

Module CarouselCycle.
Import Carousel.
Local Open Scope Z_scope.

Lemma carousel_at_init (withDots : bool) : init withDots = carousel_at withDots 0.
Proof. destruct withDots; vm_compute; reflexivity. Qed.

Lemma carousel_at_shown (withDots : bool) (i j : Z) :
  0 <= i < 4 -> 0 <= j < 4 ->
  showTestimonial j (set_index j (carousel_at withDots i)) = carousel_at withDots j.
Proof.
  intros Hi Hj.
  assert (Ei : i = 0 \/ i = 1 \/ i = 2 \/ i = 3) by lia.
  assert (Ej : j = 0 \/ j = 1 \/ j = 2 \/ j = 3) by lia.
  destruct withDots;
    destruct Ei as [-> | [-> | [-> | ->]]];
    destruct Ej as [-> | [-> | [-> | ->]]];
    vm_compute; reflexivity.
Qed.

(** Every reachable closure state is the one [showTestimonial] draws for
    its index. *)
Lemma reachable_carousel_at (withDots : bool) (l : list action) :
  exists i, 0 <= i < 4 /\ run l (init withDots) = carousel_at withDots i.
Proof.
  assert (Hstep : forall a i, 0 <= i < 4 ->
            exists j, 0 <= j < 4
                      /\ step a (carousel_at withDots i) = carousel_at withDots j).
  { intros a i Hi. destruct a as [| |k]; unfold step.
    - exists (Z.rem (i + 1) 4). split; [apply CarouselFacts.rem_in_range; lia|].
      unfold next.
      replace (currentIndex (carousel_at withDots i)) with i by reflexivity.
      replace (len (cards (carousel_at withDots i))) with 4
        by (destruct withDots; reflexivity).
      apply carousel_at_shown; [assumption | apply CarouselFacts.rem_in_range; lia].
    - exists (Z.rem (i - 1 + 4) 4). split; [apply CarouselFacts.rem_in_range; lia|].
      unfold prev.
      replace (currentIndex (carousel_at withDots i)) with i by reflexivity.
      replace (len (cards (carousel_at withDots i))) with 4
        by (destruct withDots; reflexivity).
      apply carousel_at_shown; [assumption | apply CarouselFacts.rem_in_range; lia].
    - assert (Hlen : length (dots (carousel_at withDots i))
                     = if withDots then 4%nat else 0%nat).
      { unfold carousel_at, showTestimonial. simpl dots.
        rewrite !CarouselFacts.mapi_length. destruct withDots; reflexivity. }
      rewrite Hlen.
      destruct (Nat.ltb_spec k (if withDots then 4%nat else 0%nat)) as [Hk|Hk].
      + exists (Z.of_nat k).
        assert (Hk4 : (k < 4)%nat) by (destruct withDots; lia).
        split; [lia|]. unfold dot_click. apply carousel_at_shown; lia.
      + exists i. auto. }
  revert l.
  assert (Hrun : forall l i, 0 <= i < 4 ->
            exists j, 0 <= j < 4
                      /\ run l (carousel_at withDots i) = carousel_at withDots j).
  { induction l as [|a l IH]; intros i Hi; simpl.
    - exists i. auto.
    - destruct (Hstep a i Hi) as (j & Hj & ->). now apply IH. }
  intros l. rewrite carousel_at_init. apply Hrun. lia.
Qed.

(** X1. In every state the carousel can reach, [prev] undoes [next] and
    [next] undoes [prev]: the whole closure state (index, card classes,
    dot classes) comes back. *)
Theorem prev_next_round_trip (withDots : bool) (l : list action) :
  let s := run l (init withDots) in
  prev (next s) = s /\ next (prev s) = s.
Proof.
  intros s. unfold s.
  destruct (reachable_carousel_at withDots l) as (i & Hi & ->).
  assert (Ei : i = 0 \/ i = 1 \/ i = 2 \/ i = 3) by lia.
  destruct withDots; destruct Ei as [-> | [-> | [-> | ->]]];
    split; vm_compute; reflexivity.
Qed.

(** X2. In every reachable state exactly one card carries [active], the
    one at [currentIndex]; every card carries exactly one of the five
    position classes; and when there are dots, the active dot is the one
    at [currentIndex]. *)
Theorem one_active_card (withDots : bool) (l : list action) :
  let s := run l (init withDots) in
  let i := currentIndex s in
  map (contains "active") (cards s) = map (Z.eqb i) [0; 1; 2; 3]
  /\ map position_count (cards s) = [1; 1; 1; 1]%nat
  /\ map (contains "active") (dots s)
     = (if withDots then map (Z.eqb i) [0; 1; 2; 3] else []).
Proof.
  intros s i. unfold i, s.
  destruct (reachable_carousel_at withDots l) as (j & Hj & ->).
  assert (Ej : j = 0 \/ j = 1 \/ j = 2 \/ j = 3) by lia.
  destruct withDots; destruct Ej as [-> | [-> | [-> | ->]]];
    repeat split; vm_compute; reflexivity.
Qed.

(** X3. As many [next] calls as there are cards bring the carousel back
    to the state it was in, and so do as many [prev] calls. *)
Theorem full_turn (withDots : bool) (l : list action) :
  let s := run l (init withDots) in
  next (next (next (next s))) = s /\ prev (prev (prev (prev s))) = s.
Proof.
  intros s. unfold s.
  destruct (reachable_carousel_at withDots l) as (i & Hi & ->).
  assert (Ei : i = 0 \/ i = 1 \/ i = 2 \/ i = 3) by lia.
  destruct withDots; destruct Ei as [-> | [-> | [-> | ->]]];
    split; vm_compute; reflexivity.
Qed.

(** X21. The closure state is a function of the index: whatever the
    clicks and timer ticks that led there, two runs that end on the same
    index leave the same classes on every card and every dot, so classes
    never pile up. *)
Theorem state_by_index (withDots : bool) (l l' : list action) :
  currentIndex (run l (init withDots)) = currentIndex (run l' (init withDots)) ->
  run l (init withDots) = run l' (init withDots).
Proof.
  destruct (reachable_carousel_at withDots l) as (i & Hi & ->).
  destruct (reachable_carousel_at withDots l') as (j & Hj & ->).
  intros H. change (i = j) in H. now subst j.
Qed.

End CarouselCycle.

(** ** The router and the loader in general *)

Lemma adds_refl (P : effect -> bool) (w : world) : adds P w w.
Proof. exists []. now rewrite app_nil_r. Qed.

Lemma adds_trans (P : effect -> bool) (a b c : world) :
  adds P a b -> adds P b c -> adds P a c.
Proof.
  intros (t1 & E1 & M1) (t2 & E2 & M2).
  exists (t1 ++ t2). now rewrite E2, E1, app_assoc, forallb_app, M1, M2.
Qed.

Lemma adds_emit (P : effect -> bool) (e : effect) (w : world) :
  P e = true -> adds P w (emit e w).
Proof. intros He. exists [e]. simpl. now rewrite He. Qed.

Lemma adds_silent (P : effect -> bool) (w w' : world) :
  trace w' = trace w -> adds P w w'.
Proof. intros H. exists []. now rewrite app_nil_r. Qed.

Ltac adds_step P :=
  first
    [ respects_step (adds_refl P) (adds_trans P)
    | match goal with
      | |- adds _ _ (if ?c then _ else _) => destruct c
      end
    | solve [apply adds_emit; reflexivity]
    | solve [apply adds_silent; reflexivity] ].

Lemma fetches_app (t u : list effect) : fetches (t ++ u) = fetches t ++ fetches u.
Proof.
  induction t as [|e t IH]; [reflexivity|].
  destruct e; simpl; now rewrite IH.
Qed.

Lemma not_fetch_fetches (t : list effect) :
  forallb not_fetch t = true -> fetches t = [].
Proof.
  induction t as [|e t IH]; [reflexivity|]. simpl.
  intros H. apply andb_prop in H as [He Ht].
  destruct e; simpl in *; try discriminate; auto.
Qed.

Lemma no_fetch_runPageSpecificScripts : respects (adds not_fetch) runPageSpecificScripts.
Proof.
  unfold runPageSpecificScripts. unfold_scripts. repeat adds_step not_fetch.
Qed.

(** From a run of [bind m k] that returns, the run of [m] and the run of [k]. *)
Lemma bind_returned_inv {A B} (m : M A) (k : A -> M B) (w : world) (b : B) (w' : world) :
  bind m k w = (Returned b, w') ->
  exists a w1, m w = (Returned a, w1) /\ k a w1 = (Returned b, w').
Proof.
  unfold bind. destruct (m w) as [[a|e] w1]; intros H; [eauto | discriminate].
Qed.

Lemma contains_class_remove (c : string) (l : list string) :
  contains c (class_remove c l) = false.
Proof.
  unfold contains, class_remove. induction l as [|x l IH]; [reflexivity|].
  simpl. destruct (String.eqb c x) eqn:E; simpl; [exact IH|].
  now rewrite E.
Qed.

Lemma contains_class_add (c : string) (l : list string) :
  contains c (class_add c l) = true.
Proof.
  unfold class_add. destruct (contains c l) eqn:E; [exact E|].
  unfold contains. rewrite existsb_app. simpl.
  rewrite String.eqb_refl. now rewrite orb_true_r.
Qed.

(** What a write through a reference leaves at its path. *)
Lemma write_takes_class_off (r : ref) (c : string) (w : world) :
  let w' := snd (write r (with_classes (class_remove c)) w) in
  in_document r (document w') = true ->
  contains c (classes_at (document w') (at_path r)) = false.
Proof.
  intros w'. unfold w', write, modify. simpl snd.
  destruct (in_document r (document w)) eqn:Hin.
  - intros _. rewrite document_set_document.
    unfold classes_at, element_at. rewrite node_at_update_at.
    destruct (node_at (document w) (at_path r)) as [[s|e ks]|]; try reflexivity.
    simpl. apply contains_class_remove.
  - intros H. congruence.
Qed.

Section LoaderInGeneral.

Variable resolve : url -> string -> option url.
Variable net : url -> string -> fetch_result.

Lemma no_fetch_updateActiveLink : respects (adds not_fetch) (updateActiveLink resolve).
Proof. unfold updateActiveLink, call. repeat adds_step not_fetch. Qed.

Lemma no_fetch_show_not_found (r : ref) (error : exn) :
  respects (adds not_fetch) (show_not_found r error).
Proof. unfold show_not_found, console_error, write. repeat adds_step not_fetch. Qed.

(** The [try] block fetches [path] first, and nothing afterwards. *)
Lemma load_page_fetches_once (r : ref) (path : string) (w : world) :
  exists t, trace (snd (load_page resolve net r path w)) = trace w ++ Fetch path :: t
            /\ forallb not_fetch t = true.
Proof.
  unfold load_page.
  match goal with
  | |- context [bind (fetch net path) ?k] =>
      assert (Hrest : forall response, respects (adds not_fetch) (k response))
  end.
  { intros response. cbv beta. unfold write.
    apply (respects_bind _ (adds_trans _)); [repeat adds_step not_fetch | intros _].
    apply (respects_bind _ (adds_trans _)); [repeat adds_step not_fetch | intros doc].
    apply (respects_bind _ (adds_trans _)); [repeat adds_step not_fetch | intros _].
    apply (respects_bind _ (adds_trans _)); [repeat adds_step not_fetch | intros content].
    apply (respects_bind _ (adds_trans _)); [repeat adds_step not_fetch | intros _].
    apply (respects_bind _ (adds_trans _));
      [apply no_fetch_runPageSpecificScripts | intros _].
    apply (respects_bind _ (adds_trans _)); [apply no_fetch_updateActiveLink | intros _].
    apply (respects_bind _ (adds_trans _)); [|intros _; repeat adds_step not_fetch].
    intros w0. exists [ScrollTo 0 0]. auto. }
  unfold bind at 1, fetch.
  destruct (net (location w) path) as [|ok body].
  - exists []. auto.
  - destruct (Hrest (ok, body) (emit (Fetch path) w)) as (t & E & Ht).
    exists t. split; [|exact Ht].
    cbv beta in E. rewrite E. simpl. now rewrite <- app_assoc.
Qed.

(** X4. [handlePageLoad(path)] never throws, whatever the document and the
    network answer; it leaves the history and the location alone; and it
    fetches [path] exactly once when the document has a [#main-content]
    element, and nothing otherwise. *)
Theorem handlePageLoad_fetches_once (path : string) (w : world) :
  exists w' t,
    handlePageLoad resolve net path w = (Returned tt, w')
    /\ trace w' = trace w ++ t
    /\ fetches t = (match getElementById "main-content" (document w) with
                    | Some _ => [path]
                    | None => []
                    end)
    /\ history w' = history w
    /\ location w' = location w.
Proof.
  destruct (handlePageLoad_returns resolve net path w) as (w' & Hrun).
  destruct (handlePageLoad_trace resolve net path w) as (_ & Hh & Hl).
  rewrite Hrun in Hh, Hl. simpl in Hh, Hl.
  destruct (getElementById "main-content" (document w)) as [p|] eqn:H.
  - pose proof Hrun as Hrun'.
    rewrite (handlePageLoad_found resolve net path p w H) in Hrun'.
    unfold try_catch in Hrun'.
    match type of Hrun' with
    | context [load_page _ _ ?r _ ?w0] =>
        destruct (load_page_fetches_once r path w0) as (t & E & Ht);
        destruct (load_page resolve net r path w0) as [[[]|error] w1] eqn:Hload
    end; simpl snd in E.
    + injection Hrun' as <-.
      exists w1, (Call "handlePageLoad" path :: Fetch path :: t).
      split; [exact Hrun|]. split; [rewrite E; simpl; now rewrite <- app_assoc|].
      split; [simpl; now rewrite (not_fetch_fetches t Ht) | auto].
    + destruct (no_fetch_show_not_found {| at_path := p; by_id := "main-content" |}
                  error w1) as (t2 & E2 & Ht2).
      rewrite Hrun' in E2. simpl snd in E2.
      exists w', (Call "handlePageLoad" path :: Fetch path :: t ++ t2).
      split; [exact Hrun|].
      split; [rewrite E2, E; simpl; rewrite <- !app_assoc; reflexivity|].
      split; [|auto].
      simpl. rewrite fetches_app, (not_fetch_fetches t Ht), (not_fetch_fetches t2 Ht2).
      reflexivity.
  - rewrite (handlePageLoad_missing resolve net path w H) in Hrun.
    injection Hrun as <-.
    eexists _, [Call "handlePageLoad" path;
                ConsoleError "Main content container #main-content not found!" None].
    split; [apply handlePageLoad_missing; exact H|].
    split; [simpl; rewrite <- app_assoc; reflexivity|].
    split; [reflexivity | auto].
Qed.

(** X5. The transition class never sticks: after [handlePageLoad], however
    it went, the container it worked on does not carry [page-fade-out] as
    long as it is still in the document. *)
Theorem page_fade_out_removed (path : string) (p : node_path) (w : world) :
  getElementById "main-content" (document w) = Some p ->
  exists w',
    handlePageLoad resolve net path w = (Returned tt, w')
    /\ (in_document {| at_path := p; by_id := "main-content" |} (document w') = true ->
        contains "page-fade-out" (classes_at (document w') p) = false).
Proof.
  intros H.
  destruct (handlePageLoad_returns resolve net path w) as (w' & Hrun).
  exists w'. split; [exact Hrun|].
  rewrite (handlePageLoad_found resolve net path p w H) in Hrun.
  unfold try_catch in Hrun.
  set (r := {| at_path := p; by_id := "main-content" |}) in *.
  assert (Hlast : exists w0,
            w' = snd (write r (with_classes (class_remove "page-fade-out")) w0)).
  { match type of Hrun with
    | context [load_page _ _ r _ ?w0] =>
        destruct (load_page resolve net r path w0) as [[[]|error] w1] eqn:Hload
    end.
    - injection Hrun as <-. unfold load_page in Hload.
      repeat (apply bind_returned_inv in Hload as (? & ? & _ & Hload)).
      eexists. now rewrite Hload.
    - unfold show_not_found in Hrun.
      repeat (apply bind_returned_inv in Hrun as (? & ? & _ & Hrun)).
      eexists. now rewrite Hrun. }
  destruct Hlast as (w0 & ->).
  apply (write_takes_class_off r "page-fade-out" w0).
Qed.

End LoaderInGeneral.

Section RouterInGeneral.

Variable resolve : url -> string -> option url.
Variable net : url -> string -> fetch_result.

(** X6. A click that is not on a link, or on a link whose target is
    [_blank], whose protocol or host is not the current one, or which has
    no [href] (its protocol then reads [":"]), is left to the browser: the
    listener returns with the browser state untouched. *)
Theorem external_click_left_to_browser (e : click_event) (w : world) :
  (clicked_link e w = None
   \/ exists link,
        clicked_link e w = Some link
        /\ (link_target link = "_blank"
            \/ link_protocol resolve (location w) link <> protocol (location w)
            \/ link_host resolve (location w) link <> host (location w)
            \/ (getAttribute "href" (attributes link) = None
                /\ protocol (location w) <> ":"))) ->
  on_click resolve net e w = (Returned tt, w).
Proof.
  intros [Hnone | (link & Hlink & Hext)].
  - unfold on_click, bind, gets. now rewrite Hnone.
  - rewrite (on_click_link resolve net e link w Hlink). cbv zeta.
    assert (Hp : forall a b : string, a <> b -> negb (String.eqb a b) = true).
    { intros a b Hab. apply String.eqb_neq in Hab. now rewrite Hab. }
    destruct Hext as [Ht | [Hproto | [Hhost | [Hhref Hloc]]]].
    + apply String.eqb_eq in Ht. now rewrite Ht.
    + rewrite (Hp _ _ Hproto). now rewrite orb_true_r.
    + rewrite (Hp _ _ Hhost). now rewrite !orb_true_r.
    + assert (Hproto : link_protocol resolve (location w) link = ":").
      { unfold link_protocol, link_url. now rewrite Hhref. }
      rewrite Hproto, (Hp ":" (protocol (location w))) by congruence.
      now rewrite orb_true_r.
Qed.

(** [pushState] once the browser accepts the address. *)
Lemma pushState_accepted (st : history_state) (address : string) (there : url)
    (w : world) :
  accepted resolve (location w) address there ->
  pushState resolve st address w = (Returned tt, push_state st address there w).
Proof. intros [Hparse Hcan]. unfold pushState. now rewrite Hparse, Hcan. Qed.

(** X22. A click on an in-site link (target other than [_blank], protocol
    and host of the current location, not a same-page anchor) is
    intercepted, with or without modifier keys: [preventDefault] is called
    once; when the link's path+query differs from the current path+query
    and [pushState] accepts it, a history entry carrying that path is
    pushed and [handlePageLoad] is invoked exactly once, with the link's
    path+query; when it does not differ, nothing is pushed and nothing is
    loaded. *)
Theorem in_site_click_loads_once (e : click_event) (link : element) (there : url)
    (w : world) :
  clicked_link e w = Some link ->
  link_target link <> "_blank" ->
  link_protocol resolve (location w) link = protocol (location w) ->
  link_host resolve (location w) link = host (location w) ->
  ~ (link_hash resolve (location w) link <> ""
     /\ link_pathname resolve (location w) link = pathname (location w)) ->
  let here := location w in
  let newPath := (link_pathname resolve here link ++ link_search resolve here link)%string in
  let differs := negb (String.eqb newPath (pathname here ++ search here)%string) in
  (differs = true -> accepted resolve here newPath there) ->
  exists w' t,
    on_click resolve net e w = (Returned tt, w')
    /\ trace w' = trace w ++ t
    /\ prevented t = 1%nat
    /\ loads t = (if differs then [newPath] else [])
    /\ history w' = (if differs then (StateObj (Some newPath), newPath) :: history w
                     else history w)
    /\ location w' = (if differs then there else here)
    /\ (if differs
        then (Returned tt, w') =
             handlePageLoad resolve net newPath
               (push_state (StateObj (Some newPath)) newPath there
                           (emit PreventDefault w))
        else w' = emit PreventDefault w).
Proof.
  intros Hlink Htarget Hproto Hhost Hanchor here newPath differs Haccepted.
  rewrite (on_click_in_site resolve net e link w Hlink Htarget Hproto Hhost Hanchor).
  cbv zeta. fold here. fold newPath. unfold differs in *.
  destruct (String.eqb newPath (pathname here ++ search here)); simpl negb in *;
    cbv iota.
  - exists (emit PreventDefault w), [PreventDefault]. repeat split.
  - rewrite (bind_returned _ _ _ tt _
               (pushState_accepted _ newPath there (emit PreventDefault w)
                  (Haccepted eq_refl))).
    set (w1 := push_state (StateObj (Some newPath)) newPath there
                 (emit PreventDefault w)).
    destruct (handlePageLoad_returns resolve net newPath w1) as (w' & Hrun).
    destruct (handlePageLoad_trace resolve net newPath w1)
      as ((t & Htrace & Hminor) & Hhist & Hloc).
    rewrite Hrun in Htrace, Hhist, Hloc. simpl snd in Htrace, Hhist, Hloc.
    destruct (minor_loads t Hminor) as (Hloads & Hprevented).
    exists w', (PreventDefault :: Call "handlePageLoad" newPath :: t).
    rewrite Hrun. split; [reflexivity|].
    split; [rewrite Htrace; unfold w1; simpl; now rewrite <- app_assoc|].
    split; [simpl; now rewrite Hprevented|].
    split; [simpl; now rewrite Hloads|].
    split; [rewrite Hhist; reflexivity|].
    split; [rewrite Hloc; reflexivity | reflexivity].
Qed.

(** X23. A click on an in-site link whose path+query differs from the
    current one and is refused by [pushState] (it does not parse, or it
    parses to a URL the document cannot take, as a path that starts with
    [//] does) stops in the [SecurityError]: [preventDefault] has been
    called, and nothing is pushed and nothing is loaded. *)
Theorem refused_click_only_prevents (e : click_event) (link : element) (w : world) :
  clicked_link e w = Some link ->
  link_target link <> "_blank" ->
  link_protocol resolve (location w) link = protocol (location w) ->
  link_host resolve (location w) link = host (location w) ->
  ~ (link_hash resolve (location w) link <> ""
     /\ link_pathname resolve (location w) link = pathname (location w)) ->
  let here := location w in
  let newPath := (link_pathname resolve here link ++ link_search resolve here link)%string in
  newPath <> (pathname here ++ search here)%string ->
  refused resolve here newPath = true ->
  on_click resolve net e w
  = (Thrown (DOMException "SecurityError"), emit PreventDefault w).
Proof.
  intros Hlink Htarget Hproto Hhost Hanchor here newPath Hdiffers Hrefused.
  rewrite (on_click_in_site resolve net e link w Hlink Htarget Hproto Hhost Hanchor).
  cbv zeta. fold here. fold newPath.
  apply String.eqb_neq in Hdiffers. rewrite Hdiffers.
  apply bind_thrown_run. unfold pushState, refused in *.
  change (location (emit PreventDefault w)) with here.
  destruct (resolve here newPath) as [there|]; [|reflexivity].
  apply negb_true_iff in Hrefused. now rewrite Hrefused.
Qed.

Lemma on_popstate_cases (state : history_state) (w : world) :
  on_popstate resolve net state w =
  match state with
  | StateObj (Some p) =>
      if String.eqb p "" then (Returned tt, w) else handlePageLoad resolve net p w
  | StateObj None => (Returned tt, w)
  | StateNull => (Returned tt, w)
  end.
Proof.
  destruct state as [|[p|]]; try reflexivity.
  simpl. destruct (String.eqb p ""); reflexivity.
Qed.

Lemma can_rewrite_origin (here there : url) :
  can_rewrite here there = true ->
  protocol there = protocol here /\ host there = host here.
Proof.
  unfold can_rewrite. intros H.
  apply andb_prop in H. destruct H as [H _].
  apply andb_prop in H. destruct H as [Hp Hh].
  split; now apply String.eqb_eq.
Qed.

(** X7. The only exception a listener of the router can raise is the
    [SecurityError] of [pushState], in the click listener, which by then
    has called [preventDefault] and done nothing else.  A click pushes at
    most one history entry and keeps the protocol and the host of the
    location; a [popstate] event never throws and changes neither the
    history nor the location. *)
Theorem router_listeners_outcome (e : click_event) (state : history_state) (w : world) :
  (exists o w',
     on_click resolve net e w = (o, w')
     /\ match o with
        | Returned _ => True
        | Thrown error =>
            error = DOMException "SecurityError" /\ w' = emit PreventDefault w
        end
     /\ (history w' = history w \/ exists entry, history w' = entry :: history w)
     /\ protocol (location w') = protocol (location w)
     /\ host (location w') = host (location w))
  /\ (exists w',
        on_popstate resolve net state w = (Returned tt, w')
        /\ history w' = history w
        /\ location w' = location w).
Proof.
  split.
  - destruct (clicked_link e w) as [link|] eqn:Hlink.
    + rewrite (on_click_link resolve net e link w Hlink). cbv zeta.
      match goal with |- context [if ?c then _ else _] => destruct c end;
        [exists (Returned tt), w; auto|].
      match goal with |- context [if ?c then _ else _] => destruct c end;
        [exists (Returned tt), (emit PreventDefault w); auto|].
      unfold bind at 1, pushState.
      change (location (emit PreventDefault w)) with (location w).
      destruct (resolve (location w) _) as [there|];
        [|exists (Thrown (DOMException "SecurityError")), (emit PreventDefault w); auto].
      destruct (can_rewrite (location w) there) eqn:Hcan;
        [|exists (Thrown (DOMException "SecurityError")), (emit PreventDefault w); auto].
      destruct (can_rewrite_origin _ _ Hcan) as [Hp Hh].
      match goal with
      | |- context [handlePageLoad _ _ ?p ?w1] =>
          destruct (handlePageLoad_returns resolve net p w1) as (w' & Hrun);
          destruct (handlePageLoad_trace resolve net p w1) as (_ & Hhist & Hloc);
          rewrite Hrun in Hhist, Hloc |- *
      end.
      simpl snd in Hhist, Hloc. exists (Returned tt), w'. split; [reflexivity|].
      split; [exact I|].
      rewrite Hhist, Hloc. split; [right; eexists; reflexivity | auto].
    + exists (Returned tt), w. split; [|auto].
      unfold on_click, bind, gets. now rewrite Hlink.
  - rewrite (on_popstate_cases state w).
    destruct state as [|[p|]]; try (exists w; solve [auto]).
    destruct (String.eqb p ""); [exists w; auto|].
    destruct (handlePageLoad_returns resolve net p w) as (w' & Hrun).
    destruct (handlePageLoad_trace resolve net p w) as (_ & Hh & Hl).
    rewrite Hrun in Hh, Hl |- *. exists w'. auto.
Qed.

End RouterInGeneral.

(** ** [updateActiveLink] *)

Lemma element_at_label (ns : list node) (q : node_path) :
  element_at ns q = match label_at ns q with Some (inr e) => Some e | _ => None end.
Proof.
  unfold element_at, label_at. destruct (node_at ns q) as [[s|e ks]|]; reflexivity.
Qed.

(** Changing the classes at [p] shows in the element at [p] only. *)
Lemma element_at_with_classes (g : list string -> list string) (p q : node_path)
    (ns : list node) :
  element_at (update_at (with_classes g) p ns) q =
  if list_eq_dec Nat.eq_dec q p
  then option_map (fun e => {| tagName := tagName e; id := id e;
                               classList := g (classList e);
                               attributes := attributes e |})
                  (element_at ns q)
  else element_at ns q.
Proof.
  destruct (list_eq_dec Nat.eq_dec q p) as [->|Hne].
  - unfold element_at. rewrite node_at_update_at.
    destruct (node_at ns p) as [[s|e ks]|]; reflexivity.
  - destruct (is_prefix p q) eqn:Hpq.
    + unfold element_at. rewrite node_at_update_at_below; try assumption.
      * reflexivity.
      * intros [s|e ks]; reflexivity.
    + rewrite !element_at_label. now rewrite label_at_update_at.
Qed.

Lemma same_skeleton_refl (ns : list node) : same_skeleton ns ns.
Proof. intros q. reflexivity. Qed.

Lemma same_skeleton_with_classes (g : list string -> list string) (p : node_path)
    (ns0 ns : list node) :
  same_skeleton ns0 ns -> same_skeleton ns0 (update_at (with_classes g) p ns).
Proof.
  intros H q. rewrite element_at_with_classes, <- (H q).
  destruct (list_eq_dec Nat.eq_dec q p); [|reflexivity].
  destruct (element_at ns q); reflexivity.
Qed.

Lemma same_skeleton_link_url (resolve : url -> string -> option url) (base : url)
    (ns0 ns : list node) (q : node_path) :
  same_skeleton ns0 ns ->
  match element_at ns q, element_at ns0 q with
  | Some e, Some e0 => link_url resolve base e = link_url resolve base e0
  | None, None => True
  | _, _ => False
  end.
Proof.
  intros H. specialize (H q).
  destruct (element_at ns q) as [e|], (element_at ns0 q) as [e0|];
    try discriminate; [|exact I].
  injection H as _ _ Ha. unfold link_url. now rewrite Ha.
Qed.

Lemma class_remove_absent (c : string) (l : list string) :
  contains c l = false -> class_remove c l = l.
Proof.
  unfold contains, class_remove. induction l as [|x l IH]; [reflexivity|].
  simpl. intros H. apply orb_false_elim in H as [Hx Hl].
  rewrite Hx. simpl. now rewrite IH.
Qed.

Lemma class_add_present (c : string) (l : list string) :
  contains c l = true -> class_add c l = l.
Proof. intros H. unfold class_add. now rewrite H. Qed.

(** An update that changes nothing at its target changes nothing. *)
Lemma update_at_fixes (f : node -> node) (p : node_path) :
  forall ns, (forall n, node_at ns p = Some n -> f n = n) -> update_at f p ns = ns.
Proof.
  assert (Halter : forall (F : node -> node) i l,
            (forall x, nth_error l i = Some x -> F x = x) -> alter_nth F i l = l).
  { intros F i. induction i as [|i IH]; intros [|x l] H; simpl; auto.
    - now rewrite (H x eq_refl).
    - f_equal. apply IH. exact H. }
  induction p as [|i p IH]; intros ns Hf; [reflexivity|].
  rewrite update_at_cons. apply Halter. intros n Hn.
  rewrite node_at_cons, Hn in Hf.
  destruct p as [|j p]; [now apply Hf|].
  destruct n as [s|e ks]; unfold below; [reflexivity|].
  f_equal. apply IH. exact Hf.
Qed.

Lemma set_document_same (w : world) : set_document (document w) w = w.
Proof. destruct w; reflexivity. Qed.

(** Updates of classes do not move the links of the selector. *)
Lemma all_in_alter_nth {A} (f : A -> list node_path) (F : A -> A) (i : nat) :
  forall l, (forall x, nth_error l i = Some x -> f (F x) = f x) ->
            all_in f (alter_nth F i l) = all_in f l.
Proof.
  induction i as [|i IH]; intros [|x l] H; simpl; auto.
  - now rewrite (H x eq_refl).
  - f_equal. f_equal. apply IH. exact H.
Qed.

Lemma nav_links_node_with_classes (g : list string -> list string) (a b c : bool) (n : node) :
  nav_links_node a b c (with_classes g n) = nav_links_node a b c n.
Proof. destruct n as [s|e ks]; reflexivity. Qed.

Lemma nav_links_node_elem (a b c : bool) (e : element) (ks : list node) :
  nav_links_node a b c (Elem e ks) =
  (if has_tag "a" e && (b || c) then [[]] else [])
  ++ all_in (nav_links_node (a || has_tag "header" e)
                            (b || (a && has_tag "nav" e))
                            (c || has_tag "footer" e)) ks.
Proof. reflexivity. Qed.

Lemma nav_links_update_at (g : list string -> list string) (p : node_path) :
  forall (a b c : bool) ns,
    all_in (nav_links_node a b c) (update_at (with_classes g) p ns)
    = all_in (nav_links_node a b c) ns.
Proof.
  induction p as [|i p IH]; intros a b c ns; [reflexivity|].
  rewrite update_at_cons. apply all_in_alter_nth. intros n _.
  destruct p as [|j p]; [apply nav_links_node_with_classes|].
  destruct n as [s|e ks]; [reflexivity|].
  unfold below. rewrite !nav_links_node_elem. now rewrite IH.
Qed.

Section ActiveLink.

Variable resolve : url -> string -> option url.

Lemma updateActiveLink_for_each (w : world) :
  updateActiveLink resolve w =
  for_each (mark_link resolve (pathname (location w))) (nav_links (document w))
           (emit (Call "updateActiveLink" "") w).
Proof. reflexivity. Qed.

(** The loop over the links, from a state [w] that has the skeleton and
    the location of [w0]. *)
Lemma mark_links (w0 : world) (l : list node_path) :
  forall w,
    same_skeleton (document w0) (document w) ->
    location w = location w0 ->
    if forallb (has_url resolve (location w0) (document w0)) l
    then exists w',
           for_each (mark_link resolve (pathname (location w0))) l w = (Returned tt, w')
           /\ same_skeleton (document w0) (document w')
           /\ location w' = location w0
           /\ nav_links (document w') = nav_links (document w)
           /\ (forall q, In q l ->
                 contains "nav-link-active" (classes_at (document w') q)
                 = is_current resolve (location w0) (document w0) q)
           /\ (forall q, ~ In q l ->
                 classes_at (document w') q = classes_at (document w) q)
    else exists w',
           for_each (mark_link resolve (pathname (location w0))) l w
           = (Thrown (TypeError "Invalid URL"), w').
Proof.
  induction l as [|x l IH]; intros w Hskel Hloc.
  - simpl. exists w. repeat split; auto; intros q [].
  - simpl forallb. simpl for_each.
    pose proof (same_skeleton_link_url resolve (location w0) _ _ x Hskel) as Hurl.
    assert (Hmark : mark_link resolve (pathname (location w0)) x w =
              match element_at (document w) x with
              | None => (Returned tt, w)
              | Some e =>
                  match link_url resolve (location w0) e with
                  | None => (Thrown (TypeError "Invalid URL"), w)
                  | Some u =>
                      (Returned tt,
                       set_document
                         (update_at
                            (with_classes
                               (if String.eqb (pathname u) (pathname (location w0))
                                then class_add "nav-link-active"
                                else class_remove "nav-link-active"))
                            x (document w)) w)
                  end
              end).
    { unfold mark_link, bind, gets. rewrite Hloc.
      destruct (element_at (document w) x) as [e|]; [|reflexivity].
      destruct (link_url resolve (location w0) e) as [u|]; [|reflexivity].
      cbv zeta. destruct (String.eqb (pathname u) (pathname (location w0)));
        reflexivity. }
    unfold has_url at 1.
    destruct (element_at (document w) x) as [e|] eqn:He,
             (element_at (document w0) x) as [e0|] eqn:He0; try contradiction.
    + rewrite Hurl in Hmark.
      destruct (link_url resolve (location w0) e0) as [u|] eqn:Hu.
      * simpl andb.
        set (g := if String.eqb (pathname u) (pathname (location w0))
                  then class_add "nav-link-active"
                  else class_remove "nav-link-active") in *.
        set (w1 := set_document (update_at (with_classes g) x (document w)) w) in *.
        rewrite (bind_returned _ _ _ tt w1 Hmark).
        assert (Hskel1 : same_skeleton (document w0) (document w1)).
        { unfold w1. rewrite document_set_document.
          now apply same_skeleton_with_classes. }
        assert (Hx : contains "nav-link-active" (classes_at (document w1) x)
                     = is_current resolve (location w0) (document w0) x).
        { unfold is_current. rewrite He0, Hu.
          unfold classes_at, w1. rewrite document_set_document, element_at_with_classes.
          destruct (list_eq_dec Nat.eq_dec x x) as [_|N]; [|congruence].
          rewrite He. simpl. unfold g.
          destruct (String.eqb (pathname u) (pathname (location w0)));
            [apply contains_class_add | apply contains_class_remove]. }
        assert (Hother : forall q, q <> x ->
                  classes_at (document w1) q = classes_at (document w) q).
        { intros q Hq. unfold classes_at, w1.
          rewrite document_set_document, element_at_with_classes.
          destruct (list_eq_dec Nat.eq_dec q x); [congruence | reflexivity]. }
        assert (Hnav1 : nav_links (document w1) = nav_links (document w)).
        { unfold w1, nav_links. rewrite document_set_document.
          apply nav_links_update_at. }
        specialize (IH w1 Hskel1 Hloc).
        destruct (forallb (has_url resolve (location w0) (document w0)) l).
        -- destruct IH as (w' & Hrun & Hskel' & Hloc' & Hnav' & Hmarks & Hrest).
           exists w'. split; [exact Hrun|]. split; [exact Hskel'|].
           split; [exact Hloc'|]. split; [congruence|]. split.
           ++ intros q [<-|Hq]; [|now apply Hmarks].
              destruct (in_dec (list_eq_dec Nat.eq_dec) x l) as [Hin|Hout].
              ** now apply Hmarks.
              ** rewrite (Hrest x Hout). exact Hx.
           ++ intros q Hq.
              rewrite Hrest by (intros Hin; apply Hq; now right).
              apply Hother. intros ->. apply Hq. now left.
        -- destruct IH as (w' & Hrun). exists w'. exact Hrun.
      * simpl andb. cbv iota. exists w.
        now apply bind_thrown_run.
    + simpl andb.
      rewrite (bind_returned _ _ _ tt w Hmark).
      specialize (IH w Hskel Hloc).
      destruct (forallb (has_url resolve (location w0) (document w0)) l).
      * destruct IH as (w' & Hrun & Hskel' & Hloc' & Hnav' & Hmarks & Hrest).
        exists w'. split; [exact Hrun|]. split; [exact Hskel'|].
        split; [exact Hloc'|]. split; [exact Hnav'|]. split.
        -- intros q [<-|Hq]; [|now apply Hmarks].
           destruct (in_dec (list_eq_dec Nat.eq_dec) x l) as [Hin|Hout].
           ++ now apply Hmarks.
           ++ rewrite (Hrest x Hout). unfold classes_at, is_current.
              now rewrite He, He0.
        -- intros q Hq. apply Hrest. intros Hin. apply Hq. now right.
      * destruct IH as (w' & Hrun). exists w'. exact Hrun.
Qed.

(** X8. [updateActiveLink] throws exactly when one of the links that
    ['header nav a, footer a'] selects has no URL (no [href], or one that
    does not parse): [new URL(link.href)] then raises a [TypeError].
    Otherwise it returns. *)
Theorem updateActiveLink_throws_iff (w : world) :
  fst (updateActiveLink resolve w) =
  if forallb (has_url resolve (location w) (document w)) (nav_links (document w))
  then Returned tt
  else Thrown (TypeError "Invalid URL").
Proof.
  rewrite updateActiveLink_for_each.
  pose proof (mark_links w (nav_links (document w))
                (emit (Call "updateActiveLink" "") w)
                (same_skeleton_refl _) eq_refl) as H.
  destruct (forallb (has_url resolve (location w) (document w)) (nav_links (document w))).
  - destruct H as (w' & -> & _). reflexivity.
  - destruct H as (w' & ->). reflexivity.
Qed.

(** X9. When [updateActiveLink] returns, each selected link carries the
    class [nav-link-active] exactly when its URL has the path of the
    current location; the elements stay where they are with their tag, id
    and attributes, and the elements that are not selected keep their
    classes. *)
Theorem updateActiveLink_marks_current (w w' : world) :
  updateActiveLink resolve w = (Returned tt, w') ->
  (forall q, In q (nav_links (document w)) ->
     contains "nav-link-active" (classes_at (document w') q)
     = is_current resolve (location w) (document w) q)
  /\ (forall q, ~ In q (nav_links (document w)) ->
        classes_at (document w') q = classes_at (document w) q)
  /\ same_skeleton (document w) (document w').
Proof.
  intros Hrun. rewrite updateActiveLink_for_each in Hrun.
  pose proof (mark_links w (nav_links (document w))
                (emit (Call "updateActiveLink" "") w)
                (same_skeleton_refl _) eq_refl) as H.
  destruct (forallb (has_url resolve (location w) (document w)) (nav_links (document w))).
  - destruct H as (w1 & Hrun1 & Hskel & _ & _ & Hmarks & Hrest).
    rewrite Hrun in Hrun1. injection Hrun1 as <-. auto.
  - destruct H as (w1 & Hrun1). rewrite Hrun in Hrun1. discriminate.
Qed.

(** A second pass over links that are already marked changes nothing. *)
Lemma mark_links_again (w0 : world) (l : list node_path) (w : world) :
  same_skeleton (document w0) (document w) ->
  location w = location w0 ->
  forallb (has_url resolve (location w0) (document w0)) l = true ->
  (forall q, In q l ->
     contains "nav-link-active" (classes_at (document w) q)
     = is_current resolve (location w0) (document w0) q) ->
  for_each (mark_link resolve (pathname (location w0))) l w = (Returned tt, w).
Proof.
  intros Hskel Hloc. induction l as [|x l IH]; intros Hurl Hmarked; [reflexivity|].
  simpl in Hurl. apply andb_prop in Hurl as [Hx Hl].
  simpl for_each.
  assert (Hstep : mark_link resolve (pathname (location w0)) x w = (Returned tt, w)).
  { pose proof (same_skeleton_link_url resolve (location w0) _ _ x Hskel) as Hsame.
    specialize (Hmarked x (or_introl eq_refl)).
    unfold has_url in Hx. unfold is_current, classes_at in Hmarked.
    unfold mark_link, bind, gets. rewrite Hloc.
    destruct (element_at (document w) x) as [e|] eqn:He,
             (element_at (document w0) x) as [e0|] eqn:He0;
      try contradiction; [|reflexivity].
    rewrite Hsame.
    destruct (link_url resolve (location w0) e0) as [u|]; [|discriminate].
    cbv zeta.
    assert (Hid : forall g, g (classList e) = classList e ->
              set_document (update_at (with_classes g) x (document w)) w = w).
    { intros g Hg. rewrite update_at_fixes; [apply set_document_same|].
      intros n Hn. unfold element_at in He. rewrite Hn in He.
      destruct n as [s|e' ks]; [discriminate|]. injection He as ->.
      simpl. rewrite Hg. destruct e; reflexivity. }
    destruct (String.eqb (pathname u) (pathname (location w0))); unfold modify.
    - now rewrite (Hid _ (class_add_present _ _ Hmarked)).
    - now rewrite (Hid _ (class_remove_absent _ _ Hmarked)). }
  rewrite (bind_returned _ _ _ tt w Hstep).
  apply IH; [exact Hl|]. intros q Hq. apply Hmarked. now right.
Qed.

(** X10. [updateActiveLink] is idempotent on the document: run again
    after it has returned, it returns and leaves every node as it is. *)
Theorem updateActiveLink_again (w w' : world) :
  updateActiveLink resolve w = (Returned tt, w') ->
  exists w'',
    updateActiveLink resolve w' = (Returned tt, w'')
    /\ document w'' = document w'.
Proof.
  intros Hrun.
  rewrite updateActiveLink_for_each in Hrun.
  pose proof (mark_links w (nav_links (document w))
                (emit (Call "updateActiveLink" "") w)
                (same_skeleton_refl _) eq_refl) as H.
  destruct (forallb (has_url resolve (location w) (document w)) (nav_links (document w)))
    eqn:Hurl.
  2: { destruct H as (w1 & Hthrow). rewrite Hthrow in Hrun. discriminate. }
  destruct H as (w1 & Hrun1 & Hskel & Hloc & Hnav & Hmarks & _).
  rewrite Hrun in Hrun1. injection Hrun1 as <-.
  exists (emit (Call "updateActiveLink" "") w').
  split; [|reflexivity].
  rewrite updateActiveLink_for_each, Hloc, Hnav. simpl document.
  apply (mark_links_again w); try assumption.
Qed.

End ActiveLink.

(** ** The page-specific scripts *)

Lemma get_by_id_run (i : string) (w : world) :
  get_by_id i w =
  (Returned (option_map (fun p => {| at_path := p; by_id := i |})
                        (getElementById i (document w))), w).
Proof. reflexivity. Qed.

Lemma addEventListener_run (r : ref) (type : string) (w : world) :
  exists w', addEventListener r type w = (Returned tt, w')
             /\ document w' = document w.
Proof.
  unfold addEventListener, modify.
  destruct (in_document r (document w)); eexists; split; reflexivity.
Qed.

Lemma when_some_listen_run (o : option ref) (type : string) (w : world) :
  exists w', when_some o (fun r => addEventListener r type) w = (Returned tt, w')
             /\ document w' = document w.
Proof.
  destruct o as [r|]; simpl; [apply addEventListener_run|].
  exists w. split; reflexivity.
Qed.

Lemma initFormHandlers_run (w : world) :
  fst (initFormHandlers w) = form_handlers_outcome (document w)
  /\ document (snd (initFormHandlers w)) = document w.
Proof.
  unfold initFormHandlers, form_handlers_outcome, has_element.
  rewrite (bind_returned _ _ _ _ _ (get_by_id_run "reservation-form" w)).
  destruct (when_some_listen_run
              (option_map (fun p => {| at_path := p; by_id := "reservation-form" |})
                          (getElementById "reservation-form" (document w)))
              "submit" w) as (w1 & E1 & D1).
  rewrite (bind_returned _ _ _ tt w1 E1).
  rewrite (bind_returned _ _ _ _ _ (get_by_id_run "contact-form" w1)).
  destruct (when_some_listen_run
              (option_map (fun p => {| at_path := p; by_id := "contact-form" |})
                          (getElementById "contact-form" (document w1)))
              "submit" w1) as (w2 & E2 & D2).
  rewrite (bind_returned _ _ _ tt w2 E2).
  rewrite (bind_returned _ _ _ _ _ (get_by_id_run "inscription-modal" w2)).
  rewrite (bind_returned _ _ _ _ _ (get_by_id_run "open-modal-btn" w2)).
  assert (D : document w2 = document w) by congruence.
  rewrite D.
  destruct (getElementById "inscription-modal" (document w)) as [pm|];
    cbn [option_map]; [|split; [reflexivity | exact D]].
  destruct (getElementById "open-modal-btn" (document w)) as [po|];
    cbn [option_map]; [|split; [reflexivity | exact D]].
  rewrite (bind_returned _ _ _ _ _ (get_by_id_run "close-modal-btn" w2)).
  destruct (addEventListener_run {| at_path := po; by_id := "open-modal-btn" |}
              "click" w2) as (w3 & E3 & D3).
  rewrite (bind_returned _ _ _ tt w3 E3).
  rewrite D.
  destruct (getElementById "close-modal-btn" (document w)) as [pc|];
    cbn [option_map]; [|split; [reflexivity | simpl; congruence]].
  destruct (addEventListener_run {| at_path := pc; by_id := "close-modal-btn" |}
              "click" w3) as (w4 & E4 & D4).
  rewrite (bind_returned _ _ _ tt w4 E4).
  destruct (addEventListener_run {| at_path := pm; by_id := "inscription-modal" |}
              "click" w4) as (w5 & E5 & D5).
  rewrite (bind_returned _ _ _ tt w5 E5).
  rewrite (bind_returned _ _ _ _ _ (get_by_id_run "inscription-form" w5)).
  destruct (when_some_listen_run
              (option_map (fun p => {| at_path := p; by_id := "inscription-form" |})
                          (getElementById "inscription-form" (document w5)))
              "submit" w5) as (w6 & E6 & D6).
  rewrite E6. split; [reflexivity | simpl; congruence].
Qed.

(** X11. [initFormHandlers] throws exactly on a document that has the
    inscription modal and its opening button but no [#close-modal-btn]:
    [closeBtn.addEventListener] is called on [null].  In every case it
    leaves the document as it is. *)
Theorem initFormHandlers_throws_iff (w : world) :
  fst (initFormHandlers w) =
  (if has_element "inscription-modal" (document w)
      && has_element "open-modal-btn" (document w)
      && negb (has_element "close-modal-btn" (document w))
   then Thrown (TypeError "closeBtn is null")
   else Returned tt)
  /\ document (snd (initFormHandlers w)) = document w.
Proof. exact (initFormHandlers_run w). Qed.

(** ** The page-specific scripts together *)

Lemma returns_ret {A} (a : A) : returns (ret a).
Proof. intros w. now exists a. Qed.

Lemma returns_gets {A} (f : world -> A) : returns (gets f).
Proof. intros w. now exists (f w). Qed.

Lemma returns_modify (f : world -> world) : returns (modify f).
Proof. intros w. now exists tt. Qed.

Lemma returns_bind {A B} (m : M A) (k : A -> M B) :
  returns m -> (forall a, returns (k a)) -> returns (bind m k).
Proof.
  intros Hm Hk w. unfold bind.
  destruct (Hm w) as (a & Ha). destruct (m w) as [o w1]. simpl in Ha. subst o.
  apply Hk.
Qed.

Lemma returns_for_each {A} (f : A -> M unit) (l : list A) :
  (forall x, returns (f x)) -> returns (for_each f l).
Proof.
  intros Hf. induction l as [|x l IH]; simpl.
  - apply returns_ret.
  - apply returns_bind; [apply Hf | intros _; exact IH].
Qed.

Lemma returns_when_some {A} (o : option A) (f : A -> M unit) :
  (forall a, returns (f a)) -> returns (when_some o f).
Proof. intros Hf. destruct o; simpl; [apply Hf | apply returns_ret]. Qed.

Lemma returns_try_catch {A} (m : M A) (h : exn -> M A) :
  (forall e, returns (h e)) -> returns (try_catch m h).
Proof.
  intros Hh w. unfold try_catch. destruct (m w) as [[a|e] w1].
  - now exists a.
  - apply Hh.
Qed.

Ltac returns_step :=
  lazymatch goal with
  | |- returns (match ?x with _ => _ end) => destruct x
  | |- returns (bind _ _) => apply returns_bind; [|intros ?]
  | |- returns (when_some _ _) => apply returns_when_some; intros ?
  | |- returns (for_each _ _) => apply returns_for_each; intros ?
  | |- returns (try_catch _ _) => apply returns_try_catch; intros ?
  | |- returns (ret _) => apply returns_ret
  | |- returns (gets _) => apply returns_gets
  | |- returns (modify _) => apply returns_modify
  end.

(** A computation that returns and keeps the document. *)
Lemma returned_same_document {A} (m : M A) (w : world) :
  returns m -> respects same_document m ->
  exists a w', m w = (Returned a, w') /\ document w' = document w.
Proof.
  intros Hr Hd. destruct (Hr w) as (a & Ha). specialize (Hd w).
  destruct (m w) as [o w']. simpl in *. subst o. now exists a, w'.
Qed.

Lemma returns_initFadeInObserver : returns initFadeInObserver.
Proof. unfold_scripts. repeat returns_step. Qed.

Lemma returns_initFaqAccordion : returns initFaqAccordion.
Proof. unfold_scripts. repeat returns_step. Qed.

Lemma returns_initStatsCounter : returns initStatsCounter.
Proof. unfold_scripts. repeat returns_step. Qed.

Lemma initTestimonialCarousel_absent (w : world) :
  getElementById "testimonial-carousel" (document w) = None ->
  initTestimonialCarousel w = (Returned tt, w).
Proof.
  intros H. unfold initTestimonialCarousel.
  rewrite (bind_returned _ _ _ _ _ (get_by_id_run "testimonial-carousel" w)).
  now rewrite H.
Qed.

(** X12. On a document without [#testimonial-carousel], the page-specific
    scripts leave the document as it is, and they throw exactly when
    [initFormHandlers] does: when the inscription modal and its opening
    button are there and [#close-modal-btn] is not. *)
Theorem scripts_without_carousel (w : world) :
  getElementById "testimonial-carousel" (document w) = None ->
  fst (runPageSpecificScripts w) = form_handlers_outcome (document w)
  /\ document (snd (runPageSpecificScripts w)) = document w.
Proof.
  intros H. unfold runPageSpecificScripts.
  rewrite (bind_returned (call _ _) _ w tt _ eq_refl).
  destruct (returned_same_document initFadeInObserver
              (emit (Call "runPageSpecificScripts" "") w)
              returns_initFadeInObserver same_document_initFadeInObserver)
    as ([] & w1 & E1 & D1).
  rewrite (bind_returned _ _ _ tt w1 E1).
  rewrite document_emit in D1.
  rewrite (bind_returned _ _ _ tt w1 (initTestimonialCarousel_absent w1
             (eq_trans (f_equal _ D1) H))).
  destruct (initFormHandlers_run w1) as [O2 D2].
  destruct (initFormHandlers w1) as [o2 w2] eqn:E2. simpl in O2, D2.
  rewrite D1 in O2. rewrite <- O2.
  destruct o2 as [[]|e].
  - rewrite (bind_returned _ _ _ tt w2 E2).
    destruct (returned_same_document initFaqAccordion w2
                returns_initFaqAccordion same_document_initFaqAccordion)
      as ([] & w3 & E3 & D3).
    rewrite (bind_returned _ _ _ tt w3 E3).
    destruct (returned_same_document initStatsCounter w3
                returns_initStatsCounter same_document_initStatsCounter)
      as ([] & w4 & E4 & D4).
    rewrite E4. split; [reflexivity | simpl; congruence].
  - rewrite (bind_thrown_run _ _ _ e w2 E2). split; [reflexivity | simpl; congruence].
Qed.

(** ** A load that fails after the fetch *)

Lemma bind_assoc {A B C} (m : M A) (k : A -> M B) (k' : B -> M C) (w : world) :
  bind (bind m k) k' w = bind m (fun a => bind (k a) k') w.
Proof. unfold bind. destruct (m w) as [[a|e] w1]; reflexivity. Qed.

Lemma write_trace (r : ref) (f : node -> node) (w : world) :
  trace (snd (write r f w)) = trace w.
Proof. unfold write, modify. simpl. now destruct (in_document r (document w)). Qed.

Lemma in_document_node (r : ref) (ns : list node) :
  in_document r ns = true ->
  exists e ks, node_at ns (at_path r) = Some (Elem e ks) /\ id e = by_id r.
Proof.
  unfold in_document, element_at. intros H.
  destruct (node_at ns (at_path r)) as [[s|e ks]|]; try discriminate.
  exists e, ks. split; [reflexivity | now apply String.eqb_eq].
Qed.

Lemma node_in_document (r : ref) (ns : list node) (e : element) (ks : list node) :
  node_at ns (at_path r) = Some (Elem e ks) -> id e = by_id r ->
  in_document r ns = true.
Proof.
  unfold in_document, element_at. intros -> <-. apply String.eqb_refl.
Qed.

(** What the [catch] block leaves, seen from the state it ends in. *)
Lemma show_not_found_view (r : ref) (error : exn) (w : world) :
  let w' := snd (show_not_found r error w) in
  fst (show_not_found r error w) = Returned tt
  /\ trace w' = trace w ++ [ConsoleError "Failed to load page:" (Some error)]
  /\ title w' = title w /\ scrollX w' = scrollX w /\ scrollY w' = scrollY w
  /\ history w' = history w /\ location w' = location w
  /\ (in_document r (document w') = true ->
      innerHTML (document w') (at_path r) = Some fallback_markup
      /\ contains "page-fade-out" (classes_at (document w') (at_path r)) = false).
Proof.
  unfold show_not_found, bind, console_error, write, modify.
  cbn [fst snd]. rewrite document_emit.
  destruct (in_document r (document w)) eqn:Hin.
  - destruct (in_document_node r _ Hin) as (e & ks & Hn & Hid).
    cbn [document set_document].
    assert (Hn1 : node_at (update_at (with_children fallback_markup) (at_path r) (document w))
                          (at_path r) = Some (Elem e fallback_markup)).
    { rewrite node_at_update_at, Hn. reflexivity. }
    rewrite (node_in_document r _ _ _ Hn1 Hid).
    cbn [document set_document trace title scrollX scrollY history location emit].
    repeat (split; [reflexivity|]).
    intros _. unfold innerHTML, classes_at, element_at.
    rewrite node_at_update_at, Hn1.
    cbn [option_map with_classes children classList].
    split; [reflexivity | apply contains_class_remove].
  - cbn [document emit]. rewrite Hin.
    cbn [document set_document trace title scrollX scrollY history location emit].
    repeat (split; [reflexivity|]).
    intros H. rewrite Hin in H. discriminate.
Qed.

Section LateFailure.

Variable resolve : url -> string -> option url.
Variable net : url -> string -> fetch_result.

(** X13. A fetch that succeeds does not make the load succeed.  When the
    page-specific scripts or the active-link update throw on the fetched
    content, [handlePageLoad] still returns, having logged that error; the
    title is by then the fetched one, the scroll position is not reset, and
    the container, as long as it is in the document, shows the not-found
    view without [page-fade-out] instead of the fetched content. *)
Theorem late_throw_shows_not_found (path : string) (p : node_path)
    (doc : html_document) (content : list node) (w w1 : world) (error : exn) :
  getElementById "main-content" (document w) = Some p ->
  net (location w) path = Response true (Some doc) ->
  container_markup doc = Some content ->
  (runPageSpecificScripts ;; updateActiveLink resolve)
    (swapped_in path p doc content w) = (Thrown error, w1) ->
  exists w',
    handlePageLoad resolve net path w = (Returned tt, w')
    /\ trace w' = trace w1 ++ [ConsoleError "Failed to load page:" (Some error)]
    /\ title w' = doc_title doc
    /\ scrollX w' = scrollX w /\ scrollY w' = scrollY w
    /\ history w' = history w /\ location w' = location w
    /\ (in_document {| at_path := p; by_id := "main-content" |} (document w') = true ->
        innerHTML (document w') p = Some fallback_markup
        /\ contains "page-fade-out" (classes_at (document w') p) = false).
Proof.
  intros H Hnet Hdoc Hthrow.
  rewrite (handlePageLoad_found resolve net path p w H).
  unfold try_catch.
  set (w0 := set_document
               (update_at (with_classes (class_add "page-fade-out")) p (document w))
               (emit (Call "handlePageLoad" path) w)).
  assert (H0 : getElementById "main-content" (document w0) = Some p).
  { apply getElementById_update_at; [apply keeps_id_with_classes | exact H]. }
  rewrite (load_page_fetched resolve net path p doc content w0 H0 Hnet Hdoc).
  unfold w0. simpl document. rewrite update_at_twice.
  change (set_document _ (set_title _ (emit _ (set_document _ (emit _ w)))))
    with (swapped_in path p doc content w).
  rewrite <- bind_assoc.
  rewrite (bind_thrown_run _ _ _ error w1 Hthrow).
  assert (Hplace : in_place (swapped_in path p doc content w) w1).
  { change w1 with (snd (Thrown (A := unit) error, w1)). rewrite <- Hthrow.
    apply (respects_bind _ in_place_trans).
    - apply in_place_runPageSpecificScripts.
    - intros _. apply in_place_updateActiveLink. }
  assert (Hquiet : quietly (swapped_in path p doc content w) w1).
  { change w1 with (snd (Thrown (A := unit) error, w1)). rewrite <- Hthrow.
    apply (respects_bind _ quietly_trans).
    - apply quiet_runPageSpecificScripts.
    - intros _. apply quiet_updateActiveLink. }
  destruct Hplace as (Ht & Hx & Hy). destruct Hquiet as (_ & Hh & Hl).
  pose proof (show_not_found_view {| at_path := p; by_id := "main-content" |} error w1)
    as V.
  cbv zeta in V.
  destruct (show_not_found {| at_path := p; by_id := "main-content" |} error w1)
    as [o w'] eqn:E.
  cbn [fst snd at_path] in V.
  destruct V as (-> & V1 & V2 & V3 & V4 & V5 & V6 & V7).
  exists w'. split; [reflexivity|].
  split; [exact V1|].
  split; [rewrite V2, Ht; reflexivity|].
  split; [rewrite V3, Hx; reflexivity|].
  split; [rewrite V4, Hy; reflexivity|].
  split; [rewrite V5, Hh; reflexivity|].
  split; [rewrite V6, Hl; reflexivity|].
  exact V7.
Qed.

End LateFailure.

(** ** What the carousel renders *)

Lemma node_at_update_at_apart (f : node -> node) (p : node_path) :
  forall q ns, apart p q = true -> node_at (update_at f p ns) q = node_at ns q.
Proof.
  unfold apart.
  induction p as [|i p IH]; intros q ns H; [discriminate|].
  destruct q as [|j q]; [simpl in H; try rewrite andb_false_r in H; discriminate|].
  rewrite update_at_cons, !node_at_cons.
  destruct (Nat.eq_dec i j) as [<-|Hij].
  - simpl in H. rewrite Nat.eqb_refl in H. simpl in H.
    rewrite nth_error_alter_nth.
    destruct (nth_error ns i) as [n|]; [|reflexivity]. simpl option_map.
    destruct p as [|i' p]; [discriminate|].
    destruct q as [|j' q]; [simpl in H; try rewrite andb_false_r in H; discriminate|].
    destruct n as [s|e ks]; [reflexivity|].
    simpl below. simpl children. now apply IH.
  - now rewrite nth_error_alter_nth_other.
Qed.

Lemma apart_sym (p q : node_path) : apart p q = apart q p.
Proof. unfold apart. apply andb_comm. Qed.

Lemma holds_in_document (i : string) (p : node_path) (ks : list node) (ns : list node) :
  holds i p ks ns -> in_document (found i p) ns = true.
Proof. intros (e & Hn & Hid). now apply (node_in_document (found i p) ns e ks). Qed.

Lemma holds_found (i : string) (p : node_path) (ns : list node) :
  getElementById i ns = Some p -> exists ks, holds i p ks ns.
Proof.
  intros H. destruct (querySelector_sound _ _ _ H) as (e & ks & Hn & He).
  exists ks, e. split; [exact Hn | now apply String.eqb_eq].
Qed.

(** A write that replaces the children of an element it holds. *)
Lemma write_holds (i : string) (p : node_path) (f : node -> node)
    (g : list node -> list node) (ks : list node) (w : world) :
  (forall e k, f (Elem e k) = Elem e (g k)) ->
  holds i p ks (document w) ->
  write (found i p) f w
  = (Returned tt, set_document (update_at f p (document w)) w)
  /\ holds i p (g ks) (update_at f p (document w)).
Proof.
  intros Hf H. unfold write, modify.
  rewrite (holds_in_document _ _ _ _ H). split; [reflexivity|].
  destruct H as (e & Hn & Hid). exists e.
  now rewrite node_at_update_at, Hn; simpl; rewrite Hf.
Qed.

Lemma holds_apart (i : string) (p q : node_path) (f : node -> node)
    (ks : list node) (ns : list node) :
  apart p q = true -> holds i q ks ns -> holds i q ks (update_at f p ns).
Proof.
  intros Ha (e & Hn & Hid). exists e. now rewrite node_at_update_at_apart.
Qed.

Section CarouselRender.

Variable pc : node_path.
Variable pd : option node_path.
Hypothesis Hapart : forall p, pd = Some p -> apart pc p = true.

Lemma write_cards (f : node -> node) (g : list node -> list node)
    (kc kd : list node) (w : world) :
  (forall e k, f (Elem e k) = Elem e (g k)) ->
  carousel_holds pc pd kc kd (document w) ->
  exists w', write (found "testimonial-carousel" pc) f w = (Returned tt, w')
             /\ carousel_holds pc pd (g kc) kd (document w').
Proof.
  intros Hf [Hc Hd].
  destruct (write_holds _ _ f g kc w Hf Hc) as [E Hc'].
  eexists. split; [exact E|]. split; [exact Hc'|].
  simpl. destruct pd as [p|]; [|exact I].
  apply holds_apart; [now apply Hapart | exact Hd].
Qed.

Lemma write_dots (f : node -> node) (g : list node -> list node)
    (kc kd : list node) (w : world) :
  (forall e k, f (Elem e k) = Elem e (g k)) ->
  carousel_holds pc pd kc kd (document w) ->
  exists w', when_some (option_map (found "testimonial-dots") pd) (fun r => write r f) w = (Returned tt, w')
             /\ carousel_holds pc pd kc (g kd) (document w').
Proof.
  intros Hf [Hc Hd]. destruct pd as [p|] eqn:Hp; simpl.
  - destruct (write_holds _ _ f g kd w Hf Hd) as [E Hd'].
    eexists. split; [exact E|]. split; [|exact Hd'].
    simpl. apply holds_apart; [|exact Hc].
    rewrite apart_sym. now apply Hapart.
  - exists w. split; [reflexivity|]. now split.
Qed.

(** The loop that appends one card and one dot per testimonial. *)
Lemma append_cards (ts : list Carousel.testimonial) :
  forall kc kd w,
    carousel_holds pc pd kc kd (document w) ->
    exists w',
      for_each (fun testimonial =>
                  write (found "testimonial-carousel" pc) (append_child (card_node testimonial)) ;;
                  when_some (option_map (found "testimonial-dots") pd) (fun r => write r (append_child dot_node))) ts w
      = (Returned tt, w')
      /\ carousel_holds pc pd (kc ++ map card_node ts)
                        (kd ++ map (fun _ => dot_node) ts) (document w').
Proof.
  induction ts as [|t ts IH]; intros kc kd w H; simpl.
  - exists w. split; [reflexivity|]. now rewrite !app_nil_r.
  - destruct (write_cards (append_child (card_node t)) (fun k => k ++ [card_node t])
                kc kd w (fun _ _ => eq_refl) H) as (w1 & E1 & H1).
    destruct (write_dots (append_child dot_node) (fun k => k ++ [dot_node])
                _ kd w1 (fun _ _ => eq_refl) H1) as (w2 & E2 & H2).
    destruct (IH _ _ w2 H2) as (w3 & E3 & H3).
    exists w3. split.
    + rewrite bind_assoc.
      rewrite (bind_returned _ _ _ tt w1 E1).
      rewrite (bind_returned _ _ _ tt w2 E2). exact E3.
    + now rewrite <- !app_assoc in H3.
Qed.

Lemma returns_listeners (n : nat) :
  returns (when_some (option_map (found "testimonial-dots") pd) (fun r => for_each (addEventListener_child r "click") (seq 0 n))).
Proof. unfold addEventListener_child. repeat returns_step. Qed.

Lemma same_document_listeners (n : nat) :
  respects same_document
    (when_some (option_map (found "testimonial-dots") pd) (fun r => for_each (addEventListener_child r "click") (seq 0 n))).
Proof. unfold addEventListener_child. repeat same_document_step. Qed.

Lemma render_carousel_holds (kc kd : list node) (w : world) :
  carousel_holds pc pd kc kd (document w) ->
  let withDots := match pd with Some _ => true | None => false end in
  exists w',
    render_carousel (found "testimonial-carousel" pc) (option_map (found "testimonial-dots") pd) w = (Returned tt, w')
    /\ carousel_holds pc pd (rendered_cards withDots) rendered_dots (document w').
Proof.
  intros H withDots. unfold render_carousel.
  destruct (write_cards (with_children []) (fun _ => []) kc kd w
              (fun _ _ => eq_refl) H) as (w1 & E1 & H1).
  rewrite (bind_returned _ _ _ tt w1 E1).
  destruct (write_dots (with_children []) (fun _ => []) _ kd w1
              (fun _ _ => eq_refl) H1) as (w2 & E2 & H2).
  rewrite (bind_returned _ _ _ tt w2 E2).
  destruct (append_cards Carousel.testimonials _ _ w2 H2) as (w3 & E3 & H3).
  rewrite (bind_returned _ _ _ tt w3 E3).
  cbv zeta.
  match goal with
  | |- context [bind (when_some (option_map (found "testimonial-dots") pd) (fun r => for_each _ (seq 0 ?n))) _ w3] =>
      destruct (returned_same_document _ w3 (returns_listeners n)
                  (same_document_listeners n)) as ([] & w4 & E4 & D4)
  end.
  rewrite (bind_returned _ _ _ tt w4 E4).
  rewrite (bind_returned _ _ _ _ _ (get_by_id_run "next-testimonial" w4)).
  match goal with
  | |- context [bind (when_some ?o (fun b => addEventListener b "click")) _ w4] =>
      destruct (when_some_listen_run o "click" w4) as (w5 & E5 & D5)
  end.
  rewrite (bind_returned _ _ _ tt w5 E5).
  rewrite (bind_returned _ _ _ _ _ (get_by_id_run "prev-testimonial" w5)).
  match goal with
  | |- context [bind (when_some ?o (fun b => addEventListener b "click")) _ w5] =>
      destruct (when_some_listen_run o "click" w5) as (w6 & E6 & D6)
  end.
  rewrite (bind_returned _ _ _ tt w6 E6).
  destruct (addEventListener_run (found "testimonial-carousel" pc) "mouseenter" w6) as (w7 & E7 & D7).
  rewrite (bind_returned _ _ _ tt w7 E7).
  destruct (addEventListener_run (found "testimonial-carousel" pc) "mouseleave" w7) as (w8 & E8 & D8).
  rewrite (bind_returned _ _ _ tt w8 E8).
  assert (H8 : carousel_holds pc pd ([] ++ map card_node Carousel.testimonials)
                 ([] ++ map (fun _ => dot_node) Carousel.testimonials) (document w8)).
  { replace (document w8) with (document w3) by congruence. exact H3. }
  simpl app in H8.
  assert (Hd : match (option_map (found "testimonial-dots") pd) with Some _ => true | None => false end = withDots).
  { unfold withDots. now destruct pd. }
  rewrite Hd.
  destruct (write_cards (with_child_classes (Carousel.cards (Carousel.init withDots)))
              (zip_classes (Carousel.cards (Carousel.init withDots))) _ _ w8
              (fun _ _ => eq_refl) H8) as (w9 & E9 & H9).
  rewrite (bind_returned _ _ _ tt w9 E9).
  destruct (write_dots (with_child_classes (Carousel.dots (Carousel.init withDots)))
              (zip_classes (Carousel.dots (Carousel.init withDots))) _ _ w9
              (fun _ _ => eq_refl) H9) as (w10 & E10 & H10).
  rewrite (bind_returned _ _ _ tt w10 E10).
  eexists. split; [reflexivity|].
  unfold modify. cbn [snd]. rewrite document_emit.
  destruct H10 as [Hc10 Hd10]. split; [exact Hc10|].
  unfold withDots in Hd10. destruct pd; [exact Hd10 | exact I].
Qed.

End CarouselRender.

(** X14. [initTestimonialCarousel], on a document whose carousel and dots
    containers are not inside one another, returns with the carousel
    container holding one card per testimonial and the dots container,
    when there is one, one dot per testimonial; the classes the cards and
    the dots carry in the document are those of the closure state
    [Carousel.init], from which [next], [prev] and the dot handlers go on. *)
Theorem carousel_rendered (pc : node_path) (w : world) :
  getElementById "testimonial-carousel" (document w) = Some pc ->
  (forall pd, getElementById "testimonial-dots" (document w) = Some pd ->
              apart pc pd = true) ->
  let withDots := has_element "testimonial-dots" (document w) in
  let w' := snd (initTestimonialCarousel w) in
  fst (initTestimonialCarousel w) = Returned tt
  /\ innerHTML (document w') pc = Some (rendered_cards withDots)
  /\ child_classes (document w') pc = Carousel.cards (Carousel.init withDots)
  /\ (forall pd, getElementById "testimonial-dots" (document w) = Some pd ->
        innerHTML (document w') pd = Some rendered_dots
        /\ child_classes (document w') pd = Carousel.dots (Carousel.init true)).
Proof.
  intros Hc Hapart withDots.
  unfold initTestimonialCarousel.
  rewrite (bind_returned _ _ _ _ _ (get_by_id_run "testimonial-carousel" w)).
  rewrite Hc. cbn [option_map].
  rewrite (bind_returned _ _ _ _ _ (get_by_id_run "testimonial-dots" w)).
  destruct (holds_found _ _ _ Hc) as (kc & Hkc).
  assert (H : exists kd, carousel_holds pc (getElementById "testimonial-dots" (document w))
                           kc kd (document w)).
  { destruct (getElementById "testimonial-dots" (document w)) as [pd|] eqn:Hd.
    - destruct (holds_found _ _ _ Hd) as (kd & Hkd). exists kd. now split.
    - exists []. now split. }
  destruct H as (kd & H).
  destruct (render_carousel_holds pc _ Hapart kc kd w H) as (w1 & E1 & Hc1 & Hd1).
  unfold found in E1. rewrite E1. cbn [fst snd].
  unfold withDots, has_element.
  assert (Hcards : forall b, map (fun k => match k with
                                          | Elem e _ => classList e
                                          | Text _ => []
                                          end) (rendered_cards b)
                             = Carousel.cards (Carousel.init b)).
  { intros []; vm_compute; reflexivity. }
  split; [reflexivity|].
  destruct Hc1 as (e & Hn & _).
  split; [unfold innerHTML; rewrite Hn; reflexivity|].
  split; [unfold child_classes; rewrite Hn; apply Hcards|].
  intros pd Hpd. rewrite Hpd in Hd1. destruct Hd1 as (e' & Hn' & _).
  unfold innerHTML, child_classes. rewrite Hn'.
  split; [reflexivity | vm_compute; reflexivity].
Qed.

(** ** Listeners that show and hide *)

Lemma contains_class_add_other (k c : string) (l : list string) :
  k <> c -> contains k (class_add c l) = contains k l.
Proof.
  intros H. unfold class_add. destruct (contains c l); [reflexivity|].
  unfold contains. rewrite existsb_app. simpl.
  destruct (String.eqb_spec k c); [contradiction|]. now rewrite !orb_false_r.
Qed.

Lemma contains_class_remove_other (k c : string) (l : list string) :
  k <> c -> contains k (class_remove c l) = contains k l.
Proof.
  intros H. unfold contains, class_remove.
  induction l as [|x l IH]; [reflexivity|]. simpl.
  destruct (String.eqb_spec c x) as [<-|Hx]; simpl.
  - destruct (String.eqb_spec k c); [contradiction|]. exact IH.
  - now rewrite IH.
Qed.

Lemma contains_class_flip (c : string) (l : list string) :
  contains c (class_flip c l) = negb (contains c l).
Proof.
  unfold class_flip, class_toggle. destruct (contains c l) eqn:H; simpl.
  - apply contains_class_remove.
  - apply contains_class_add.
Qed.

Lemma contains_class_flip_other (k c : string) (l : list string) :
  k <> c -> contains k (class_flip c l) = contains k l.
Proof.
  intros H. unfold class_flip, class_toggle. destruct (negb (contains c l)).
  - now apply contains_class_add_other.
  - now apply contains_class_remove_other.
Qed.

(** A change of classes at [p], seen at [q]. *)
Lemma classes_at_with_classes_other (g : list string -> list string) (p q : node_path)
    (ns : list node) :
  q <> p -> classes_at (update_at (with_classes g) p ns) q = classes_at ns q.
Proof.
  intros H. unfold classes_at. rewrite element_at_with_classes.
  now destruct (list_eq_dec Nat.eq_dec q p).
Qed.

Lemma classes_at_with_classes_same (g : list string -> list string) (p : node_path)
    (ns : list node) (e : element) :
  element_at ns p = Some e ->
  classes_at (update_at (with_classes g) p ns) p = g (classes_at ns p).
Proof.
  intros H. unfold classes_at. rewrite element_at_with_classes, H.
  now destruct (list_eq_dec Nat.eq_dec p p).
Qed.

Lemma contains_with_classes (k : string) (g : list string -> list string)
    (p q : node_path) (ns : list node) :
  (forall l, contains k (g l) = contains k l) ->
  contains k (classes_at (update_at (with_classes g) p ns) q)
  = contains k (classes_at ns q).
Proof.
  intros H. unfold classes_at. rewrite element_at_with_classes.
  destruct (list_eq_dec Nat.eq_dec q p); [|reflexivity].
  destruct (element_at ns q); [apply H | reflexivity].
Qed.

Lemma in_document_with_classes (r : ref) (g : list string -> list string)
    (p : node_path) (ns : list node) :
  in_document r (update_at (with_classes g) p ns) = in_document r ns.
Proof.
  unfold in_document. rewrite element_at_with_classes.
  destruct (list_eq_dec Nat.eq_dec (at_path r) p); [|reflexivity].
  now destruct (element_at ns (at_path r)).
Qed.

Lemma in_document_element (r : ref) (ns : list node) :
  in_document r ns = true -> exists e, element_at ns (at_path r) = Some e.
Proof.
  unfold in_document. destruct (element_at ns (at_path r)) as [e|]; [eauto|discriminate].
Qed.

(** A write of classes through a reference whose element is in the
    document. *)
Lemma write_classes (r : ref) (g : list string -> list string) (w : world) :
  in_document r (document w) = true ->
  write r (with_classes g) w
  = (Returned tt, set_document (update_at (with_classes g) (at_path r) (document w)) w).
Proof. intros H. unfold write, modify. now rewrite H. Qed.

Lemma found_apart (i j : string) (p q : node_path) (ns : list node) :
  i <> j -> getElementById i ns = Some p -> getElementById j ns = Some q -> p <> q.
Proof.
  intros Hij Hp Hq ->.
  destruct (querySelector_sound _ _ _ Hp) as (e & ks & Hn & He).
  destruct (querySelector_sound _ _ _ Hq) as (e' & ks' & Hn' & He').
  rewrite Hn in Hn'. injection Hn' as <- _.
  apply String.eqb_eq in He, He'. congruence.
Qed.

(** X15. The [submit] listener of the contact form never throws and calls
    [preventDefault] once.  When the document has both
    [#contact-form-container] and [#contact-confirmation], it leaves the
    first with the class [hidden] and the second without it, and changes
    no other class anywhere; when one of them is missing, it leaves the
    document as it is. *)
Theorem contact_submit_swaps (w : world) :
  exists w',
    on_contact_submit w = (Returned tt, w')
    /\ trace w' = trace w ++ [PreventDefault]
    /\ same_skeleton (document w) (document w')
    /\ match getElementById "contact-form-container" (document w),
             getElementById "contact-confirmation" (document w) with
       | Some f, Some c =>
           hidden_at (document w') f = true
           /\ hidden_at (document w') c = false
           /\ (forall q, q <> f -> q <> c ->
                 classes_at (document w') q = classes_at (document w) q)
           /\ (forall q k, k <> "hidden" ->
                 contains k (classes_at (document w') q)
                 = contains k (classes_at (document w) q))
       | _, _ => document w' = document w
       end.
Proof.
  unfold on_contact_submit.
  rewrite (bind_returned (modify (emit PreventDefault)) _ w tt _ eq_refl).
  rewrite (bind_returned _ _ _ _ _ (get_by_id_run "contact-form-container" _)).
  rewrite (bind_returned _ _ _ _ _ (get_by_id_run "contact-confirmation" _)).
  rewrite document_emit.
  destruct (getElementById "contact-form-container" (document w)) as [f|] eqn:Hf;
    cbn [option_map].
  2: { eexists. split; [reflexivity|]. split; [reflexivity|].
       split; [apply same_skeleton_refl | reflexivity]. }
  destruct (getElementById "contact-confirmation" (document w)) as [c|] eqn:Hc;
    cbn [option_map].
  2: { eexists. split; [reflexivity|]. split; [reflexivity|].
       split; [apply same_skeleton_refl | reflexivity]. }
  assert (Hfc : f <> c).
  { apply (found_apart "contact-form-container" "contact-confirmation" f c (document w));
      [discriminate | exact Hf | exact Hc]. }
  pose proof (in_document_found _ _ _ Hf) as If.
  pose proof (in_document_found _ _ _ Hc) as Ic.
  rewrite (bind_returned _ _ _ tt _ (write_classes _ _ (emit PreventDefault w) If)).
  cbn [at_path].
  rewrite write_classes
    by (cbn [document set_document]; now rewrite in_document_with_classes).
  cbn [at_path document set_document emit].
  eexists. split; [reflexivity|].
  cbn [document set_document trace emit].
  split; [reflexivity|].
  split; [do 2 apply same_skeleton_with_classes; apply same_skeleton_refl|].
  destruct (in_document_element _ _ If) as (ef & Ef).
  destruct (in_document_element _ _ Ic) as (ec & Ec).
  cbn [at_path] in Ef, Ec.
  unfold hidden_at. repeat split.
  - rewrite classes_at_with_classes_other by exact Hfc.
    rewrite (classes_at_with_classes_same _ _ _ ef Ef). apply contains_class_add.
  - erewrite classes_at_with_classes_same.
    + apply contains_class_remove.
    + rewrite element_at_with_classes.
      destruct (list_eq_dec Nat.eq_dec c f) as [E|_]; [now elim Hfc|]. exact Ec.
  - intros q Hqf Hqc. now rewrite !classes_at_with_classes_other.
  - intros q k Hk.
    rewrite contains_with_classes
      by (intros l; now apply contains_class_remove_other).
    apply contains_with_classes. intros l. now apply contains_class_add_other.
Qed.

Lemma on_link_with_classes (e : click_event) (g : list string -> list string)
    (p : node_path) (ns : list node) :
  on_link e (update_at (with_classes g) p ns) = on_link e ns.
Proof.
  unfold on_link. rewrite element_at_with_classes.
  destruct (list_eq_dec Nat.eq_dec (target e) p); [|reflexivity].
  now destruct (element_at ns (target e)).
Qed.

(** X16. The [click] listener of the header never throws and changes
    nothing but the class [hidden] of [#mobile-menu].  After a click on a
    link the menu is hidden, whatever it was; after any other click on or
    inside [#mobile-menu-button] it is hidden exactly when it was not; any
    other click leaves it as it was.  Without [#mobile-menu] the document
    stays as it is. *)
Theorem header_click_menu (e : click_event) (w : world) :
  exists w',
    on_header_click e w = (Returned tt, w')
    /\ trace w' = trace w
    /\ same_skeleton (document w) (document w')
    /\ match getElementById "mobile-menu" (document w) with
       | Some menu =>
           hidden_at (document w') menu
           = on_link e (document w)
             || xorb (on_menu_button e (document w)) (hidden_at (document w) menu)
           /\ (forall q, q <> menu ->
                 classes_at (document w') q = classes_at (document w) q)
           /\ (forall q k, k <> "hidden" ->
                 contains k (classes_at (document w') q)
                 = contains k (classes_at (document w) q))
       | None => document w' = document w
       end.
Proof.
  unfold on_header_click, on_menu_button.
  rewrite (bind_returned (gets _) _ w _ w eq_refl).
  rewrite (bind_returned _ _ _ _ _ (get_by_id_run "mobile-menu" w)).
  destruct (getElementById "mobile-menu" (document w)) as [menu|] eqn:Hm;
    cbn [option_map].
  2: { exists w. split.
       - destruct (closest _ _ _);
           rewrite (bind_returned (ret tt) _ w tt w eq_refl);
           rewrite (bind_returned (gets _) _ w _ w eq_refl); reflexivity.
       - split; [reflexivity|]. split; [apply same_skeleton_refl | reflexivity]. }
  pose proof (in_document_found _ _ _ Hm) as Im.
  destruct (in_document_element _ _ Im) as (em & Em). cbn [at_path] in Em.
  set (r := {| at_path := menu; by_id := "mobile-menu" |}) in *.
  (* the state after the toggle *)
  assert (H1 : exists w1,
             match closest (has_id "mobile-menu-button") (document w) (target e) with
             | Some _ => write r (with_classes (class_flip "hidden"))
             | None => ret tt
             end w = (Returned tt, w1)
             /\ trace w1 = trace w
             /\ same_skeleton (document w) (document w1)
             /\ in_document r (document w1) = true
             /\ on_link e (document w1) = on_link e (document w)
             /\ hidden_at (document w1) menu
                = xorb (match closest (has_id "mobile-menu-button")
                                (document w) (target e) with
                        | Some _ => true
                        | None => false
                        end) (hidden_at (document w) menu)
             /\ (forall q, q <> menu ->
                   classes_at (document w1) q = classes_at (document w) q)
             /\ (forall q k, k <> "hidden" ->
                   contains k (classes_at (document w1) q)
                   = contains k (classes_at (document w) q))).
  { destruct (closest (has_id "mobile-menu-button") (document w) (target e)).
    - eexists. split; [apply (write_classes r _ w Im)|].
      cbn [document set_document trace at_path r].
      split; [reflexivity|].
      split; [apply same_skeleton_with_classes, same_skeleton_refl|].
      split; [now rewrite in_document_with_classes|].
      split; [apply on_link_with_classes|].
      split; [|split].
      + unfold hidden_at. rewrite (classes_at_with_classes_same _ _ _ em Em).
        apply contains_class_flip.
      + intros q Hq. now apply classes_at_with_classes_other.
      + intros q k Hk. apply contains_with_classes.
        intros l. now apply contains_class_flip_other.
    - exists w. split; [reflexivity|]. split; [reflexivity|].
      split; [apply same_skeleton_refl|]. split; [exact Im|].
      split; [reflexivity|]. split; [reflexivity|]. now split. }
  destruct H1 as (w1 & E1 & T1 & S1 & I1 & L1 & Hh1 & O1 & K1).
  rewrite (bind_returned _ _ _ tt w1 E1).
  rewrite (bind_returned (gets _) _ w1 _ w1 eq_refl).
  rewrite (bind_returned (gets _) _ w1 _ w1 eq_refl).
  change (match element_at (document w1) (target e) with
          | Some t => has_tag "a" t
          | None => false
          end) with (on_link e (document w1)).
  change (contains "hidden" (classes_at (document w1) (at_path r)))
    with (hidden_at (document w1) menu).
  rewrite L1, Hh1.
  destruct (on_link e (document w)
            && negb (xorb match closest (has_id "mobile-menu-button")
                                  (document w) (target e) with
                          | Some _ => true
                          | None => false
                          end (hidden_at (document w) menu))) eqn:Hc.
  - eexists. split; [apply (write_classes r _ w1 I1)|].
    cbn [document set_document trace at_path r].
    split; [exact T1|].
    split; [apply same_skeleton_with_classes, S1|].
    destruct (in_document_element _ _ I1) as (e1 & Ee1). cbn [at_path r] in Ee1.
    apply andb_prop in Hc. destruct Hc as [-> _].
    split; [|split].
    + unfold hidden_at. rewrite (classes_at_with_classes_same _ _ _ e1 Ee1).
      apply contains_class_add.
    + intros q Hq. rewrite classes_at_with_classes_other by exact Hq. now apply O1.
    + intros q k Hk. rewrite contains_with_classes.
      * now apply K1.
      * intros l. now apply contains_class_add_other.
  - exists w1. split; [reflexivity|]. split; [exact T1|]. split; [exact S1|].
    split; [|split; assumption].
    rewrite Hh1.
    destruct (on_link e (document w)); [|reflexivity].
    simpl in Hc. apply negb_false_iff in Hc. now rewrite Hc.
Qed.

(** ** The scroll listener *)

Lemma update_at_ext (f g : node -> node) (p : node_path) :
  forall ns, (forall n, node_at ns p = Some n -> f n = g n) ->
             update_at f p ns = update_at g p ns.
Proof.
  induction p as [|i p IH]; intros ns H; [reflexivity|].
  rewrite !update_at_cons. apply alter_nth_ext. intros n Hn.
  rewrite node_at_cons, Hn in H.
  destruct p as [|j p]; [now apply H|].
  destruct n as [s|e ks]; unfold below; [reflexivity|].
  f_equal. apply IH. exact H.
Qed.

Lemma update_at_snoc (f : node -> node) (i : nat) (p : node_path) :
  p <> [] ->
  forall ns, update_at f (p ++ [i]) ns = update_at (below (alter_nth f i)) p ns.
Proof.
  induction p as [|j p IH]; intros Hp ns; [contradiction|].
  destruct p as [|j' p].
  - reflexivity.
  - change ((j :: j' :: p) ++ [i]) with (j :: ((j' :: p) ++ [i])).
    rewrite (update_at_cons f j ((j' :: p) ++ [i])).
    rewrite (update_at_cons _ j (j' :: p)).
    simpl app. apply alter_nth_ext. intros [s|e ks] _; unfold below; [reflexivity|].
    f_equal. apply (IH ltac:(discriminate)).
Qed.

Lemma node_at_snoc (i : nat) (p : node_path) :
  forall ns n, node_at ns p = Some n ->
               node_at ns (p ++ [i]) = nth_error (children n) i.
Proof.
  induction p as [|j p IH]; intros ns n H; [discriminate|].
  change ((j :: p) ++ [i]) with (j :: (p ++ [i])).
  rewrite node_at_cons in *.
  destruct (nth_error ns j) as [m|]; [|discriminate].
  destruct p as [|j' p].
  - injection H as ->. simpl. destruct (nth_error (children n) i); reflexivity.
  - simpl app. apply IH. exact H.
Qed.

Lemma alter_first_element_index (f : node -> node) (ks : list node) :
  alter_first_element f ks =
  match first_element_index ks with
  | Some i => alter_nth f i ks
  | None => ks
  end.
Proof.
  induction ks as [|[s|e k] ks IH]; simpl; try reflexivity.
  rewrite IH. now destruct (first_element_index ks).
Qed.

Lemma first_element_index_elem (ks : list node) (i : nat) :
  first_element_index ks = Some i -> exists e k, nth_error ks i = Some (Elem e k).
Proof.
  revert i. induction ks as [|[s|e k] ks IH]; simpl; intros i H; try discriminate.
  - destruct (first_element_index ks) as [j|]; [|discriminate].
    injection H as <-. now apply IH.
  - injection H as <-. now exists e, k.
Qed.

Lemma firstElementChild_element (ns : list node) (p c : node_path) :
  firstElementChild ns p = Some c -> exists e, element_at ns c = Some e.
Proof.
  unfold firstElementChild, element_at.
  destruct (node_at ns p) as [n|] eqn:Hn; [|discriminate].
  destruct (first_element_index (children n)) as [i|] eqn:Hi; [|discriminate].
  intros H. injection H as <-.
  rewrite (node_at_snoc i p ns n Hn).
  destruct (first_element_index_elem _ _ Hi) as (e & k & ->). now exists e.
Qed.

(** A write to the first element child is a write at its path. *)
Lemma update_first_element_child (f : node -> node) (p : node_path) (ns : list node) :
  update_at (on_first_element_child f) p ns =
  match firstElementChild ns p with
  | Some c => update_at f c ns
  | None => ns
  end.
Proof.
  unfold firstElementChild.
  destruct (node_at ns p) as [n|] eqn:Hn.
  - assert (Hp : p <> []) by (intros ->; discriminate).
    destruct (first_element_index (children n)) as [i|] eqn:Hi; simpl.
    + rewrite (update_at_snoc f i p Hp). apply update_at_ext.
      intros n' Hn'. rewrite Hn in Hn'. injection Hn' as <-.
      destruct n as [s|e ks]; [reflexivity|]. unfold on_first_element_child, below.
      simpl in Hi. now rewrite alter_first_element_index, Hi.
    + apply update_at_fixes.
      intros n' Hn'. rewrite Hn in Hn'. injection Hn' as <-.
      destruct n as [s|e ks]; [reflexivity|]. unfold on_first_element_child, below.
      simpl in Hi. now rewrite alter_first_element_index, Hi.
  - apply update_at_fixes. intros n Hn'. congruence.
Qed.

(** X17. The [scroll] listener, run while the header and the button it
    was set up with are the document's [#header-placeholder] and
    [#to-top-button], never throws and leaves the button hidden exactly
    when the page is scrolled by at most 300, and the first element child
    of the header with [shadow-md] exactly when the page is scrolled by
    more than 10.  No other class changes anywhere. *)
Theorem scroll_sets_classes (ph pt : node_path) (w : world) :
  getElementById "header-placeholder" (document w) = Some ph ->
  getElementById "to-top-button" (document w) = Some pt ->
  exists w',
    on_scroll (found "header-placeholder" ph) (found "to-top-button" pt) w
    = (Returned tt, w')
    /\ trace w' = trace w
    /\ scrollY w' = scrollY w
    /\ same_skeleton (document w) (document w')
    /\ hidden_at (document w') pt = (scrollY w <=? 300)%Z
    /\ (forall c, firstElementChild (document w) ph = Some c ->
          contains "shadow-md" (classes_at (document w') c) = (scrollY w >? 10)%Z)
    /\ (forall q k, k <> "hidden" -> k <> "shadow-md" ->
          contains k (classes_at (document w') q)
          = contains k (classes_at (document w) q)).
Proof.
  intros Hh Ht.
  pose proof (in_document_found _ _ _ Hh) as Ih.
  pose proof (in_document_found _ _ _ Ht) as It.
  fold (found "header-placeholder" ph) in Ih.
  fold (found "to-top-button" pt) in It.
  set (g1 := if (scrollY w >? 10)%Z then class_add "shadow-md"
             else class_remove "shadow-md").
  set (g2 := if (scrollY w >? 300)%Z then class_remove "hidden"
             else class_add "hidden").
  set (doc1 := match firstElementChild (document w) ph with
               | Some c => update_at (with_classes g1) c (document w)
               | None => document w
               end).
  assert (E1 : (if (scrollY w >? 10)%Z
                then write (found "header-placeholder" ph)
                       (on_first_element_child (with_classes (class_add "shadow-md")))
                else write (found "header-placeholder" ph)
                       (on_first_element_child (with_classes (class_remove "shadow-md")))) w
               = (Returned tt, set_document doc1 w)).
  { unfold doc1, g1, write, modify.
    destruct (scrollY w >? 10)%Z; rewrite Ih; cbn [at_path found];
      now rewrite update_first_element_child. }
  assert (I1 : in_document (found "to-top-button" pt) doc1 = true).
  { unfold doc1. destruct (firstElementChild (document w) ph); [|exact It].
    now rewrite in_document_with_classes. }
  assert (E2 : (if (scrollY w >? 300)%Z
                then write (found "to-top-button" pt)
                       (with_classes (class_remove "hidden"))
                else write (found "to-top-button" pt)
                       (with_classes (class_add "hidden"))) (set_document doc1 w)
               = (Returned tt,
                  set_document (update_at (with_classes g2) pt doc1) (set_document doc1 w))).
  { unfold g2. destruct (scrollY w >? 300)%Z; now apply write_classes. }
  exists (set_document (update_at (with_classes g2) pt doc1) (set_document doc1 w)).
  split.
  { unfold on_scroll.
    rewrite (bind_returned (gets scrollY) _ w _ w eq_refl).
    rewrite (bind_returned _ _ _ tt _ E1).
    rewrite (bind_returned (gets scrollY) _ _ _ _ eq_refl).
    exact E2. }
  cbn [document set_document trace scrollY].
  split; [reflexivity|]. split; [reflexivity|].
  assert (S1 : same_skeleton (document w) doc1).
  { unfold doc1. destruct (firstElementChild (document w) ph).
    - apply same_skeleton_with_classes, same_skeleton_refl.
    - apply same_skeleton_refl. }
  split; [now apply same_skeleton_with_classes|].
  split; [|split].
  - destruct (in_document_element _ _ I1) as (e1 & Ee1). cbn [at_path found] in Ee1.
    unfold hidden_at. rewrite (classes_at_with_classes_same _ _ _ e1 Ee1).
    unfold g2. rewrite Z.leb_antisym, Z.gtb_ltb.
    destruct (300 <? scrollY w)%Z; simpl.
    + apply contains_class_remove.
    + apply contains_class_add.
  - intros c Hc.
    rewrite contains_with_classes.
    + unfold doc1. rewrite Hc.
      destruct (firstElementChild_element _ _ _ Hc) as (ec & Eec).
      rewrite (classes_at_with_classes_same _ _ _ ec Eec).
      unfold g1. destruct (scrollY w >? 10)%Z.
      * apply contains_class_add.
      * apply contains_class_remove.
    + intros l. unfold g2.
      destruct (scrollY w >? 300)%Z;
        [apply contains_class_remove_other | apply contains_class_add_other];
        discriminate.
  - intros q k Hk1 Hk2.
    rewrite contains_with_classes.
    + unfold doc1. destruct (firstElementChild (document w) ph); [|reflexivity].
      apply contains_with_classes. intros l. unfold g1.
      destruct (scrollY w >? 10)%Z;
        [now apply contains_class_add_other | now apply contains_class_remove_other].
    + intros l. unfold g2.
      destruct (scrollY w >? 300)%Z;
        [now apply contains_class_remove_other | now apply contains_class_add_other].
Qed.

(** ** Setting up the common listeners, and loading the components *)

(** X18. [setupCommonEventListeners] throws exactly when the document has
    no [#header-placeholder], and then puts no listener at all.  With the
    header it puts the [click] listener on it, and only when the document
    has a [#to-top-button] the [scroll] listener on [window] and the
    [click] listener on the button.  It never changes the document. *)
Theorem setupCommonEventListeners_listeners (w : world) :
  let w' := snd (setupCommonEventListeners w) in
  document w' = document w
  /\ match getElementById "header-placeholder" (document w) with
     | None =>
         fst (setupCommonEventListeners w) = Thrown (TypeError "header is null")
         /\ trace w' = trace w
     | Some header =>
         fst (setupCommonEventListeners w) = Returned tt
         /\ trace w' = trace w ++ AddEventListener header "click" ::
              match getElementById "to-top-button" (document w) with
              | Some toTopButton =>
                  [AddEventListener window_target "scroll";
                   AddEventListener toTopButton "click"]
              | None => []
              end
     end.
Proof.
  unfold setupCommonEventListeners.
  rewrite (bind_returned _ _ _ _ _ (get_by_id_run "header-placeholder" w)).
  rewrite (bind_returned _ _ _ _ _ (get_by_id_run "to-top-button" w)).
  destruct (getElementById "header-placeholder" (document w)) as [ph|] eqn:Hh;
    cbn [option_map]; [|now split].
  pose proof (in_document_found _ _ _ Hh) as Ih.
  rewrite (bind_returned (addEventListener _ _) _ w tt
             (emit (AddEventListener ph "click") w))
    by (unfold addEventListener, modify; now rewrite Ih).
  destruct (getElementById "to-top-button" (document w)) as [pt|] eqn:Ht;
    cbn [option_map]; [|now split].
  pose proof (in_document_found _ _ _ Ht) as It.
  rewrite (bind_returned (modify _) _ _ tt _ eq_refl).
  unfold addEventListener, modify. cbn [document emit fst snd]. rewrite It.
  cbn [document emit trace]. rewrite <- !app_assoc. now split.
Qed.

Section Components.

Variable net : url -> string -> fetch_result.

(** X19. [load(url, elementId)] never throws: whatever the network
    answers, the promise [loadComponents] waits for is fulfilled.  It
    fetches [url] once.  When the response is ok and can be read, its
    markup becomes the content of the element with that id, if there is
    one, and nothing is logged; otherwise one error is logged and the
    document stays as it is. *)
Theorem load_never_throws (address elementId : string) (w : world) :
  exists w',
    load net address elementId w = (Returned tt, w')
    /\ match net (location w) address with
       | Response true (Some data) =>
           trace w' = trace w ++ [Fetch address]
           /\ document w' =
              match getElementById elementId (document w) with
              | Some p => update_at (with_children (doc_nodes data)) p (document w)
              | None => document w
              end
       | _ =>
           document w' = document w
           /\ exists error,
                trace w' = trace w ++
                  [Fetch address; ConsoleError "Error loading component:" (Some error)]
       end.
Proof.
  unfold load, try_catch, fetch, bind.
  destruct (net (location w) address) as [|[|] [data|]]; cbn [fst snd negb].
  - eexists. split; [reflexivity|]. split; [reflexivity|].
    eexists. cbn. now rewrite <- app_assoc.
  - unfold ret, get_by_id, gets. rewrite document_emit.
    destruct (getElementById elementId (document w)) as [p|] eqn:Hp; cbn [option_map when_some].
    + rewrite write_found by (rewrite document_emit; exact Hp).
      eexists. split; [reflexivity|]. now split.
    + eexists. split; [reflexivity|]. now split.
  - eexists. split; [reflexivity|]. split; [reflexivity|].
    eexists. cbn. now rewrite <- app_assoc.
  - eexists. split; [reflexivity|]. split; [reflexivity|].
    eexists. cbn. now rewrite <- app_assoc.
  - eexists. split; [reflexivity|]. split; [reflexivity|].
    eexists. cbn. now rewrite <- app_assoc.
Qed.

End Components.

(** ** A click that leads to a page that cannot be loaded *)

Section FailedNavigation.

Variable resolve : url -> string -> option url.
Variable net : url -> string -> fetch_result.

(** X20. The router moves before it loads.  Take a click on an in-site
    link to another path that [pushState] accepts and whose fetch is
    rejected or answers with a non-ok status.  Once the load the listener
    starts has run to completion, the location and the newest history
    entry are those [pushState] has set for the link, and the container
    shows the not-found view; the title and the scroll position are those
    of the page the click was made on. *)
Theorem click_to_missing_page (e : click_event) (link : element) (p : node_path)
    (there : url) (w : world) :
  clicked_link e w = Some link ->
  link_target link <> "_blank" ->
  link_protocol resolve (location w) link = protocol (location w) ->
  link_host resolve (location w) link = host (location w) ->
  ~ (link_hash resolve (location w) link <> ""
     /\ link_pathname resolve (location w) link = pathname (location w)) ->
  let here := location w in
  let newPath := (link_pathname resolve here link ++ link_search resolve here link)%string in
  newPath <> (pathname here ++ search here)%string ->
  accepted resolve here newPath there ->
  getElementById "main-content" (document w) = Some p ->
  fetch_failed (net there newPath) = true ->
  exists w',
    on_click resolve net e w = (Returned tt, w')
    /\ location w' = there
    /\ history w' = (StateObj (Some newPath), newPath) :: history w
    /\ innerHTML (document w') p = Some fallback_markup
    /\ title w' = title w
    /\ scrollX w' = scrollX w /\ scrollY w' = scrollY w.
Proof.
  intros Hlink Htarget Hproto Hhost Hanchor here newPath Hdiffers Haccepted Hp Hnet.
  rewrite (on_click_in_site resolve net e link w Hlink Htarget Hproto Hhost Hanchor).
  cbv zeta. fold here. fold newPath.
  apply String.eqb_neq in Hdiffers. rewrite Hdiffers.
  rewrite (bind_returned _ _ _ tt _
             (pushState_accepted resolve _ newPath there (emit PreventDefault w)
                Haccepted)).
  set (w0 := push_state (StateObj (Some newPath)) newPath there (emit PreventDefault w)).
  assert (Hp0 : getElementById "main-content" (document w0) = Some p) by exact Hp.
  set (w1 := set_document
               (update_at (with_classes (class_add "page-fade-out")) p (document w0))
               (emit (Call "handlePageLoad" newPath) w0)).
  assert (Hp1 : getElementById "main-content" (document w1) = Some p).
  { apply getElementById_update_at; [apply keeps_id_with_classes | exact Hp0]. }
  destruct (load_page_failed resolve net {| at_path := p; by_id := "main-content" |}
              newPath w1 Hnet) as (error & Hload).
  rewrite (handlePageLoad_failed resolve net _ p w0 error _ Hp0 Hload)
    by (rewrite document_emit; exact Hp1).
  eexists. split; [reflexivity|].
  split; [reflexivity|]. split; [reflexivity|].
  split; [|repeat split].
  destruct (querySelector_sound _ _ _ Hp1) as (e1 & ks & Hn & _).
  unfold innerHTML. rewrite document_set_document, node_at_update_at, document_emit, Hn.
  reflexivity.
Qed.

End FailedNavigation.

(** ** The properties above, on the sample site *)

Lemma page_fade_out_removed_witness :
  exists w',
    handlePageLoad Samples.resolve Samples.net "/about.html" Samples.arriving
    = (Returned tt, w')
    /\ in_document {| at_path := [1%nat]; by_id := "main-content" |} (document w') = true
    /\ contains "page-fade-out" (classes_at (document w') [1%nat]) = false.
Proof.
  destruct (page_fade_out_removed Samples.resolve Samples.net "/about.html" [1%nat]
              Samples.arriving) as (w' & Hrun & Hoff); [reflexivity|].
  assert (Hin : in_document {| at_path := [1%nat]; by_id := "main-content" |}
                            (document w') = true).
  { replace w' with (snd (handlePageLoad Samples.resolve Samples.net "/about.html"
                            Samples.arriving)) by (rewrite Hrun; reflexivity).
    vm_compute. reflexivity. }
  exists w'. exact (conj Hrun (conj Hin (Hoff Hin))).
Defined.

Lemma external_click_left_to_browser_witness :
  on_click Samples.resolve Samples.net
    {| target := [1; 3]%nat; ctrlKey := false; metaKey := false;
       shiftKey := false; altKey := false |} Samples.home
  = (Returned tt, Samples.home).
Proof.
  apply (external_click_left_to_browser Samples.resolve Samples.net).
  right. exists (el "a" [] [("href", "/about.html"); ("target", "_blank")]).
  split; [reflexivity|]. left. reflexivity.
Defined.

Lemma updateActiveLink_marks_current_witness :
  let w' := snd (updateActiveLink Samples.resolve Samples.arriving) in
  contains "nav-link-active" (classes_at (document w') [0; 0; 0; 1]%nat)
  = is_current Samples.resolve (location Samples.arriving) (document Samples.arriving)
               [0; 0; 0; 1]%nat
  /\ same_skeleton (document Samples.arriving) (document w').
Proof.
  intros w'.
  destruct (updateActiveLink_marks_current Samples.resolve Samples.arriving w')
    as (Hmarked & _ & Hskeleton).
  - vm_compute. reflexivity.
  - split; [|exact Hskeleton].
    apply Hmarked. vm_compute. auto.
Defined.

Lemma updateActiveLink_again_witness :
  let w' := snd (updateActiveLink Samples.resolve Samples.arriving) in
  exists w'',
    updateActiveLink Samples.resolve w' = (Returned tt, w'')
    /\ document w'' = document w'.
Proof.
  intros w'.
  apply (updateActiveLink_again Samples.resolve Samples.arriving w').
  vm_compute. reflexivity.
Defined.

Lemma scripts_without_carousel_witness :
  fst (runPageSpecificScripts Samples.home)
  = form_handlers_outcome (document Samples.home)
  /\ document (snd (runPageSpecificScripts Samples.home)) = document Samples.home.
Proof.
  apply (scripts_without_carousel Samples.home).
  reflexivity.
Defined.

Lemma late_throw_shows_not_found_witness :
  exists w',
    handlePageLoad Samples.resolve Samples.net "/inscription.html" Samples.home
    = (Returned tt, w')
    /\ title w' = "Inscription"
    /\ scrollY w' = scrollY Samples.home
    /\ innerHTML (document w') [1%nat] = Some fallback_markup
    /\ contains "page-fade-out" (classes_at (document w') [1%nat]) = false.
Proof.
  pose (doc := {| doc_title := "Inscription";
                  doc_nodes := Samples.page Samples.inscription_content |}).
  pose (w1 := snd ((runPageSpecificScripts ;; updateActiveLink Samples.resolve)
                     (swapped_in "/inscription.html" [1%nat] doc
                                 Samples.inscription_content Samples.home))).
  destruct (late_throw_shows_not_found Samples.resolve Samples.net "/inscription.html"
              [1%nat] doc Samples.inscription_content Samples.home w1
              (TypeError "closeBtn is null"))
    as (w' & Hrun & _ & Htitle & _ & Hy & _ & _ & Hview);
    try (vm_compute; reflexivity).
  assert (Hin : in_document {| at_path := [1%nat]; by_id := "main-content" |}
                            (document w') = true).
  { replace w' with (snd (handlePageLoad Samples.resolve Samples.net "/inscription.html"
                            Samples.home)) by (rewrite Hrun; reflexivity).
    vm_compute. reflexivity. }
  exists w'. exact (conj Hrun (conj Htitle (conj Hy (Hview Hin)))).
Defined.

Lemma carousel_rendered_witness :
  let w' := snd (initTestimonialCarousel about_shown) in
  fst (initTestimonialCarousel about_shown) = Returned tt
  /\ innerHTML (document w') [1; 1]%nat = Some (rendered_cards true)
  /\ child_classes (document w') [1; 1]%nat = Carousel.cards (Carousel.init true).
Proof.
  intros w'.
  destruct (carousel_rendered [1; 1]%nat about_shown)
    as (Hrun & Hcards & Hclasses & _).
  - reflexivity.
  - intros pd Hpd.
    assert (H : Some [1; 2]%nat = Some pd) by exact Hpd.
    injection H as <-. reflexivity.
  - exact (conj Hrun (conj Hcards Hclasses)).
Defined.

Lemma scroll_sets_classes_witness :
  exists w',
    on_scroll (found "header-placeholder" [0%nat]) (found "to-top-button" [3%nat])
              with_top_button
    = (Returned tt, w')
    /\ hidden_at (document w') [3%nat] = (scrollY with_top_button <=? 300)%Z
    /\ contains "shadow-md" (classes_at (document w') [0; 0]%nat)
       = (scrollY with_top_button >? 10)%Z.
Proof.
  destruct (scroll_sets_classes [0%nat] [3%nat] with_top_button)
    as (w' & Hrun & _ & _ & _ & Hbutton & Hshadow & _).
  - reflexivity.
  - reflexivity.
  - exists w'. split; [exact Hrun|]. split; [exact Hbutton|].
    apply Hshadow. reflexivity.
Defined.

Lemma click_to_missing_page_witness :
  exists w',
    on_click Samples.resolve Samples.net
      {| target := [2; 0; 0]%nat; ctrlKey := false; metaKey := false;
         shiftKey := false; altKey := false |} Samples.home
    = (Returned tt, w')
    /\ pathname (location w') = "/contact.html"
    /\ innerHTML (document w') [1%nat] = Some fallback_markup
    /\ title w' = title Samples.home.
Proof.
  destruct (click_to_missing_page Samples.resolve Samples.net
              {| target := [2; 0; 0]%nat; ctrlKey := false; metaKey := false;
                 shiftKey := false; altKey := false |}
              (el "a" [] [("href", "/contact.html")]) [1%nat]
              {| protocol := "https:"; host := "tchiavs.example";
                 pathname := "/contact.html"; search := ""; hash := "" |}
              Samples.home)
    as (w' & Hrun & Hlocation & _ & Hview & Htitle & _).
  - reflexivity.
  - discriminate.
  - reflexivity.
  - reflexivity.
  - intros [Hhash _]. apply Hhash. reflexivity.
  - discriminate.
  - split; reflexivity.
  - reflexivity.
  - reflexivity.
  - exists w'. split; [exact Hrun|]. split; [|exact (conj Hview Htitle)].
    rewrite Hlocation. reflexivity.
Defined.

Lemma state_by_index_witness :
  Carousel.run [Carousel.Next; Carousel.Dot 3; Carousel.Next] (Carousel.init true)
  = Carousel.run [Carousel.Prev; Carousel.Prev; Carousel.Prev; Carousel.Prev]
                 (Carousel.init true).
Proof.
  apply (CarouselCycle.state_by_index true).
  vm_compute. reflexivity.
Defined.

Lemma in_site_click_loads_once_witness :
  exists w' t,
    on_click Samples.resolve Samples.net
      {| target := [0; 0; 0; 1]%nat; ctrlKey := false; metaKey := false;
         shiftKey := false; altKey := false |} Samples.home = (Returned tt, w')
    /\ trace w' = trace Samples.home ++ t
    /\ prevented t = 1%nat
    /\ loads t = ["/about.html"]
    /\ history w' = [(StateObj (Some "/about.html"), "/about.html"); (StateNull, "/index.html")]
    /\ pathname (location w') = "/about.html".
Proof.
  destruct (in_site_click_loads_once Samples.resolve Samples.net
              {| target := [0; 0; 0; 1]%nat; ctrlKey := false; metaKey := false;
                 shiftKey := false; altKey := false |}
              (el "a" [] [("href", "/about.html")])
              {| protocol := "https:"; host := "tchiavs.example";
                 pathname := "/about.html"; search := ""; hash := "" |}
              Samples.home)
    as (w' & t & Hrun & Htrace & Hprev & Hloads & Hhist & Hloc & _).
  - reflexivity.
  - discriminate.
  - reflexivity.
  - reflexivity.
  - intros [Hhash _]. apply Hhash. reflexivity.
  - intros _. split; reflexivity.
  - exists w', t.
    refine (conj Hrun (conj Htrace (conj Hprev (conj Hloads (conj Hhist _))))).
    rewrite Hloc. reflexivity.
Defined.

Lemma refused_click_only_prevents_witness :
  on_click Samples.resolve Samples.net
    {| target := [1; 1]%nat; ctrlKey := false; metaKey := false;
       shiftKey := false; altKey := false |} Samples.doubled
  = (Thrown (DOMException "SecurityError"), emit PreventDefault Samples.doubled).
Proof.
  apply (refused_click_only_prevents Samples.resolve Samples.net _
           (el "a" [] [("href", "https://tchiavs.example//about.html")])
           Samples.doubled).
  - reflexivity.
  - discriminate.
  - reflexivity.
  - reflexivity.
  - intros [Hhash _]. apply Hhash. reflexivity.
  - discriminate.
  - reflexivity.
Defined.
